(** * Production planner: recipes, catalogue, production tree, scaling

    A shallow embedding of [model/recipe.py], [model/codex.py] and
    [model/assembly_line.py].

    Conventions of the embedding.
    - A Python [float] is its value, a rational ([Qc], canonical fractions,
      so that Leibniz equality is equality of values): every finite
      binary64 number is one.  Comparisons and [ceil] are exact on values,
      as they are on finite floats.  The float product and quotient are the
      exact result rounded to the nearest binary64 number, ties to even
      ([round64], gradual underflow included); a float division by zero
      raises [ZeroDivisionError].  The model has no [inf] and no [nan]:
      a result at or beyond [2^1024] in magnitude, which Python turns into
      [inf], is outside it.
    - A raised exception is a value of [exn]; functions that can raise
      return a [result].
    - [set] objects are [gset string]; the [defaultdict(int)] of
      [tally_machines] is a [gmap string Z].
    - A [Node] is a rose tree.  The [parent] back-reference of a node is its
      position: a node inside a tree is addressed by a zipper (the frames of
      its ancestors, nearest first) and in-place mutation becomes rebuilding
      the tree around the mutated node. *)

From Stdlib Require Import QArith Qcanon Qround Qabs Qpower Qminmax Lqa.
From stdpp Require Import base numbers option strings gmap sets list.

Open Scope string_scope.
Open Scope list_scope.

#[local] Set Warnings "-clear-no-such-hyp".

(** ** Exceptions and results *)

Inductive exn : Set :=
| IndexError
| ValueError
| KeyError
| AttributeError
| ZeroDivisionError.

Inductive result (A : Type) : Type :=
| Ok (a : A)
| Raise (e : exn).
Arguments Ok {A} a.
Arguments Raise {A} e.

Definition rbind {A B} (r : result A) (k : A → result B) : result B :=
  match r with
  | Ok a => k a
  | Raise e => Raise e
  end.

Declare Scope result_scope.
Delimit Scope result_scope with result.
Notation "'let?' x ':=' r 'in' k" := (rbind r (fun x => k))
  (at level 10, x pattern, r at level 100, k at level 200) : result_scope.
Open Scope result_scope.

#[global] Instance exn_eq_dec : EqDecision exn.
Proof. solve_decision. Defined.

(** ** model/recipe.py *)

Record Ingredient : Type := mkIngredient {
  ing_name : string;
  ing_quantity : Qc;
  ing_raw_quantity : Qc
}.

Record Recipe : Type := mkRecipe {
  name : string;
  machine : string;
  r_time : Qc;
  r_energy : Z;
  inputs : list Ingredient;
  outputs : list Ingredient
}.

#[global] Instance Ingredient_eq_dec : EqDecision Ingredient.
Proof. solve_decision. Defined.

#[global] Instance Recipe_eq_dec : EqDecision Recipe.
Proof. solve_decision. Defined.

(** [Recipe.product]: [self.outputs[0]], an [IndexError] on an empty list. *)
Definition product (r : Recipe) : result Ingredient :=
  match outputs r with
  | [] => Raise IndexError
  | p :: _ => Ok p
  end.

(** [Recipe.byproduct]: [None] when there are fewer than two outputs. *)
Definition byproduct (r : Recipe) : option Ingredient :=
  match outputs r with
  | _ :: b :: _ => Some b
  | _ => None
  end.

(** *** Float arithmetic: binary64, round to nearest, ties to even *)

Definition pow2 (e : Z) : Q := Qpower 2%Q e.

(** [floor (log2 x)] for a positive rational: the exponent of its leading
    binary digit. *)
Definition floor_log2 (x : Q) : Z :=
  let e := (Z.log2 (Qnum x) - Z.log2 (Zpos (Qden x)))%Z in
  if Qle_bool (pow2 e) x then e else (e - 1)%Z.

(** The integer nearest to [y], ties to even. *)
Definition nearest_even (y : Q) : Z :=
  let k := Qfloor y in
  match (y - inject_Z k ?= 1 # 2)%Q with
  | Lt => k
  | Gt => (k + 1)%Z
  | Eq => if Z.even k then k else (k + 1)%Z
  end.

(** The exponent of the last place of the binary64 numbers around a
    positive [x]: 52 places below the leading digit (a 53-bit significand),
    and never below [2^-1074] (the subnormal numbers). *)
Definition last_place (x : Q) : Z := (Z.max (floor_log2 x) (-1022) - 52)%Z.

Definition round64_pos (x : Q) : Q :=
  let k := last_place x in
  (inject_Z (nearest_even (x * pow2 (- k))) * pow2 k)%Q.

Definition round64_Q (x : Q) : Q :=
  match Qnum x with
  | Z0 => 0%Q
  | Zpos _ => round64_pos x
  | Zneg _ => (- round64_pos (- x))%Q
  end.

(** The binary64 number nearest to [x]. *)
Definition round64 (x : Qc) : Qc := Q2Qc (round64_Q x).

(** Float multiplication, [a * b]. *)
Definition fmul (a b : Qc) : Qc := round64 (a * b).

(** Float division, [a / b]. *)
Definition fdiv (a b : Qc) : result Qc :=
  if decide (b = 0%Qc) then Raise ZeroDivisionError
  else Ok (round64 (a / b)).

(** The [for ingredient in ...: if ingredient.name == part: ... break] loop
    shared by [scale_to] and the two scaling passes: the first ingredient
    with the given name. *)
Fixpoint find_ingredient (part : string) (l : list Ingredient)
  : option Ingredient :=
  match l with
  | [] => None
  | i :: l' => if decide (ing_name i = part) then Some i
               else find_ingredient part l'
  end.

Inductive direction : Set := d_input | d_output.

Definition scale_to (r : Recipe) (d : direction) (part_name : string)
    (amount : Qc) : result Qc :=
  let ingredients := match d with d_input => inputs r | d_output => outputs r end in
  match find_ingredient part_name ingredients with
  | None => Raise KeyError
  | Some part => fdiv amount (ing_quantity part)
  end.

(** ** model/codex.py *)

Inductive by_role : Set := by_any | by_ingredient | by_product.

Definition default_exclude : gset string := {["Packager"]}.

(** The list [components] built for one recipe in [get_recipes_by_part]. *)
Definition components (role : by_role) (recipe : Recipe)
  : result (list Ingredient) :=
  let ins := match role with
             | by_any | by_ingredient => inputs recipe
             | by_product => []
             end in
  match role with
  | by_any | by_product => let? p := product recipe in Ok (ins ++ [p])
  | by_ingredient => Ok (ins ++ [])
  end.

Fixpoint get_recipes_loop (part : string) (role : by_role)
    (exclude : gset string) (recipes results : list Recipe)
  : result (list Recipe) :=
  match recipes with
  | [] => Ok results
  | recipe :: rest =>
      if decide (machine recipe ∈ exclude)
      then get_recipes_loop part role exclude rest results
      else
        let? comps := components role recipe in
        if decide (part ∈ ing_name <$> comps)
        then get_recipes_loop part role exclude rest (results ++ [recipe])
        else get_recipes_loop part role exclude rest results
  end.

Definition get_recipes_by_part (recipes : list Recipe) (part : string)
    (role : by_role) (exclude_machines : option (gset string))
  : result (list Recipe) :=
  let exclude := default default_exclude exclude_machines in
  get_recipes_loop part role exclude recipes [].

(** ** Selection policies of model/assembly_line.py *)

(** Python's [max(options, key=...)] and [min(options, key=...)]: the first
    element whose key is largest (smallest); [ValueError] on an empty
    sequence; the key is evaluated once on every element, in order. *)
Fixpoint py_best {A} (better : Qc → Qc → bool) (key : A → result Qc)
    (best : A) (best_key : Qc) (l : list A) : result A :=
  match l with
  | [] => Ok best
  | x :: l' =>
      let? k := key x in
      if better k best_key then py_best better key x k l'
      else py_best better key best best_key l'
  end.

Definition py_extremum {A} (better : Qc → Qc → bool) (key : A → result Qc)
    (l : list A) : result A :=
  match l with
  | [] => Raise ValueError
  | x :: l' => let? k := key x in py_best better key x k l'
  end.

Definition Qc_gtb (a b : Qc) : bool := bool_decide (b < a)%Qc.
Definition Qc_ltb (a b : Qc) : bool := bool_decide (a < b)%Qc.

Definition py_max {A} := @py_extremum A Qc_gtb.
Definition py_min {A} := @py_extremum A Qc_ltb.

Definition Qc_of_nat (n : nat) : Qc := Q2Qc (inject_Z (Z.of_nat n)).

Definition simplest_recipe (options : list Recipe) : result Recipe :=
  py_min (fun recipe => Ok (Qc_of_nat (length (inputs recipe)))) options.

Definition product_quantity (recipe : Recipe) : result Qc :=
  let? p := product recipe in Ok (ing_quantity p).

Definition max_output (options : list Recipe) : result Recipe :=
  py_max product_quantity options.

Definition preferred_names (options : list Recipe) (names : gset string)
  : result Recipe :=
  let new_options := filter (fun recipe => name recipe ∈ names) options in
  max_output (match new_options with [] => options | _ => new_options end).

(** ** The production tree *)

(** [Node]: the [parent] field is the node's position in the tree (see
    [Frame]); a node built by [Node(recipe)] has [quantity = 1.0] and no
    children. *)
Unset Elimination Schemes.
Inductive Node : Type := mkNode {
  recipe : Recipe;
  quantity : Qc;
  children : list Node
}.
Set Elimination Schemes.

Definition new_node (r : Recipe) : Node := mkNode r 1%Qc [].

(** One step of the path from a node to the root: the parent's own fields,
    and the parent's other children, those listed before the node and those
    listed after it. *)
Record Frame : Type := mkFrame {
  f_recipe : Recipe;
  f_quantity : Qc;
  f_left : list Node;
  f_right : list Node
}.

Definition plug1 (fr : Frame) (n : Node) : Node :=
  mkNode (f_recipe fr) (f_quantity fr) (f_left fr ++ n :: f_right fr).

(** The tree around a node, given the frames of its ancestors (nearest
    first). *)
Definition plug (ctx : list Frame) (n : Node) : Node :=
  fold_left (fun m fr => plug1 fr m) ctx n.

(** A position in a tree: the ancestors' frames and the node there. *)
Definition Loc : Type := list Frame * Node.

(** A [Factory]: the catalogue ([registry], the recipes of a [Codex]) and
    [self.map].  [Factory(registry, recipe)] starts from a fresh parentless
    node; [Factory(registry, node)] adopts an existing node, whose ancestors
    are [f_above]. *)
Record Factory : Type := mkFactory {
  f_registry : list Recipe;
  f_above : list Frame;
  f_map : Node
}.

Definition Factory_of_recipe (registry : list Recipe) (target : Recipe)
  : Factory :=
  mkFactory registry [] (new_node target).

(** The whole tree a factory's nodes live in. *)
Definition whole (f : Factory) : Node := plug (f_above f) (f_map f).

(** *** Traversals used in the statements *)

Fixpoint preorder (n : Node) : list Node :=
  n :: flat_map preorder (children n).

Section Positions.
Variable locs : list Frame → Node → list Loc.
Variables (r : Recipe) (q : Qc) (ctx : list Frame).

(** The positions under the children [right], whose elder siblings are
    [left]. *)
Fixpoint locations_of_children (left right : list Node) : list Loc :=
  match right with
  | [] => []
  | c :: right' =>
      locs (mkFrame r q left right' :: ctx) c
      ++ locations_of_children (left ++ [c]) right'
  end.
End Positions.

(** Every position of the tree under [n], in pre-order; [ctx] is the
    position of [n] itself. *)
Fixpoint locations (ctx : list Frame) (n : Node) : list Loc :=
  match n with
  | mkNode r q cs => (ctx, n) :: locations_of_children locations r q ctx [] cs
  end.

(** *** find_node *)

Section FindNode.
Variable find : list Frame → Node → result (option Loc).
Variables (r : Recipe) (q : Qc) (ctx : list Frame).

(** [for child in node.children: ... if result is not None: return result] *)
Fixpoint find_in_children (left right : list Node)
  : result (option Loc) :=
  match right with
  | [] => Ok None
  | child :: right' =>
      let? res := find (mkFrame r q left right' :: ctx) child in
      match res with
      | Some loc => Ok (Some loc)
      | None => find_in_children (left ++ [child]) right'
      end
  end.
End FindNode.

Fixpoint _find_node_by_product (prod : string) (ctx : list Frame)
    (node : Node) : result (option Loc) :=
  match node with
  | mkNode r q cs =>
      let? p := product r in
      if decide (ing_name p = prod) then Ok (Some (ctx, node))
      else find_in_children (_find_node_by_product prod) r q ctx [] cs
  end.

(** [Factory.find_node(criterion)] with the default [how="product"]; the
    position returned is relative to [self.map]. *)
Definition find_node (f : Factory) (criterion : string)
  : result (option Loc) :=
  _find_node_by_product criterion [] (f_map f).

(** *** scale *)

(** The outcome of a mutating call: the state it leaves and whether it
    returned or raised. *)
Definition mutated (A : Type) : Type := A * result unit.

Section ForEach.
Variable body : Node → mutated Node.

(** [for child in children: body(child)], stopping at the first raise. *)
Fixpoint for_each_child (cs : list Node) : mutated (list Node) :=
  match cs with
  | [] => ([], Ok tt)
  | c :: rest =>
      let '(c', res) := body c in
      match res with
      | Raise e => (c' :: rest, Raise e)
      | Ok _ =>
          let '(rest', res') := for_each_child rest in
          (c' :: rest', res')
      end
  end.
End ForEach.

(** [_scale_node_by_product(node, match_node)]; of [match_node] only the
    recipe and the quantity are read. *)
Fixpoint _scale_node_by_product (match_recipe : Recipe) (match_quantity : Qc)
    (node : Node) : mutated Node :=
  match node with
  | mkNode r q cs =>
      match product r with
      | Raise e => (node, Raise e)
      | Ok p =>
          match find_ingredient (ing_name p) (inputs match_recipe) with
          | None => (node, Raise ValueError)
          | Some ingredient =>
              let target_quantity :=
                fmul (ing_quantity ingredient) match_quantity in
              match fdiv target_quantity (ing_quantity p) with
              | Raise e => (node, Raise e)
              | Ok q' =>
                  let '(cs', res) :=
                    for_each_child (_scale_node_by_product r q') cs in
                  (mkNode r q' cs', res)
              end
          end
      end
  end.

(** [_scale_node_by_ingredient(node, match_node)] where [node] is the parent
    of [match_node]: [ctx] is the position of [match_node], its head is
    [node].  An empty [ctx] is the case [parent is None], in which the
    callers do not make the call. *)
Fixpoint _scale_node_by_ingredient (ctx : list Frame)
    (match_recipe : Recipe) (match_quantity : Qc)
  : mutated (list Frame) :=
  match ctx with
  | [] => ([], Ok tt)
  | fr :: up =>
      match product match_recipe with
      | Raise e => (ctx, Raise e)
      | Ok p =>
          let target_quantity := fmul (ing_quantity p) match_quantity in
          match find_ingredient (ing_name p) (inputs (f_recipe fr)) with
          | None => (ctx, Raise ValueError)
          | Some ingredient =>
              match fdiv target_quantity (ing_quantity ingredient) with
              | Raise e => (ctx, Raise e)
              | Ok q' =>
                  let body := _scale_node_by_product (f_recipe fr) q' in
                  let '(left', res) := for_each_child body (f_left fr) in
                  match res with
                  | Raise e =>
                      (mkFrame (f_recipe fr) q' left' (f_right fr) :: up,
                       Raise e)
                  | Ok _ =>
                      let '(right', res') :=
                        for_each_child body (f_right fr) in
                      let fr' := mkFrame (f_recipe fr) q' left' right' in
                      match res' with
                      | Raise e => (fr' :: up, Raise e)
                      | Ok _ =>
                          let '(up', res'') :=
                            _scale_node_by_ingredient up (f_recipe fr) q' in
                          (fr' :: up', res'')
                      end
                  end
              end
          end
      end
  end.

(** The factory whose [map] sits [k] frames above the position
    [(ctx, node)]. *)
Definition refocus (registry : list Recipe) (k : nat) (ctx : list Frame)
    (node : Node) : Factory :=
  mkFactory registry (drop k ctx) (plug (take k ctx) node).

(** [Factory.scale(part_name, target_quantity)].  When [find_node] returns
    [None], evaluating [node.recipe] raises [AttributeError]. *)
Definition scale (f : Factory) (part_name : string) (target_quantity : Qc)
  : mutated Factory :=
  match find_node f part_name with
  | Raise e => (f, Raise e)
  | Ok None => (f, Raise AttributeError)
  | Ok (Some (rel, node)) =>
      let back := refocus (f_registry f) (length rel) in
      let ctx := rel ++ f_above f in
      match product (recipe node) with
      | Raise e => (f, Raise e)
      | Ok p =>
          match fdiv target_quantity (ing_quantity p) with
          | Raise e => (f, Raise e)
          | Ok q' =>
              let '(cs', res) :=
                for_each_child (_scale_node_by_product (recipe node) q')
                  (children node) in
              let node' := mkNode (recipe node) q' cs' in
              match res with
              | Raise e => (back ctx node', Raise e)
              | Ok _ =>
                  let '(ctx', res') :=
                    _scale_node_by_ingredient ctx (recipe node) q' in
                  (back ctx' node', res')
              end
          end
      end
  end.

(** *** tally_machines *)

Definition ceil (x : Qc) : Z := Qceiling (this x).

(** [machines[key] += amount] on a [defaultdict(int)]. *)
Definition add_count (key : string) (amount : Z) (machines : gmap string Z)
  : gmap string Z :=
  <[key := (default 0 (machines !! key) + amount)%Z]> machines.

Fixpoint _tally_machines (node : Node) (machines : gmap string Z)
  : gmap string Z :=
  match node with
  | mkNode r q cs =>
      fold_left (fun m child => _tally_machines child m) cs
        (add_count (machine r) (ceil q) machines)
  end.

Definition tally_machines (f : Factory) : gmap string Z :=
  _tally_machines (f_map f) ∅.

(** *** build *)

(** [set] objects live in a store and are passed by reference. *)
Definition ref : Type := nat.
Definition store : Type := gmap ref (gset string).

(** The outcome of a call that may recurse without bound: the recursion of
    the model is cut by a fuel argument. *)
Inductive outcome (A : Type) : Type :=
| Returned (a : A)
| Raised (e : exn)
| OutOfFuel.
Arguments Returned {A} a.
Arguments Raised {A} e.
Arguments OutOfFuel {A}.

(** Computations on the store. *)
Definition B (A : Type) : Type := store → store * outcome A.

Definition ret {A} (a : A) : B A := fun σ => (σ, Returned a).
Definition raise {A} (e : exn) : B A := fun σ => (σ, Raised e).
Definition bind {A C} (m : B A) (k : A → B C) : B C :=
  fun σ =>
    match m σ with
    | (σ', Returned a) => k a σ'
    | (σ', Raised e) => (σ', Raised e)
    | (σ', OutOfFuel) => (σ', OutOfFuel)
    end.
Definition lift {A} (r : result A) : B A :=
  match r with
  | Ok a => ret a
  | Raise e => raise e
  end.

Declare Scope build_scope.
Delimit Scope build_scope with build.
Notation "'let*' x ':=' m 'in' k" := (bind m (fun x => k))
  (at level 10, x pattern, m at level 100, k at level 200) : build_scope.

(** The contents of a set object ([∅] for a reference never allocated). *)
Definition contents (σ : store) (l : ref) : gset string :=
  default ∅ (σ !! l).

(** [x in products] and [products.add(x)]. *)
Definition set_contains (l : ref) (x : string) : B bool :=
  fun σ => (σ, Returned (bool_decide (x ∈ contents σ l))).
Definition set_add (l : ref) (x : string) : B unit :=
  fun σ => (<[l := {[x]} ∪ contents σ l]> σ, Returned tt).

(** [set()]: a new, empty set object. *)
Definition set_new : B ref :=
  fun σ => let l := fresh (dom σ) in (<[l := ∅]> σ, Returned l).

Definition Policy : Type := list Recipe → result Recipe.

Section BuildLoop.
Variables (registry : list Recipe) (fitness_func : Policy)
          (exclude_machines : gset string).
Variable expand : Node → B Node.

(** The [for input in node.recipe.inputs] loop; [kids] is
    [node.children] so far. *)
Fixpoint build_inputs (ins : list Ingredient) (kids : list Node)
  : B (list Node) :=
  match ins with
  | [] => ret kids
  | input :: rest =>
      (let* options := lift (get_recipes_by_part registry (ing_name input)
                         by_product (Some exclude_machines)) in
       match options with
       | [] => build_inputs rest kids
       | _ =>
           let* chosen := lift (fitness_func options) in
           let* child := expand (new_node chosen) in
           build_inputs rest (kids ++ [child])
       end)%build
  end.
End BuildLoop.

Fixpoint _build_factory (fuel : nat) (registry : list Recipe)
    (fitness_func : Policy) (exclude_machines : gset string)
    (products : ref) (node : Node) (depth : Z) : B Node :=
  match fuel with
  | O => fun σ => (σ, OutOfFuel)
  | S fuel' =>
      if decide (depth = 0%Z) then ret node
      else
        (let* p := lift (product (recipe node)) in
         let* seen := set_contains products (ing_name p) in
         if (seen : bool) then ret node
         else
           let* _ := set_add products (ing_name p) in
           let* kids := build_inputs registry fitness_func exclude_machines
                    (fun child =>
                       _build_factory fuel' registry fitness_func
                         exclude_machines products child (depth - 1)%Z)
                    (inputs (recipe node)) (children node) in
           ret (mkNode (recipe node) (quantity node) kids))%build
  end.

(** [Factory.build(fitness_func, exclude_machines, existing_products,
    max_depth)]; an argument left out (or [None]) is [None] here.
    [existing_products or set()] takes the caller's set object unless it is
    empty. *)
Definition build (fuel : nat) (f : Factory) (fitness_func : option Policy)
    (exclude_machines : option (gset string))
    (existing_products : option ref) (max_depth : Z) : B Factory :=
  let fitness_func := default simplest_recipe fitness_func in
  let exclude_machines := default default_exclude exclude_machines in
  (let* products := (match existing_products with
               | Some l =>
                   fun σ =>
                     if decide (contents σ l = ∅) then set_new σ
                     else ret l σ
               | None => set_new
               end) in
   let pruned := mkNode (recipe (f_map f)) (quantity (f_map f)) [] in
   let* built := _build_factory fuel (f_registry f) fitness_func exclude_machines
             products pruned max_depth in
   ret (mkFactory (f_registry f) (f_above f) built))%build.

Definition unlimited : Z := (-1)%Z.

(** ** The remaining operations of the three modules *)

(** *** model/recipe.py: the two wrappers of [scale_to] *)


Definition scale_to_output (r : Recipe) (part_name : string) (amount : Qc)
  : result Qc :=
  scale_to r d_output part_name amount.

(** *** model/codex.py: lookup by name *)

Section Lookup.
(** [str.lower], a builtin. *)
Variable lower : string → string.

(** The loop of [get_recipe], [name0] being the lowered name looked for. *)
Fixpoint get_recipe_loop (name0 : string) (recipes : list Recipe)
  : result Recipe :=
  match recipes with
  | [] => Raise KeyError
  | recipe :: rest =>
      if decide (lower (name recipe) = name0) then Ok recipe
      else get_recipe_loop name0 rest
  end.

Definition get_recipe (recipes : list Recipe) (name : string)
  : result Recipe :=
  get_recipe_loop (lower name) recipes.

(** [[self.get_recipe(name) for name in names]] *)
Fixpoint get_recipes (recipes : list Recipe) (names : list string)
  : result (list Recipe) :=
  match names with
  | [] => Ok []
  | name :: rest =>
      let? recipe := get_recipe recipes name in
      let? others := get_recipes recipes rest in
      Ok (recipe :: others)
  end.
End Lookup.

(** *** model/assembly_line.py: a factory on a node of another factory *)

(** [Factory(registry, target)] sets [self.map] when [target] is a [Recipe]
    or a [Node]; for any other value, [None] among them, the object is
    created without a [map]. *)
Inductive FactoryObject : Type :=
| with_map (f : Factory)
| without_map (registry : list Recipe).

(** [Factory.new_factory_from_product(product)]: the node found is adopted,
    not copied, so the new factory's [map] keeps its ancestors. *)
Definition new_factory_from_product (f : Factory) (product : string)
  : result FactoryObject :=
  let? found := find_node f product in
  match found with
  | Some (rel, node) =>
      Ok (with_map (mkFactory (f_registry f) (rel ++ f_above f) node))
  | None => Ok (without_map (f_registry f))
  end.

(** *** model/assembly_line.py: printing *)

Definition ELBOW : string := "└─".
Definition PIPE : string := "│ ".
Definition TEE : string := "├─".
Definition BLANK : string := "  ".

Definition newline : string := String (Ascii.ascii_of_nat 10) "".

Section Printing.
(** The format [:.02f] of a float. *)
Variable fmt : Qc → string.

(** The text [data] of a node's line. *)
Definition node_data (node : Node) : result string :=
  let recipe := recipe node in
  let? p := product recipe in
  Ok (name recipe +:+ ": " +:+ machine recipe +:+ " x"
      +:+ fmt (quantity node) +:+ " -> "
      +:+ ing_name p +:+ " @ " +:+ fmt (fmul (quantity node) (ing_quantity p))
      +:+ match byproduct recipe with
          | Some b =>
              " + " +:+ ing_name b +:+ " @ "
              +:+ fmt (fmul (quantity node) (ing_quantity b))
          | None => ""
          end).

Section PrintChildren.
Variable print : Node → list string → bool → mutated (list string).

(** [for i, child in enumerate(node.children)]: a child is [last] when no
    child follows it. *)
Fixpoint print_children (cs : list Node) (lines : list string)
  : mutated (list string) :=
  match cs with
  | [] => (lines, Ok tt)
  | child :: rest =>
      let last := match rest with [] => true | _ => false end in
      let '(lines', res) := print child lines last in
      match res with
      | Raise e => (lines', Raise e)
      | Ok _ => print_children rest lines'
      end
  end.
End PrintChildren.

(** [Factory.print_tree(node, lines, last, header)]; [lines] is the list
    the call appends to. *)
Fixpoint print_tree (node : Node) (header : string) (lines : list string)
    (last : bool) : mutated (list string) :=
  match node with
  | mkNode _ _ cs =>
      match node_data node with
      | Raise e => (lines, Raise e)
      | Ok data =>
          let lines1 :=
            match lines with
            | [] => lines ++ [data]
            | _ => lines ++ [header +:+ (if last then ELBOW else TEE) +:+ data]
            end in
          print_children
            (fun child =>
               print_tree child (header +:+ (if last then BLANK else PIPE)))
            cs lines1
      end
  end.

(** [Factory.__str__] *)
Definition Factory_str (f : Factory) : result string :=
  match print_tree (f_map f) "" [] true with
  | (lines, Ok _) => Ok (String.concat newline lines)
  | (_, Raise e) => Raise e
  end.
End Printing.

(** ** adhoc/process_recipes.py *)

(** [l[a:b]] for [0 ≤ a ≤ b], and [l[::2]]. *)
Definition py_slice {A} (a b : nat) (l : list A) : list A :=
  take (b - a) (drop a l).

Fixpoint every_other {A} (l : list A) : list A :=
  match l with
  | [] => []
  | x :: rest =>
      x :: match rest with
           | [] => []
           | _ :: rest' => every_other rest'
           end
  end.

(** [zip(args[a:b:2], args[a+1:b:2])] *)
Definition columns (a b : nat) (args : list string)
  : list (string * string) :=
  zip (every_other (py_slice a b args))
      (every_other (py_slice (a + 1) b args)).

Section LogRecipe.
(** [float] and [int] on a string, builtins. *)
Variable float : string → result Qc.
Variable int : string → result Z.

(** The two loops of [log_recipe]; [parts] is the list built so far.  The
    record stands for the dict with the same keys. *)
Fixpoint log_parts (per_minute : Qc) (pairs : list (string * string))
    (parts : list Ingredient) : result (list Ingredient) :=
  match pairs with
  | [] => Ok parts
  | (part, qty) :: rest =>
      if decide (part = "") then Ok parts
      else
        let? qty := float qty in
        log_parts per_minute rest
          (parts ++ [mkIngredient part qty (fmul qty per_minute)])
  end.

(** [log_recipe], [args] being the row: unpacking [args[1:6]] into five
    names raises [ValueError] unless the slice has five elements. *)
Definition log_recipe (args : list string) : result Recipe :=
  match py_slice 1 6 args with
  | [name; machine; tier; time; per_minute] =>
      let? peak_power :=
        match args !! 18%nat with
        | Some x => Ok x
        | None => Raise IndexError
        end in
      let? per_minute := float per_minute in
      let? inputs := log_parts per_minute (columns 6 14 args) [] in
      let? outputs := log_parts per_minute (columns 14 18 args) [] in
      let? time := float time in
      let? energy := int peak_power in
      Ok (mkRecipe name machine time energy inputs outputs)
  | _ => Raise ValueError
  end.
End LogRecipe.

(** * Vocabulary of the statements *)

(** Concrete data for the examples: whole-number rates. *)
Definition qz (z : Z) : Qc := Q2Qc (inject_Z z).

Definition ingr (n : string) (rate : Z) : Ingredient :=
  mkIngredient n (qz rate) (qz rate).

Definition rcp (n m : string) (ins outs : list Ingredient) : Recipe :=
  mkRecipe n m (qz 1) 0 ins outs.

(** A recipe has a primary product. *)
Definition has_product (r : Recipe) : Prop := outputs r ≠ [].

#[global] Instance has_product_dec r : Decision (has_product r).
Proof. unfold has_product. apply _. Defined.

(** ** The catalogue query *)

Module Catalogue.

(** The classification the code computes: the good is an input of the
    recipe, or the good is the recipe's primary product. *)
Definition involves (role : by_role) (part : string) (r : Recipe) : Prop :=
  match role with
  | by_ingredient => part ∈ ing_name <$> inputs r
  | by_product => part ∈ ing_name <$> take 1 (outputs r)
  | by_any =>
      part ∈ ing_name <$> inputs r ∨ part ∈ ing_name <$> take 1 (outputs r)
  end.

#[global] Instance involves_dec role part r : Decision (involves role part r).
Proof. destruct role; simpl; apply _. Defined.

(** The classification as the specification words it: a producer has the
    good among any of its outputs. *)
Definition involves_any_output (role : by_role) (part : string)
    (r : Recipe) : Prop :=
  match role with
  | by_ingredient => part ∈ ing_name <$> inputs r
  | by_product => part ∈ ing_name <$> outputs r
  | by_any =>
      part ∈ ing_name <$> inputs r ∨ part ∈ ing_name <$> outputs r
  end.

#[global] Instance involves_any_output_dec role part r :
  Decision (involves_any_output role part r).
Proof. destruct role; simpl; apply _. Defined.

Definition selected (class : by_role → string → Recipe → Prop)
    `{!∀ role part r, Decision (class role part r)}
    (exclude : gset string) (role : by_role) (part : string)
    (recipes : list Recipe) : list Recipe :=
  filter (fun r => (machine r ∉ exclude) ∧ class role part r) recipes.

(** The roles for which [recipe.product] is evaluated. *)
Definition reads_product (role : by_role) : Prop := role ≠ by_ingredient.

End Catalogue.

(** ** Selection policies *)

Module Policies.

(** [x] is an element of [l] with the largest key. *)
Definition is_max {A} (key : A → result Qc) (l : list A) (x : A) : Prop :=
  x ∈ l ∧ ∃ k, key x = Ok k ∧
    ∀ y ky, y ∈ l → key y = Ok ky → (ky <= k)%Qc.

(** The candidates [preferred_names] chooses among. *)
Definition pool (options : list Recipe) (names : gset string)
  : list Recipe :=
  let allowed := filter (fun r => name r ∈ names) options in
  if decide (allowed = []) then options else allowed.

End Policies.

(** ** Counting machines *)

Module Tally.

(** The nodes of a list that run on machine [m], and the machines they
    need: each node needs its quantity rounded up. *)
Definition on_machine (m : string) (l : list Node) : list Node :=
  filter (fun n => machine (recipe n) = m) l.

Definition machines_needed (l : list Node) : Z :=
  foldr (fun n z => (ceil (quantity n) + z)%Z) 0%Z l.

Definition count_node (ms : gmap string Z) (n : Node) : gmap string Z :=
  add_count (machine (recipe n)) (ceil (quantity n)) ms.

End Tally.

(** ** Positions in a tree *)

Module Position.

(** [(c, m)] is a position of the tree [n] that sits at [ctx]. *)
Definition position_in (ctx : list Frame) (n : Node) (loc : Loc) : Prop :=
  ∃ rel, loc.1 = rel ++ ctx ∧ plug rel loc.2 = n.

(** The primary product's name, when there is a primary product. *)
Definition product_name (r : Recipe) : option string :=
  ing_name <$> head (outputs r).

Definition produces (g : string) (n : Node) : Prop :=
  product_name (recipe n) = Some g.

#[global] Instance produces_dec g n : Decision (produces g n).
Proof. unfold produces. apply _. Defined.

Definition nodes_have_product (n : Node) : Prop :=
  Forall (fun m => has_product (recipe m)) (preorder n).

End Position.

(** ** The shape of a tree and the cases of scale *)

Module Scaling.

Fixpoint erase (n : Node) : Node :=
  match n with
  | mkNode r _ cs => mkNode r 0%Qc (erase <$> cs)
  end.

Definition erase_frame (fr : Frame) : Frame :=
  mkFrame (f_recipe fr) 0%Qc (erase <$> f_left fr) (erase <$> f_right fr).

Definition erase_factory (f : Factory) : Factory :=
  mkFactory (f_registry f) (erase_frame <$> f_above f) (erase (f_map f)).

(** [scale] either stops before the first write, or has found its anchor
    and written the anchor's quantity; it then runs the downward pass and,
    if that returned, the upward pass. *)
Inductive scale_run (f : Factory) (g : string) (target : Qc)
  : Factory → result unit → Prop :=
| run_find_raises e :
    find_node f g = Raise e → scale_run f g target f (Raise e)
| run_not_found :
    find_node f g = Ok None → scale_run f g target f (Raise AttributeError)
| run_anchor_raises rel node p e :
    find_node f g = Ok (Some (rel, node)) →
    product (recipe node) = Ok p →
    fdiv target (ing_quantity p) = Raise e →
    scale_run f g target f (Raise e)
| run_down_raises rel node p q' cs' e :
    find_node f g = Ok (Some (rel, node)) →
    product (recipe node) = Ok p →
    fdiv target (ing_quantity p) = Ok q' →
    for_each_child (_scale_node_by_product (recipe node) q') (children node)
    = (cs', Raise e) →
    scale_run f g target
      (refocus (f_registry f) (length rel) (rel ++ f_above f)
         (mkNode (recipe node) q' cs'))
      (Raise e)
| run_up rel node p q' cs' ctx' res :
    find_node f g = Ok (Some (rel, node)) →
    product (recipe node) = Ok p →
    fdiv target (ing_quantity p) = Ok q' →
    for_each_child (_scale_node_by_product (recipe node) q') (children node)
    = (cs', Ok tt) →
    _scale_node_by_ingredient (rel ++ f_above f) (recipe node) q'
    = (ctx', res) →
    scale_run f g target
      (refocus (f_registry f) (length rel) ctx' (mkNode (recipe node) q' cs'))
      res.

End Scaling.

(** ** The consistency invariant *)

Module Consistency.

(** The invariant with exact equality: a child produces its primary product
    at the rate at which the parent (recipe [pr], quantity [pq]) consumes
    it; the parent's ingredient is the first of its inputs with the
    product's name. *)
Definition balanced (pr : Recipe) (pq : Qc) (c : Node) : Prop :=
  ∃ p ingredient,
    product (recipe c) = Ok p
    ∧ find_ingredient (ing_name p) (inputs pr) = Some ingredient
    ∧ (quantity c * ing_quantity p = pq * ing_quantity ingredient)%Qc.

(** Every node below the root of [n] is balanced with its parent. *)
Unset Elimination Schemes.
Inductive consistent : Node → Prop :=
| consistent_node r q cs :
    Forall (balanced r q) cs → Forall consistent cs →
    consistent (mkNode r q cs).
Set Elimination Schemes.

(** What the passes compute.  Going down, the child's quantity is the
    float [ingredient.quantity * parent.quantity / product.quantity]. *)
Definition fed (pr : Recipe) (pq : Qc) (c : Node) : Prop :=
  ∃ p ingredient,
    product (recipe c) = Ok p
    ∧ find_ingredient (ing_name p) (inputs pr) = Some ingredient
    ∧ fdiv (fmul (ing_quantity ingredient) pq) (ing_quantity p)
      = Ok (quantity c).

(** Going up, the parent's quantity is the float
    [product.quantity * child.quantity / ingredient.quantity]. *)
Definition feeds (pr : Recipe) (pq : Qc) (c : Node) : Prop :=
  ∃ p ingredient,
    product (recipe c) = Ok p
    ∧ find_ingredient (ing_name p) (inputs pr) = Some ingredient
    ∧ fdiv (fmul (ing_quantity p) (quantity c)) (ing_quantity ingredient)
      = Ok pq.

(** Below a node every quantity was computed from the parent's. *)
Unset Elimination Schemes.
Inductive settled : Node → Prop :=
| settled_node r q cs :
    Forall (fed r q) cs → Forall settled cs → settled (mkNode r q cs).
Set Elimination Schemes.

(** Above the node [n] at the position [ctx]: every ancestor's quantity
    was computed from its child on the path to [n], and the subtrees beside
    the path from the ancestors. *)
Fixpoint settled_above (ctx : list Frame) (n : Node) : Prop :=
  match ctx with
  | [] => True
  | fr :: up =>
      feeds (f_recipe fr) (f_quantity fr) n
      ∧ Forall (fed (f_recipe fr) (f_quantity fr)) (f_left fr ++ f_right fr)
      ∧ Forall settled (f_left fr ++ f_right fr)
      ∧ settled_above up (plug1 fr n)
  end.

(** A factory whose tree is as a [scale] anchored at [map] leaves it. *)
Definition settled_at_map (f : Factory) : Prop :=
  settled (f_map f) ∧ settled_above (f_above f) (f_map f).

(** Along every edge of the tree one of the two quantities is the float
    computed from the other. *)
Unset Elimination Schemes.
Inductive computed : Node → Prop :=
| computed_node r q cs :
    Forall (fun c => fed r q c ∨ feeds r q c) cs → Forall computed cs →
    computed (mkNode r q cs).
Set Elimination Schemes.






End Consistency.

(** ** Rates, and searching an erased tree *)

Module Idempotence.
Import Scaling.

(** The data model's invariant on rates: strictly positive. *)
Definition positive_rates (r : Recipe) : Prop :=
  Forall (fun i => (0 < ing_quantity i)%Qc) (inputs r ++ outputs r).

Unset Elimination Schemes.
Inductive tree_rates_positive : Node → Prop :=
| rates_node r q cs :
    positive_rates r → Forall tree_rates_positive cs →
    tree_rates_positive (mkNode r q cs).
Set Elimination Schemes.

Definition erase_found (x : result (option Loc)) : result (option Loc) :=
  match x with
  | Ok (Some (c, m)) => Ok (Some (erase_frame <$> c, erase m))
  | other => other
  end.

End Idempotence.

(** ** The anchor of scale *)

Module Anchor.
Import Position Scaling.

(** The first position, in pre-order, whose node produces [g]. *)
Definition first_producer (g : string) (n : Node) : option Loc :=
  head (filter (fun loc => produces g loc.2) (locations [] n)).

(** Where the anchor's node is after a call that wrote it: at a position
    of the same shape as [rel], holding the anchor's recipe. *)
Definition anchored (f' : Factory) (rel : list Frame) (node : Node)
    (q' : Qc) : Prop :=
  ∃ rel' cs',
    f_map f' = plug rel' (mkNode (recipe node) q' cs')
    ∧ erase_frame <$> rel' = erase_frame <$> rel
    ∧ erase <$> cs' = erase <$> children node.

End Anchor.

(** ** Runs of build *)

Module Build.
Import Position.

(** The children a run of the loop appends, with the stores between
    them: each is the expansion of a fresh node. *)
Inductive appended (expand : Node → B Node)
  : store → list Node → store → Prop :=
| appended_nil σ : appended expand σ [] σ
| appended_cons σ r σ1 c news σ' :
    expand (new_node r) σ = (σ1, Returned c) →
    appended expand σ1 news σ' →
    appended expand σ (c :: news) σ'.

Fixpoint height (n : Node) : nat :=
  match n with
  | mkNode _ _ cs => foldr (fun c h => S (height c) `max` h) 0 cs
  end.

(** [existing_products or set()]: the store after it and the set chosen. *)
Definition choose_products (seeds : option ref) (σ : store) : store * ref :=
  let new := (<[fresh (dom σ) := ∅]> σ, fresh (dom σ)) in
  match seeds with
  | Some l => if decide (contents σ l = ∅) then new else (σ, l)
  | None => new
  end.

Definition pruned (f : Factory) : Node :=
  mkNode (recipe (f_map f)) (quantity (f_map f)) [].

(** A policy that picks one of its candidates. *)
Definition chooses_candidate (policy : Policy) : Prop :=
  ∀ options r, policy options = Ok r → r ∈ options.

(** The product names of the catalogue: what the set can still grow by. *)
Definition catalogue_names (registry : list Recipe) : gset string :=
  list_to_set (omap product_name registry).

Definition room (registry : list Recipe) (products : ref) (σ : store) : nat :=
  size (catalogue_names registry ∖ contents σ products).

End Build.

(** ** The set of expanded products *)

Module Pruning.
Import Position.

(** Two nodes make the same good. *)
Definition same_product (n1 n2 : Node) : Prop :=
  ∃ g, produces g n1 ∧ produces g n2.

Definition is_leaf (n : Node) : Prop := children n = [].

(** Whatever the depth: a node with children was added to the set during
    the stretch, and no two nodes with children make the same good. *)
Definition expanded_once (s : gset string) (l : list Node)
    (s' : gset string) : Prop :=
  s ⊆ s'
  ∧ Forall (fun n => ¬ is_leaf n → ∃ g, produces g n ∧ g ∈ s' ∧ g ∉ s) l
  ∧ ForallOrdPairs
      (fun n1 n2 => same_product n1 n2 → is_leaf n1 ∨ is_leaf n2) l.

(** With unlimited depth: every node is in the set afterwards, a node
    already in the set is a leaf, and a node that makes the same good as
    an earlier node is a leaf. *)
Definition first_expanded (s : gset string) (l : list Node)
    (s' : gset string) : Prop :=
  s ⊆ s'
  ∧ Forall (fun n => ∃ g, produces g n ∧ g ∈ s' ∧ (g ∈ s → is_leaf n)) l
  ∧ ForallOrdPairs (fun n1 n2 => same_product n1 n2 → is_leaf n2) l.

Definition name_set (r : Recipe) : gset string :=
  match product_name r with
  | Some g => {[g]}
  | None => ∅
  end.

(** The product names of the nodes reached with depth left: all of them
    when [depth] is negative, those above level [depth] otherwise. *)
Fixpoint visited_names (depth : Z) (n : Node) : gset string :=
  match n with
  | mkNode r _ cs =>
      if decide (depth = 0%Z) then ∅
      else name_set r ∪ ⋃ (visited_names (depth - 1) <$> cs)
  end.

(** Only the set [products] is written. *)
Definition only_products (products : ref) (σ σ' : store) : Prop :=
  ∀ l, l ≠ products → σ' !! l = σ !! l.

End Pruning.

(** ** Data of the examples *)

Definition alumina : Recipe :=
  rcp "Alumina Solution" "Refinery"
    [ingr "Bauxite" 120; ingr "Water" 180]
    [ingr "Alumina Solution" 120; ingr "Silica" 50].

Definition packaged_water : Recipe :=
  rcp "Packaged Water" "Packager" [ingr "Water" 60] [ingr "Packaged Water" 60].

Definition iron_ingot : Recipe :=
  rcp "Iron Ingot" "Smelter" [ingr "Iron Ore" 30] [ingr "Iron Ingot" 30].

Definition pure_iron_ingot : Recipe :=
  rcp "Pure Iron Ingot" "Refinery" [ingr "Iron Ore" 35; ingr "Water" 20]
    [ingr "Iron Ingot" 65].

Definition iron_alloy_ingot : Recipe :=
  rcp "Iron Alloy Ingot" "Foundry" [ingr "Iron Ore" 20; ingr "Copper Ore" 20]
    [ingr "Iron Ingot" 50].

(** The two-recipe catalogue of the end-to-end example, and the tree built
    from it. *)
Definition smelt_ore : Recipe :=
  rcp "Smelt Ore" "Smelter" [ingr "Ore" 60] [ingr "Bar" 30].

Definition make_widget : Recipe :=
  rcp "Make Widget" "Assembler" [ingr "Bar" 20] [ingr "Widget" 10].

Definition widget_catalogue : list Recipe := [smelt_ore; make_widget].

Definition widget_factory : Factory :=
  mkFactory widget_catalogue []
    (mkNode make_widget (qz 1) [mkNode smelt_ore (qz 1) []]).

Definition scaled_widget_factory : Factory :=
  (scale widget_factory "Widget" (qz 25)).1.

Definition rescaled_widget_factory : Factory :=
  (scale widget_factory "Bar" (qz 25)).1.

(** A tree in which a child's product is not an input of its parent: the
    second child of the root makes plates, which widgets do not use. *)
Definition press_plate : Recipe :=
  rcp "Press Plate" "Constructor" [ingr "Bar" 30] [ingr "Plate" 20].

Definition stray_factory : Factory :=
  mkFactory widget_catalogue []
    (mkNode make_widget (qz 1)
       [mkNode smelt_ore (qz 1) []; mkNode press_plate (qz 1) []]).

Definition quantities (f : Factory) : list Q :=
  (fun n => this (quantity n)) <$> preorder (f_map f).

(** A machine that makes 25 things a minute from 3 bars, fed by a maker of
    3 bars a minute; and that tree scaled to one bar a minute. *)
Definition make_bar : Recipe := rcp "Make Bar" "Smelter" [] [ingr "Bar" 3].

Definition make_thing : Recipe :=
  rcp "Make Thing" "Assembler" [ingr "Bar" 3] [ingr "Thing" 25].

Definition third_seed : Factory :=
  mkFactory [make_bar; make_thing] []
    (mkNode make_thing (qz 1) [mkNode make_bar (qz 1) []]).

Definition third_factory : Factory := (scale third_seed "Bar" (qz 1)).1.

Definition bare_widget_factory : Factory :=
  Factory_of_recipe widget_catalogue make_widget.

(** A catalogue in which two branches need bars: gadgets are made of frames
    and bars, frames are made of bars. *)
Definition mine_ore : Recipe := rcp "Mine Ore" "Miner" [] [ingr "Ore" 60].

Definition make_frame : Recipe :=
  rcp "Make Frame" "Constructor" [ingr "Bar" 15] [ingr "Frame" 5].

Definition make_gadget : Recipe :=
  rcp "Make Gadget" "Assembler" [ingr "Frame" 2; ingr "Bar" 10]
    [ingr "Gadget" 1].

Definition gadget_catalogue : list Recipe :=
  [make_gadget; make_frame; smelt_ore; mine_ore].

Definition gadget_factory : Factory :=
  Factory_of_recipe gadget_catalogue make_gadget.

(** Built without a depth limit: the bars of the frame are expanded, the
    bars of the gadget are not. *)
Definition gadget_tree : Node :=
  mkNode make_gadget (qz 1)
    [mkNode make_frame (qz 1)
       [mkNode smelt_ore (qz 1) [mkNode mine_ore (qz 1) []]];
     mkNode smelt_ore (qz 1) []].

(** Built with [max_depth = 2]: the frame's bars are reached with no depth
    left, the gadget's bars are expanded. *)
Definition gadget_tree_depth_2 : Node :=
  mkNode make_gadget (qz 1)
    [mkNode make_frame (qz 1) [mkNode smelt_ore (qz 1) []];
     mkNode smelt_ore (qz 1) [mkNode mine_ore (qz 1) []]].

(** The gadget tree as a factory, and the first position, in pre-order,
    of a node that makes bars: the smelter under the frame. *)
Definition gadget_built : Factory := mkFactory gadget_catalogue [] gadget_tree.

Definition bars_of_the_frame : Loc :=
  ([mkFrame make_frame (qz 1) [] [];
    mkFrame make_gadget (qz 1) [] [mkNode smelt_ore (qz 1) []]],
   mkNode smelt_ore (qz 1) [mkNode mine_ore (qz 1) []]).

(** The caller's set, at reference 0: seeded with bars, or empty. *)
Definition seeded_store : store := {[ 0%nat := {["Bar"]} ]}.

Definition empty_seed_store : store := {[ 0%nat := ∅ ]}.

(** ** Vocabulary of the further properties *)

Module Lists.

(** [x] is the first element of [l] that satisfies [P]. *)
Definition first_such {A} (P : A → Prop) (l : list A) (x : A) : Prop :=
  ∃ l1 l2, l = l1 ++ x :: l2 ∧ P x ∧ Forall (fun y => ¬ P y) l1.

(** [x] is the first of the best elements of [l]: it beats every element
    before it and no element after it beats it.  [beats a b] reads: key [a]
    is strictly better than key [b]. *)
Definition first_best {A} (beats : Qc → Qc → Prop) (key : A → Qc)
    (l : list A) (x : A) : Prop :=
  ∃ l1 l2, l = l1 ++ x :: l2
           ∧ Forall (fun y => beats (key x) (key y)) l1
           ∧ Forall (fun y => ¬ beats (key y) (key x)) l2.

Definition named (part : string) (i : Ingredient) : Prop := ing_name i = part.

(** The ingredients [scale_to] looks in. *)
Definition ingredients (r : Recipe) (d : direction) : list Ingredient :=
  match d with d_input => inputs r | d_output => outputs r end.

(** The number of inputs of a recipe and the rate of its primary product
    (zero for a recipe without outputs), as keys. *)
Definition input_count (r : Recipe) : Qc := Qc_of_nat (length (inputs r)).

Definition product_rate (r : Recipe) : Qc :=
  match outputs r with
  | [] => 0%Qc
  | p :: _ => ing_quantity p
  end.

Definition higher (a b : Qc) : Prop := (b < a)%Qc.
Definition lower_than (a b : Qc) : Prop := (a < b)%Qc.

(** [x] is the first element of [l] of the least [size]. *)
Definition first_least {A} (size : A → nat) (l : list A) (x : A) : Prop :=
  ∃ l1 l2, l = l1 ++ x :: l2
           ∧ Forall (fun y => (size x < size y)%nat) l1
           ∧ Forall (fun y => (size x ≤ size y)%nat) l2.

(** [x] is the first element of [l] of the highest [rate]. *)
Definition first_highest {A} (rate : A → Qc) (l : list A) (x : A) : Prop :=
  ∃ l1 l2, l = l1 ++ x :: l2
           ∧ Forall (fun y => (rate y < rate x)%Qc) l1
           ∧ Forall (fun y => (rate y <= rate x)%Qc) l2.

End Lists.

(** ** Data of the further examples *)

(** [str.lower] on ASCII text, for the examples. *)
Definition lower_char (c : Ascii.ascii) : Ascii.ascii :=
  let n := Ascii.nat_of_ascii c in
  if bool_decide (65 ≤ n ≤ 90)%nat then Ascii.ascii_of_nat (n + 32) else c.

Fixpoint lower_ascii (s : string) : string :=
  match s with
  | EmptyString => EmptyString
  | String c s' => String (lower_char c) (lower_ascii s')
  end.

(** A recipe without outputs. *)
Definition unfinished : Recipe :=
  rcp "Unfinished" "Constructor" [ingr "Bar" 1] [].

(** The factory on the smelter of the widget tree. *)
Definition bar_factory : Factory :=
  mkFactory widget_catalogue [mkFrame make_widget (qz 1) [] []]
    (mkNode smelt_ore (qz 1) []).

(** ** Well-formed trees *)

Module Linked.

(** The child [c] makes one of the inputs of the recipe [r]. *)
Definition supplies (r : Recipe) (c : Node) : Prop :=
  ∃ p, product (recipe c) = Ok p ∧ ing_name p ∈ ing_name <$> inputs r.

(** Every node below the root makes one of the inputs of its parent. *)
Unset Elimination Schemes.
Inductive linked : Node → Prop :=
| linked_node r q cs :
    Forall (supplies r) cs → Forall linked cs → linked (mkNode r q cs).
Set Elimination Schemes.

End Linked.

(** ** What build makes *)

Module Built.
Import Position Linked.

(** The goods the children make, in the order of the children. *)
Definition child_goods (cs : list Node) : list string :=
  omap (fun c => product_name (recipe c)) cs.

(** A child as [build] makes it for a node of recipe [r]: a recipe of the
    catalogue, on a machine that is not excluded, whose primary product is
    an input of [r]. *)
Definition made_for (registry : list Recipe) (exclude : gset string)
    (r : Recipe) (c : Node) : Prop :=
  recipe c ∈ registry ∧ (machine (recipe c) ∉ exclude) ∧ supplies r c.

(** A tree as [build] makes it: every child is made for its parent, and the
    goods of the children of a node are inputs of the node, in the order of
    the inputs, at most one child for each input. *)
Unset Elimination Schemes.
Inductive as_built (registry : list Recipe) (exclude : gset string)
  : Node → Prop :=
| as_built_node r q cs :
    Forall (made_for registry exclude r) cs →
    sublist (child_goods cs) (ing_name <$> inputs r) →
    Forall (as_built registry exclude) cs →
    as_built registry exclude (mkNode r q cs).
Set Elimination Schemes.

(** The nodes below the root. *)
Definition descendants (n : Node) : list Node :=
  flat_map preorder (children n).

End Built.

(** ** The policies of the module, and catalogues build can read *)

Module Shipped.

(** The policies model/assembly_line.py defines: [simplest_recipe] (the
    default of [build]), [max_output], and [preferred_names] with its
    [names] fixed. *)
Definition shipped (policy : Policy) : Prop :=
  policy = simplest_recipe ∨ policy = max_output
  ∨ ∃ names, policy = fun options => preferred_names options names.

(** Every recipe [build] may look at has a primary product. *)
Definition readable (registry : list Recipe) (exclude : gset string)
  : Prop :=
  Forall (fun r => machine r ∈ exclude ∨ has_product r) registry.

(** A catalogue for a loop: [Loop] is made from [Loop]. *)
Definition make_loop : Recipe :=
  rcp "Loop" "Constructor" [ingr "Loop" 1] [ingr "Loop" 2].

Definition loop_factory : Factory := Factory_of_recipe [make_loop] make_loop.

End Shipped.

(** ** Printed lines *)

Module Printed.

(** A line for the node [m]: its data after some prefix. *)
Definition line_of (fmt : Qc → string) (line : string) (m : Node) : Prop :=
  ∃ prefix data, node_data fmt m = Ok data ∧ line = prefix +:+ data.

(** What a call on [node] leaves in [lines], and how it ends. *)
Definition printed (fmt : Qc → string) (node : Node) (lines : list string)
    (run : mutated (list string)) : Prop :=
  ∃ new, run.1 = lines ++ new
         ∧ match run.2 with
           | Ok _ => Forall2 (line_of fmt) new (preorder node)
           | Raise e =>
               e = IndexError ∧ ¬ Position.nodes_have_product node
               ∧ (length new < length (preorder node))%nat
           end.

End Printed.

(** ** A row of the spreadsheet *)

Module Spreadsheet.

Definition e_name_nonempty (e : Ingredient) : Prop := ing_name e ≠ "".

(** The entries [parts] read off the row [args]: entry [i] has the part of
    column [first + 2 i], which is not empty, and the quantity of the next
    column; its raw quantity is the float [quantity * per_minute]; there are
    [count] entries at most, and fewer only if the next part is empty. *)
Definition logged_from (float : string → result Qc) (per_minute : Qc)
    (args : list string) (first count : nat) (parts : list Ingredient)
  : Prop :=
  (length parts ≤ count)%nat
  ∧ (∀ i e, parts !! i = Some e →
       e_name_nonempty e
       ∧ args !! (first + 2 * i)%nat = Some (ing_name e)
       ∧ (∃ qty, args !! (first + 1 + 2 * i)%nat = Some qty
                 ∧ float qty = Ok (ing_quantity e))
       ∧ ing_raw_quantity e = fmul (ing_quantity e) per_minute)
  ∧ ((length parts < count)%nat →
     args !! (first + 2 * length parts)%nat = Some "").

(** A reader of the numbers of the example row. *)
Definition read_float (s : string) : result Qc :=
  if decide (s = "2") then Ok (qz 2)
  else if decide (s = "30") then Ok (qz 30)
  else if decide (s = "1") then Ok (qz 1)
  else Raise ValueError.

Definition read_int (s : string) : result Z :=
  if decide (s = "4") then Ok 4%Z else Raise ValueError.

(** Iron Ingot: one ore in, one ingot out, 30 a minute.  The quantity after
    the first empty part is not a number. *)
Definition ingot_row : list string :=
  ["1"; "Iron Ingot"; "Smelter"; "0"; "2"; "30";
   "Iron Ore"; "1"; ""; "n/a"; ""; ""; ""; "";
   "Iron Ingot"; "1"; ""; ""; "4"].

(** What [log_recipe] makes of the example row. *)
Definition ingot_recipe : Recipe :=
  mkRecipe "Iron Ingot" "Smelter" (qz 2) 4
    [mkIngredient "Iron Ore" (qz 1) (fmul (qz 1) (qz 30))]
    [mkIngredient "Iron Ingot" (qz 1) (fmul (qz 1) (qz 30))].

End Spreadsheet.

(** * Properties *)

Import Catalogue Policies Tally Position Scaling Consistency Idempotence
  Anchor Build Pruning.

(** ** Generic facts *)

(** Induction on a tree with the hypothesis available for every child. *)
Lemma Node_tree_ind (P : Node → Prop) :
  (∀ r q cs, Forall P cs → P (mkNode r q cs)) → ∀ n, P n.
Proof.
  intros step. fix IH 1. intros [r q cs]. apply step.
  induction cs as [|c cs IHcs]; constructor; [apply IH | exact IHcs].
Qed.

Lemma has_product_Ok r : has_product r → ∃ p, product r = Ok p.
Proof. unfold has_product, product. destruct (outputs r); [done | eauto]. Qed.

Lemma product_Ok_has r p : product r = Ok p → has_product r.
Proof. unfold has_product, product. by destruct (outputs r). Qed.

(** ** The catalogue query *)

Lemma components_names role part r comps :
  components role r = Ok comps →
  part ∈ ing_name <$> comps ↔ involves role part r.
Proof.
  unfold components, product, involves.
  destruct role, (outputs r) as [|p ps]; simpl; intros E;
    simplify_eq; rewrite ?fmap_app, ?app_nil_r, ?elem_of_app; simpl;
    try tauto.
Qed.

Lemma components_total role r :
  (reads_product role → has_product r) → ∃ comps, components role r = Ok comps.
Proof.
  unfold components, reads_product. intros H. destruct role; simpl; eauto.
  all: destruct (has_product_Ok r) as [p ->]; [by apply H | simpl; eauto].
Qed.

Lemma get_recipes_loop_filter part role exclude recipes results :
  Forall (fun r => machine r ∉ exclude → reads_product role → has_product r)
    recipes →
  get_recipes_loop part role exclude recipes results
  = Ok (results ++ selected involves exclude role part recipes).
Proof.
  unfold selected.
  revert results. induction recipes as [|r rs IH]; intros results Hall; simpl.
  { by rewrite app_nil_r. }
  apply Forall_cons_1 in Hall as [Hr Hrs].
  rewrite filter_cons. destruct (decide (machine r ∈ exclude)) as [Hin|Hout].
  - rewrite decide_False by tauto. by apply IH.
  - destruct (components_total role r (Hr Hout)) as [comps Hc].
    rewrite Hc. simpl.
    pose proof (components_names role part r comps Hc) as Hn.
    destruct (decide (part ∈ ing_name <$> comps)) as [Hp|Hp].
    + rewrite decide_True by tauto. rewrite IH by done.
      by rewrite <- app_assoc.
    + rewrite decide_False by tauto. by apply IH.
Qed.

(** C3, as the code has it.  For every catalogue, good, role and exclusion
    set, [get_recipes_by_part] returns, in catalogue order, the recipes whose
    machine is not excluded and that involve the good, where a recipe
    produces the good when the good is its primary product [outputs[0]]
    (a good that is only a byproduct does not count) and consumes it when
    the good is among its inputs; [by_any] is the union.  For the roles that
    read [recipe.product], every recipe that is not excluded must have an
    output. *)
Theorem get_recipes_by_part_primary_product
    (recipes : list Recipe) (part : string) (role : by_role)
    (exclude_machines : option (gset string)) :
  let exclude := default default_exclude exclude_machines in
  Forall (fun r => machine r ∉ exclude →
                   reads_product role → has_product r) recipes →
  get_recipes_by_part recipes part role exclude_machines
  = Ok (selected involves exclude role part recipes).
Proof.
  intros exclude Hall. unfold get_recipes_by_part.
  by rewrite get_recipes_loop_filter.
Qed.

Lemma get_recipes_by_part_primary_product_witness :
  get_recipes_by_part [alumina; packaged_water] "Water" by_any None
  = Ok [alumina].
Proof.
  rewrite (get_recipes_by_part_primary_product
             [alumina; packaged_water] "Water" by_any None).
  - reflexivity.
  - repeat constructor; intros; unfold has_product; simpl; discriminate.
Defined.

(** C3 as stated fails: a recipe whose byproduct is the good is not returned
    as a producer of it. *)
Lemma byproduct_is_not_a_producer :
  get_recipes_by_part [alumina] "Silica" by_product None = Ok []
  ∧ selected involves_any_output default_exclude
      by_product "Silica" [alumina] = [alumina]
  ∧ get_recipes_by_part [alumina] "Silica" by_product None
    ≠ Ok (selected involves_any_output default_exclude
            by_product "Silica" [alumina]).
Proof. split; [|split]; [reflexivity | reflexivity | discriminate]. Qed.

(** ** Selection policies *)

Section Max.
Context {A : Type} (key : A → result Qc).

Lemma py_best_max best bk l :
  key best = Ok bk →
  Forall (fun x => ∃ k, key x = Ok k) l →
  ∃ x k, py_best Qc_gtb key best bk l = Ok x ∧ key x = Ok k
         ∧ x ∈ best :: l ∧ (bk <= k)%Qc
         ∧ ∀ y ky, y ∈ l → key y = Ok ky → (ky <= k)%Qc.
Proof.
  intros Hb Hl. revert best bk Hb.
  induction Hl as [|y l [ky Hy] Hl IH]; intros best bk Hb; simpl.
  { exists best, bk. repeat split; [done | by left | apply Qcle_refl |].
    intros ? ? Hin. by apply elem_of_nil in Hin. }
  rewrite Hy. simpl. unfold Qc_gtb. case_bool_decide as Hlt.
  - destruct (IH y ky Hy) as (x & k & E & Hk & Hin & Hle & Hall).
    exists x, k. repeat split; [done | done | by apply elem_of_cons; right | |].
    + apply Qclt_le_weak. by eapply Qclt_le_trans.
    + intros z kz Hz Hkz. apply elem_of_cons in Hz as [->|Hz]; [|eauto].
      rewrite Hy in Hkz. by simplify_eq.
  - destruct (IH best bk Hb) as (x & k & E & Hk & Hin & Hle & Hall).
    exists x, k. repeat split; [done | done | | done |].
    { rewrite !elem_of_cons in *. tauto. }
    intros z kz Hz Hkz. apply elem_of_cons in Hz as [->|Hz]; [|eauto].
    rewrite Hy in Hkz. simplify_eq.
    apply Qcnot_lt_le in Hlt. by eapply Qcle_trans.
Qed.

Lemma py_max_is_max l :
  l ≠ [] → Forall (fun x => ∃ k, key x = Ok k) l →
  ∃ x, py_max key l = Ok x ∧ is_max key l x.
Proof.
  intros Hne Hl. destruct l as [|b l]; [done|].
  apply Forall_cons_1 in Hl as [[bk Hb] Hl].
  unfold py_max, py_extremum. rewrite Hb. simpl.
  destruct (py_best_max b bk l Hb Hl) as (x & k & E & Hk & Hin & Hle & Hall).
  exists x. split; [done|]. split; [done|]. exists k. split; [done|].
  intros y ky Hy Hky. apply elem_of_cons in Hy as [->|Hy]; [|eauto].
  rewrite Hb in Hky. by simplify_eq.
Qed.
End Max.

(** C8.  For a non-empty list of candidates, each with a primary product,
    [preferred_names] returns a candidate of the highest primary-product rate
    among the candidates named in the allow-list when there is one, and among
    all candidates otherwise. *)
Theorem preferred_names_highest_rate
    (options : list Recipe) (names : gset string) :
  options ≠ [] → Forall has_product options →
  ∃ chosen, preferred_names options names = Ok chosen
            ∧ is_max product_quantity
                (pool options names) chosen.
Proof.
  intros Hne Hall. unfold preferred_names, max_output.
  assert (∀ l, Forall has_product l →
               Forall (fun x => ∃ k, product_quantity x = Ok k) l) as Hkey.
  { intros l Hl. eapply Forall_impl; [exact Hl|].
    intros r [p Hp]%has_product_Ok.
    unfold product_quantity. rewrite Hp. simpl. eauto. }
  unfold pool.
  destruct (filter (fun r => name r ∈ names) options) as [|a allowed] eqn:E.
  - rewrite decide_True by done. apply py_max_is_max; auto.
  - rewrite decide_False by done. apply py_max_is_max; [done|].
    apply Hkey. rewrite <- E. apply Forall_forall. intros r Hr.
    apply list_elem_of_filter in Hr as [_ Hr].
    by eapply (proj1 (Forall_forall _ _) Hall).
Qed.

Lemma preferred_names_highest_rate_witness :
  ∃ chosen,
    preferred_names [iron_ingot; pure_iron_ingot; iron_alloy_ingot]
      {["Iron Ingot"; "Iron Alloy Ingot"]} = Ok chosen
    ∧ is_max product_quantity
        (pool [iron_ingot; pure_iron_ingot; iron_alloy_ingot]
           {["Iron Ingot"; "Iron Alloy Ingot"]}) chosen.
Proof.
  apply (preferred_names_highest_rate
           [iron_ingot; pure_iron_ingot; iron_alloy_ingot]
           {["Iron Ingot"; "Iron Alloy Ingot"]}).
  - discriminate.
  - repeat constructor; unfold has_product; simpl; discriminate.
Defined.

Example preferred_names_allowed :
  preferred_names [iron_ingot; pure_iron_ingot; iron_alloy_ingot]
    {["Iron Ingot"; "Iron Alloy Ingot"]} = Ok iron_alloy_ingot.
Proof. reflexivity. Qed.

Example preferred_names_fallback :
  preferred_names [iron_ingot; pure_iron_ingot; iron_alloy_ingot]
    {["Steel Ingot"]} = Ok pure_iron_ingot.
Proof. reflexivity. Qed.

(** ** tally_machines *)

Lemma fold_flat_map {A} (f : A → Node → A) (cs : list Node) (a : A) :
  fold_left f (flat_map preorder cs) a
  = fold_left (fun a c => fold_left f (preorder c) a) cs a.
Proof.
  revert a. induction cs as [|c cs IH]; intros a; simpl; [done|].
  by rewrite fold_left_app, IH.
Qed.

(** The traversal counts the nodes one by one in pre-order. *)
Lemma tally_preorder n ms :
  _tally_machines n ms = fold_left count_node (preorder n) ms.
Proof.
  revert ms. induction n as [r q cs IH] using Node_tree_ind; intros ms.
  simpl. rewrite fold_flat_map. unfold count_node at 2. simpl.
  generalize (add_count (machine r) (ceil q) ms). clear ms.
  induction IH as [|c cs Hc _ IHcs]; intros ms; simpl; [done|].
  by rewrite Hc, IHcs.
Qed.

Lemma lookup_count_nodes (l : list Node) (ms : gmap string Z) (m : string) :
  fold_left count_node l ms !! m
  = if decide (on_machine m l = []) then ms !! m
    else Some (default 0 (ms !! m) + machines_needed (on_machine m l))%Z.
Proof.
  revert ms. induction l as [|x l IH]; intros ms; simpl; [done|].
  rewrite IH. unfold on_machine. rewrite filter_cons.
  unfold count_node at 1 2, add_count.
  destruct (decide (machine (recipe x) = m)) as [->|Hne].
  - rewrite lookup_insert_eq. rewrite (decide_False (P := _ :: _ = [])) by done.
    simpl.
    destruct (decide (filter (λ n, machine (recipe n) = m) l = []))
      as [E|E]; [rewrite E|]; simpl; f_equal; lia.
  - by rewrite lookup_insert_ne.
Qed.

(** C9.  The mapping returned by [tally_machines] has an entry for a machine
    type exactly when a node of the tree uses it, and the entry is the sum
    over those nodes of their quantity rounded up. *)
Theorem tally_machines_sums_ceilings (f : Factory) (m : string) :
  tally_machines f !! m
  = let users := on_machine m (preorder (f_map f)) in
    if decide (users = []) then None
    else Some (machines_needed users).
Proof.
  unfold tally_machines. rewrite tally_preorder, lookup_count_nodes.
  simpl. case_decide; [done|]. rewrite lookup_empty. simpl. f_equal.
Qed.

Example tally_scaled_widget :
  map_to_list (tally_machines scaled_widget_factory)
  ≡ₚ [("Assembler", 3%Z); ("Smelter", 2%Z)].
Proof. vm_compute. apply Permutation_swap. Qed.

(** ** Positions and find_node *)

Lemma plug_app (a b : list Frame) (n : Node) :
  plug (a ++ b) n = plug b (plug a n).
Proof. apply fold_left_app. Qed.

Lemma plug_snoc (rel : list Frame) (fr : Frame) (n : Node) :
  plug (rel ++ [fr]) n = plug1 fr (plug rel n).
Proof. by rewrite plug_app. Qed.

Lemma position_child r q left right ctx child loc :
  position_in (mkFrame r q left right :: ctx) child loc →
  position_in ctx (mkNode r q (left ++ child :: right)) loc.
Proof.
  intros (rel & E & Hplug). exists (rel ++ [mkFrame r q left right]).
  split; [by rewrite <- app_assoc|]. by rewrite plug_snoc, Hplug.
Qed.

(** What [find_node] returns is a position of the tree searched. *)
Lemma find_position prod ctx n loc :
  _find_node_by_product prod ctx n = Ok (Some loc) → position_in ctx n loc.
Proof.
  revert ctx. induction n as [r q cs IH] using Node_tree_ind. intros ctx.
  simpl. destruct (product r) as [p|]; [simpl|done].
  case_decide.
  { intros [= <-]. by exists []. }
  change cs with ([] ++ cs) at 2. generalize (@nil Node) as left.
  induction IH as [|c right Hc _ IHright]; intros left; simpl; [done|].
  destruct (_find_node_by_product prod _ c) as [[found|]|] eqn:E;
    simpl; [| |done].
  - intros [= <-]. by apply position_child, Hc.
  - intros H'. apply IHright in H'. by rewrite <- app_assoc in H'.
Qed.

Lemma product_name_Ok r p : product r = Ok p → product_name r = Some (ing_name p).
Proof. unfold product, product_name. destruct (outputs r); naive_solver. Qed.

Lemma Forall_flat_map {A C} (P : C → Prop) (f : A → list C) (l : list A) :
  Forall P (flat_map f l) ↔ Forall (fun x => Forall P (f x)) l.
Proof.
  induction l as [|x l IH]; simpl.
  - split; constructor.
  - rewrite Forall_app, Forall_cons, IH. done.
Qed.

Lemma nodes_have_product_inv r q cs :
  nodes_have_product (mkNode r q cs) →
  has_product r ∧ Forall nodes_have_product cs.
Proof.
  unfold nodes_have_product. simpl. rewrite Forall_cons, Forall_flat_map.
  done.
Qed.

Lemma head_app_case {A} (l1 l2 : list A) :
  head (l1 ++ l2) = match head l1 with Some x => Some x | None => head l2 end.
Proof. by destruct l1. Qed.

(** [find_node] returns the first position, in pre-order, whose node
    produces the good. *)
Lemma find_first prod ctx n :
  nodes_have_product n →
  _find_node_by_product prod ctx n
  = Ok (head (filter (fun loc => produces prod loc.2) (locations ctx n))).
Proof.
  revert ctx. induction n as [r q cs IH] using Node_tree_ind.
  intros ctx [Hr Hcs]%nodes_have_product_inv. simpl.
  destruct (has_product_Ok r Hr) as [p Hp]. rewrite Hp. simpl.
  rewrite filter_cons. pose proof (product_name_Ok r p Hp) as Hn.
  destruct (decide (ing_name p = prod)) as [Heq|Hne].
  { rewrite decide_True; [done|]. unfold produces. simpl. congruence. }
  rewrite decide_False by (unfold produces; simpl; congruence).
  generalize (@nil Node) as left.
  induction IH as [|c right Hc _ IHright]; intros left; simpl; [done|].
  apply Forall_cons_1 in Hcs as [Hc' Hright].
  rewrite Hc by done. simpl. rewrite filter_app, head_app_case.
  destruct (head _) as [loc|]; [done|]. by apply IHright.
Qed.

Lemma locations_preorder ctx n : (locations ctx n).*2 = preorder n.
Proof.
  revert ctx. induction n as [r q cs IH] using Node_tree_ind. intros ctx.
  cbn [locations preorder children]. rewrite fmap_cons. f_equal.
  generalize (@nil Node) as left.
  induction IH as [|c right Hc _ IHright]; intros left;
    cbn [locations_of_children flat_map]; [done|].
  by rewrite fmap_app, Hc, IHright.
Qed.

Lemma locations_positions ctx n :
  Forall (position_in ctx n) (locations ctx n).
Proof.
  revert ctx. induction n as [r q cs IH] using Node_tree_ind. intros ctx.
  simpl. constructor; [by exists []|].
  change cs with ([] ++ cs) at 1. generalize (@nil Node) as left.
  induction IH as [|c right Hc _ IHright]; intros left; simpl;
    [constructor|].
  apply Forall_app. split.
  - eapply Forall_impl; [apply Hc|]. intros loc. apply position_child.
  - specialize (IHright (left ++ [c])). by rewrite <- app_assoc in IHright.
Qed.

(** ** Scaling *)

(** *** The loop over children *)

Lemma for_each_child_Ok body cs cs' :
  for_each_child body cs = (cs', Ok tt) →
  Forall2 (fun c c' => body c = (c', Ok tt)) cs cs'.
Proof.
  revert cs'. induction cs as [|c cs IH]; intros cs'; simpl.
  { intros [= <-]. constructor. }
  destruct (body c) as [c' [[]|e]] eqn:Ec; [|done].
  destruct (for_each_child body cs) as [rest' res'] eqn:Er.
  intros [= <- ->]. constructor; [done|]. by apply IH.
Qed.

Lemma for_each_child_id body cs :
  Forall (fun c => body c = (c, Ok tt)) cs →
  for_each_child body cs = (cs, Ok tt).
Proof.
  induction 1 as [|c cs Hc _ IH]; simpl; [done|]. by rewrite Hc, IH.
Qed.

Lemma for_each_child_ext body1 body2 cs1 cs2 cs' :
  Forall2 (fun c1 c2 => ∀ c', body1 c1 = (c', Ok tt) → body2 c2 = (c', Ok tt))
    cs1 cs2 →
  for_each_child body1 cs1 = (cs', Ok tt) →
  for_each_child body2 cs2 = (cs', Ok tt).
Proof.
  intros H. revert cs'. induction H as [|c1 c2 cs1 cs2 Hc _ IH]; intros cs';
    simpl; [done|].
  destruct (body1 c1) as [c' [[]|e]] eqn:Ec; [|done].
  destruct (for_each_child body1 cs1) as [rest' res'] eqn:Er.
  intros [= <- ->]. rewrite (Hc c' eq_refl), (IH rest' eq_refl). done.
Qed.

(** *** The shape of a tree: everything but the quantities *)

Lemma erase_recipe n : recipe (erase n) = recipe n.
Proof. by destruct n. Qed.

Lemma erase_eq_recipe n1 n2 : erase n1 = erase n2 → recipe n1 = recipe n2.
Proof. intros E. by rewrite <- (erase_recipe n1), E, erase_recipe. Qed.

Lemma erase_eq_children n1 n2 :
  erase n1 = erase n2 → erase <$> children n1 = erase <$> children n2.
Proof. destruct n1, n2. simpl. by intros [= _ ?]. Qed.

Lemma erase_plug1 fr n : erase (plug1 fr n) = plug1 (erase_frame fr) (erase n).
Proof. unfold plug1. simpl. by rewrite fmap_app, fmap_cons. Qed.

Lemma erase_plug ctx n :
  erase (plug ctx n) = plug (erase_frame <$> ctx) (erase n).
Proof.
  revert n. induction ctx as [|fr ctx IH]; intros n; simpl; [done|].
  unfold plug in *. simpl. by rewrite IH, erase_plug1.
Qed.

Lemma for_each_child_shape body cs cs' res :
  Forall (fun c => ∀ c' res, body c = (c', res) → erase c' = erase c) cs →
  for_each_child body cs = (cs', res) →
  erase <$> cs' = erase <$> cs.
Proof.
  intros H. revert cs' res. induction H as [|c cs Hc _ IH]; intros cs' res;
    simpl.
  { by intros [= <- _]. }
  destruct (body c) as [c' [[]|e]] eqn:Ec.
  - destruct (for_each_child body cs) as [rest' res'] eqn:Er.
    intros [= <- _]. rewrite !fmap_cons.
    by rewrite (Hc _ _ eq_refl), (IH _ _ eq_refl).
  - intros [= <- _]. rewrite !fmap_cons. by rewrite (Hc _ _ eq_refl).
Qed.

(** The downward pass changes quantities only. *)
Lemma scale_by_product_shape mr mq n n' res :
  _scale_node_by_product mr mq n = (n', res) → erase n' = erase n.
Proof.
  revert mr mq n' res. induction n as [r q cs IH] using Node_tree_ind.
  intros mr mq n' res. simpl.
  destruct (product r) as [p|]; [|by intros [= <- _]].
  destruct (find_ingredient _ _) as [ing|]; [|by intros [= <- _]].
  destruct (fdiv _ _) as [q'|]; [|by intros [= <- _]].
  destruct (for_each_child _ cs) as [cs' res'] eqn:E.
  intros [= <- _]. simpl. f_equal.
  eapply for_each_child_shape; [|exact E].
  eapply Forall_impl; [exact IH|]. intros c Hc c' res''. apply Hc.
Qed.

Lemma for_each_scaled_shape mr mq cs cs' res :
  for_each_child (_scale_node_by_product mr mq) cs = (cs', res) →
  erase <$> cs' = erase <$> cs.
Proof.
  apply for_each_child_shape. apply Forall_forall. intros c _ c' res'.
  apply scale_by_product_shape.
Qed.

(** So does the upward pass. *)
Lemma scale_by_ingredient_shape ctx mr mq ctx' res :
  _scale_node_by_ingredient ctx mr mq = (ctx', res) →
  erase_frame <$> ctx' = erase_frame <$> ctx.
Proof.
  revert mr mq ctx' res. induction ctx as [|fr up IH]; intros mr mq ctx' res;
    simpl.
  { by intros [= <- _]. }
  destruct (product mr) as [p|]; [|by intros [= <- _]].
  destruct (find_ingredient _ _) as [ing|]; [|by intros [= <- _]].
  destruct (fdiv _ _) as [q'|]; [|by intros [= <- _]].
  destruct (for_each_child _ (f_left fr)) as [left' [[]|e]] eqn:El.
  - destruct (for_each_child _ (f_right fr)) as [right' [[]|e]] eqn:Er.
    + destruct (_scale_node_by_ingredient up _ _) as [up' res''] eqn:Eu.
      intros [= <- _]. rewrite !fmap_cons. rewrite (IH _ _ _ _ Eu).
      f_equal. unfold erase_frame. simpl.
      by rewrite (for_each_scaled_shape _ _ _ _ _ El),
                 (for_each_scaled_shape _ _ _ _ _ Er).
    + intros [= <- _]. rewrite !fmap_cons. f_equal.
      unfold erase_frame. simpl.
      by rewrite (for_each_scaled_shape _ _ _ _ _ El),
                 (for_each_scaled_shape _ _ _ _ _ Er).
  - intros [= <- _]. rewrite !fmap_cons. f_equal.
    unfold erase_frame. simpl.
    by rewrite (for_each_scaled_shape _ _ _ _ _ El).
Qed.

(** *** The cases of [scale] *)

Lemma whole_refocus registry k ctx n :
  whole (refocus registry k ctx n) = plug ctx n.
Proof.
  unfold whole, refocus. simpl. by rewrite <- plug_app, take_drop.
Qed.

Lemma find_node_position f g rel node :
  find_node f g = Ok (Some (rel, node)) → plug rel node = f_map f.
Proof.
  intros (rel' & E & Hplug)%find_position. simpl in *.
  rewrite app_nil_r in E. by subst.
Qed.

(** The node [find_node] returns produces the good. *)
Lemma find_produces prod ctx n loc :
  _find_node_by_product prod ctx n = Ok (Some loc) →
  ∃ p, product (recipe loc.2) = Ok p ∧ ing_name p = prod.
Proof.
  revert ctx. induction n as [r q cs IH] using Node_tree_ind. intros ctx.
  simpl. destruct (product r) as [p|] eqn:Er; simpl; [|done].
  case_decide.
  { intros [= <-]. simpl. eauto. }
  generalize (@nil Node).
  induction IH as [|c right Hc _ IHr]; intros left; simpl; [done|].
  destruct (_find_node_by_product prod _ c) as [[found|]|] eqn:Ec;
    simpl; [| |done].
  - intros [= ->]. by eapply Hc.
  - apply IHr.
Qed.

Lemma scale_runs f g target :
  scale_run f g target (scale f g target).1 (scale f g target).2.
Proof.
  unfold scale.
  destruct (find_node f g) as [[[rel node]|]|e] eqn:Ef; simpl;
    [| by constructor | by constructor].
  destruct (product (recipe node)) as [p|e] eqn:Ep; simpl.
  2:{ apply find_produces in Ef as (p & Hp & _). simpl in Hp. congruence. }
  destruct (fdiv target (ing_quantity p)) as [q'|e] eqn:Eq.
  2:{ by eapply run_anchor_raises. }
  destruct (for_each_child _ (children node)) as [cs' [[]|e]] eqn:Ec.
  2:{ by eapply run_down_raises. }
  destruct (_scale_node_by_ingredient _ _ _) as [ctx' res] eqn:Eu. simpl.
  by eapply run_up.
Qed.

Lemma scale_inv f g target f' res :
  scale f g target = (f', res) → scale_run f g target f' res.
Proof.
  intros E. pose proof (scale_runs f g target) as H. by rewrite E in H.
Qed.

Lemma erase_refocus registry k ctx n :
  erase_factory (refocus registry k ctx n)
  = refocus registry k (erase_frame <$> ctx) (erase n).
Proof.
  unfold erase_factory, refocus. simpl.
  by rewrite fmap_drop, erase_plug, fmap_take.
Qed.

Lemma refocus_app registry rel above n :
  refocus registry (length rel) (rel ++ above) n
  = mkFactory registry above (plug rel n).
Proof. unfold refocus. by rewrite take_app_length, drop_app_length. Qed.

(** [scale] changes quantities only, whatever its outcome. *)
Lemma scale_shape f g target f' res :
  scale f g target = (f', res) → erase_factory f' = erase_factory f.
Proof.
  intros H%scale_inv.
  assert (∀ rel node ctx' n',
    find_node f g = Ok (Some (rel, node)) →
    erase_frame <$> ctx' = erase_frame <$> (rel ++ f_above f) →
    erase n' = erase node →
    erase_factory (refocus (f_registry f) (length rel) ctx' n')
    = erase_factory f) as Hback.
  { intros rel node ctx' n' Hf Hctx Hn. rewrite erase_refocus, Hctx, Hn.
    rewrite fmap_app. rewrite <- (length_fmap erase_frame rel).
    rewrite refocus_app. unfold erase_factory. f_equal.
    by rewrite <- erase_plug, (find_node_position f g rel node). }
  destruct H as [| | |rel node p q' cs' e Hf Hp Hq Hc
                 |rel node p q' cs' ctx' res Hf Hp Hq Hc Hu]; try done.
  - eapply Hback; [done..|]. destruct node as [r q cs]. simpl in *. f_equal.
    by eapply for_each_scaled_shape.
  - eapply Hback; [done| |].
    + by eapply scale_by_ingredient_shape.
    + destruct node as [r q cs]. simpl in *. f_equal.
      by eapply for_each_scaled_shape.
Qed.

(** ** Float arithmetic *)


















Lemma fdiv_nonzero a b : b ≠ 0%Qc → fdiv a b = Ok (round64 (a / b)).
Proof. intros Hb. unfold fdiv. by rewrite decide_False. Qed.

(** ** The consistency invariant *)


Lemma settled_inv r q cs :
  settled (mkNode r q cs) → Forall (fed r q) cs ∧ Forall settled cs.
Proof. by inversion 1. Qed.

(** The downward pass leaves the node fed by the node it was matched
    against, and everything below it settled. *)
Lemma scale_by_product_settled mr mq n n' :
  _scale_node_by_product mr mq n = (n', Ok tt) →
  fed mr mq n' ∧ settled n'.
Proof.
  revert mr mq n'. induction n as [r q cs IH] using Node_tree_ind.
  intros mr mq n'. simpl.
  destruct (product r) as [p|] eqn:Ep; [|done].
  destruct (find_ingredient _ _) as [ing|] eqn:Ei; [|done].
  destruct (fdiv _ _) as [q'|] eqn:Eq; [|done].
  destruct (for_each_child _ cs) as [cs' res'] eqn:E.
  intros [= <- ->]. split.
  - by exists p, ing.
  - apply for_each_child_Ok in E.
    assert (Forall (fun c' => fed r q' c' ∧ settled c') cs') as H.
    { clear -IH E. induction E as [|c c' cs cs' Hc _ IHE]; [constructor|].
      apply Forall_cons_1 in IH as [IHc IHcs].
      constructor; [by eapply IHc | by apply IHE]. }
    apply Forall_and in H as [??]. by constructor.
Qed.

Lemma for_each_scaled_settled r q cs cs' :
  for_each_child (_scale_node_by_product r q) cs = (cs', Ok tt) →
  Forall (fed r q) cs' ∧ Forall settled cs'.
Proof.
  intros E%for_each_child_Ok. apply Forall_and.
  induction E as [|c c' cs cs' Hc _ IH]; constructor; [|done].
  by eapply scale_by_product_settled.
Qed.

(** The upward pass: every ancestor is computed from its child on the
    path, and the subtrees beside the path from the ancestors. *)
Lemma scale_by_ingredient_settled ctx ctx' n :
  _scale_node_by_ingredient ctx (recipe n) (quantity n) = (ctx', Ok tt) →
  settled_above ctx' n.
Proof.
  revert ctx' n. induction ctx as [|fr up IH]; intros ctx' n; simpl.
  { by intros [= <-]. }
  destruct (product (recipe n)) as [p|] eqn:Ep; [|done].
  destruct (find_ingredient _ _) as [ing|] eqn:Ei; [|done].
  destruct (fdiv _ _) as [q'|] eqn:Eq; [|done].
  destruct (for_each_child _ (f_left fr)) as [left' [[]|e]] eqn:El; [|done].
  destruct (for_each_child _ (f_right fr)) as [right' [[]|e]] eqn:Er; [|done].
  destruct (_scale_node_by_ingredient up _ _) as [up' res''] eqn:Eu.
  intros [= <- ->]. simpl.
  apply for_each_scaled_settled in El as [Hlf Hls].
  apply for_each_scaled_settled in Er as [Hrf Hrs].
  split; [by exists p, ing|]. split; [by apply Forall_app|].
  split; [by apply Forall_app|].
  by apply (IH up' (plug1 (mkFrame (f_recipe fr) q' left' right') n)).
Qed.

(** A call of [scale] that returned leaves the tree settled around its
    anchor. *)
Lemma scale_settled f g target f' :
  scale f g target = (f', Ok tt) →
  ∃ rel node ctx' node',
    find_node f g = Ok (Some (rel, node))
    ∧ f' = refocus (f_registry f) (length rel) ctx' node'
    ∧ settled node' ∧ settled_above ctx' node'.
Proof.
  intros H%scale_inv.
  inversion H as [| | | |rel node p q' cs' ctx' res Hf Hp Hq Hc Hu]; subst.
  exists rel, node, ctx', (mkNode (recipe node) q' cs').
  split; [done|]. split; [done|]. split.
  - apply for_each_scaled_settled in Hc as [??]. by constructor.
  - by apply (scale_by_ingredient_settled (rel ++ f_above f)).
Qed.

Lemma settled_computed n : settled n → computed n.
Proof.
  induction n as [r q cs IH] using Node_tree_ind.
  intros [Hf Hs]%settled_inv. constructor.
  - eapply Forall_impl; [exact Hf|]. intros c ?. by left.
  - apply Forall_forall. intros c Hc.
    apply (proj1 (Forall_forall _ _) IH c Hc).
    by apply (proj1 (Forall_forall _ _) Hs).
Qed.

Lemma computed_plug ctx n :
  computed n → settled_above ctx n → computed (plug ctx n).
Proof.
  revert n. induction ctx as [|fr up IH]; intros n Hn; simpl; [done|].
  intros (Hfeeds & Hfed & Hsettled & Hup).
  apply (IH (plug1 fr n)); [|done]. unfold plug1.
  apply Forall_app in Hfed as [Hfl Hfr].
  apply Forall_app in Hsettled as [Hsl Hsr].
  constructor.
  - apply Forall_app. split.
    + eapply Forall_impl; [exact Hfl|]. intros c ?. by left.
    + constructor; [by right|].
      eapply Forall_impl; [exact Hfr|]. intros c ?. by left.
  - apply Forall_app. split.
    + eapply Forall_impl; [exact Hsl|]. apply settled_computed.
    + constructor; [done|].
      eapply Forall_impl; [exact Hsr|]. apply settled_computed.
Qed.

Lemma scale_computed f g target f' :
  scale f g target = (f', Ok tt) → computed (whole f').
Proof.
  intros (rel & node & ctx' & node' & _ & -> & Hs & Ha)%scale_settled.
  rewrite whole_refocus. apply computed_plug; [|done].
  by apply settled_computed.
Qed.

(** *** The tolerance *)










(** ** Re-applying scale *)

Lemma positive_nonzero (x : Qc) : (0 < x)%Qc → x ≠ 0%Qc.
Proof. intros H ->. by apply Qclt_not_eq in H. Qed.

Lemma product_rate_nonzero r p :
  positive_rates r → product r = Ok p → ing_quantity p ≠ 0%Qc.
Proof.
  unfold positive_rates, product. intros [_ H]%Forall_app.
  destruct (outputs r) as [|p' ?]; [done|]. intros [= <-].
  apply Forall_cons_1 in H as [H _]. by apply positive_nonzero.
Qed.

Lemma find_ingredient_elem part l i :
  find_ingredient part l = Some i → i ∈ l ∧ ing_name i = part.
Proof.
  induction l as [|x l IH]; simpl; [done|]. case_decide.
  - intros [= <-]. split; [by left | done].
  - intros [??]%IH. split; [by right | done].
Qed.

Lemma input_rate_nonzero r part i :
  positive_rates r → find_ingredient part (inputs r) = Some i →
  ing_quantity i ≠ 0%Qc.
Proof.
  unfold positive_rates. intros [H _]%Forall_app [Hi _]%find_ingredient_elem.
  apply positive_nonzero. by eapply (proj1 (Forall_forall _ _) H).
Qed.

Lemma rates_plug ctx n : tree_rates_positive (plug ctx n) → tree_rates_positive n.
Proof.
  revert n. induction ctx as [|fr up IH]; intros n; simpl; [done|].
  intros H%IH. unfold plug1 in H. inversion H as [? ? ? _ Hcs]; subst.
  apply Forall_app in Hcs as [_ Hcs]. by apply Forall_cons_1 in Hcs as [??].
Qed.

(** *** A settled tree is a fixed point of the passes *)

(** On a subtree that is fed and settled the downward pass recomputes the
    quantities already there. *)
Lemma scale_by_product_fixed mr mq n :
  fed mr mq n → settled n → _scale_node_by_product mr mq n = (n, Ok tt).
Proof.
  revert mr mq. induction n as [r q cs IH] using Node_tree_ind.
  intros mr mq (p & ing & Hp & Hi & Hq) [Hf Hs]%settled_inv. simpl in *.
  rewrite Hp, Hi, Hq.
  rewrite for_each_child_id; [done|].
  clear -IH Hf Hs. induction IH as [|c cs Hc' _ IHcs]; [constructor|].
  apply Forall_cons_1 in Hf as [??]. apply Forall_cons_1 in Hs as [??].
  constructor; auto.
Qed.

Lemma for_each_scaled_fixed r q cs :
  Forall (fed r q) cs → Forall settled cs →
  for_each_child (_scale_node_by_product r q) cs = (cs, Ok tt).
Proof.
  intros Hf Hs. apply for_each_child_id.
  induction cs as [|c cs IH]; [constructor|].
  apply Forall_cons_1 in Hf as [??]. apply Forall_cons_1 in Hs as [??].
  constructor; [by apply scale_by_product_fixed | by apply IH].
Qed.

(** Above a node the tree is settled around, the upward pass recomputes
    the quantities already there. *)
Lemma scale_by_ingredient_fixed ctx n :
  settled_above ctx n →
  _scale_node_by_ingredient ctx (recipe n) (quantity n) = (ctx, Ok tt).
Proof.
  revert n. induction ctx as [|[fr fq left right] up IH]; intros n;
    simpl in *; [done|].
  intros ((p & ing & Hp & Hi & Hq) & Hfed & Hsettled & Hup).
  apply Forall_app in Hfed as [Hfl Hfr].
  apply Forall_app in Hsettled as [Hsl Hsr].
  rewrite Hp, Hi, Hq.
  rewrite !for_each_scaled_fixed by done.
  specialize (IH (plug1 (mkFrame fr fq left right) n) Hup).
  unfold plug1 in IH at 1 2. simpl in IH. by rewrite IH.
Qed.

(** *** A successful scale depends on the shape of the tree only *)

(** Searching the erased tree finds the erased position. *)
Lemma find_erase prod ctx n :
  _find_node_by_product prod (erase_frame <$> ctx) (erase n)
  = erase_found (_find_node_by_product prod ctx n).
Proof.
  revert ctx. induction n as [r q cs IH] using Node_tree_ind. intros ctx.
  simpl. destruct (product r) as [p|]; simpl; [|done].
  case_decide; [done|].
  change (@nil Node) with (erase <$> @nil Node) at 1.
  generalize (@nil Node) as left.
  induction IH as [|c right Hc _ IHr]; intros left; [done|].
  rewrite fmap_cons. cbn [find_in_children].
  specialize (Hc (mkFrame r q left right :: ctx)).
  rewrite fmap_cons in Hc. unfold erase_frame at 1 in Hc. simpl in Hc.
  rewrite Hc.
  destruct (_find_node_by_product prod _ c) as [[[c0 m0]|]|]; simpl;
    [done| |done].
  specialize (IHr (left ++ [c])). by rewrite fmap_app in IHr.
Qed.

Lemma scale_by_product_shape_only mr mq n1 n2 n' :
  erase n1 = erase n2 →
  _scale_node_by_product mr mq n1 = (n', Ok tt) →
  _scale_node_by_product mr mq n2 = (n', Ok tt).
Proof.
  revert mr mq n2 n'. induction n1 as [r q cs IH] using Node_tree_ind.
  intros mr mq [r2 q2 cs2] n'. simpl. intros [= <- Hcs].
  destruct (product r) as [p|]; [|done].
  destruct (find_ingredient _ _) as [ing|]; [|done].
  destruct (fdiv _ _) as [q'|]; [|done].
  destruct (for_each_child _ cs) as [cs' [[]|]] eqn:E; [|by intros [=]].
  intros [= <-].
  rewrite (for_each_child_ext (_scale_node_by_product r q')
             (_scale_node_by_product r q') cs cs2 cs');
    [done| |done].
  clear -IH Hcs. revert cs2 Hcs.
  induction IH as [|c cs Hc _ IHcs]; intros [|c2 cs2]; simpl;
    intros [=]; constructor; eauto.
Qed.

Lemma for_each_scaled_shape_only r q cs1 cs2 cs' :
  erase <$> cs1 = erase <$> cs2 →
  for_each_child (_scale_node_by_product r q) cs1 = (cs', Ok tt) →
  for_each_child (_scale_node_by_product r q) cs2 = (cs', Ok tt).
Proof.
  intros Hcs. apply for_each_child_ext. revert cs2 Hcs.
  induction cs1 as [|c cs IH]; intros [|c2 cs2]; simpl; intros [=];
    constructor; [|eauto].
  intros c'. by apply scale_by_product_shape_only.
Qed.

Lemma scale_by_ingredient_shape_only ctx1 ctx2 mr mq ctx' :
  erase_frame <$> ctx1 = erase_frame <$> ctx2 →
  _scale_node_by_ingredient ctx1 mr mq = (ctx', Ok tt) →
  _scale_node_by_ingredient ctx2 mr mq = (ctx', Ok tt).
Proof.
  revert ctx2 mr mq ctx'.
  induction ctx1 as [|fr1 up1 IH]; intros [|fr2 up2] mr mq ctx'; simpl;
    intros [=]; [done|].
  destruct fr1 as [r fq1 l1 r1], fr2 as [r' fq2 l2 r2]. simpl in *. subst r'.
  destruct (product mr) as [p|]; [|done].
  destruct (find_ingredient _ _) as [ing|]; [|done].
  destruct (fdiv _ _) as [q'|]; [|done].
  destruct (for_each_child _ l1) as [left' [[]|]] eqn:El; [|by intros [=]].
  destruct (for_each_child _ r1) as [right' [[]|]] eqn:Er; [|by intros [=]].
  destruct (_scale_node_by_ingredient up1 _ _) as [up' [[]|]] eqn:Eu;
    [|by intros [=]].
  intros [= <-].
  rewrite (for_each_scaled_shape_only r q' l1 l2 left') by done.
  rewrite (for_each_scaled_shape_only r q' r1 r2 right') by done.
  by rewrite (IH up2 r q' up').
Qed.

Lemma scale_shape_only f1 f2 g target f' :
  erase_factory f1 = erase_factory f2 →
  scale f1 g target = (f', Ok tt) →
  scale f2 g target = (f', Ok tt).
Proof.
  unfold erase_factory. intros [= Hreg Habove Hmap] H.
  apply scale_inv in H.
  inversion H as [| | | |rel node p q' cs' ctx' res Hf Hp Hq Hc Hu]; subst.
  pose proof (find_erase g [] (f_map f1)) as E1.
  pose proof (find_erase g [] (f_map f2)) as E2.
  simpl in E1, E2. rewrite Hmap in E1. rewrite E1 in E2.
  unfold find_node in Hf. rewrite Hf in E2. simpl in E2.
  unfold scale, find_node.
  destruct (_find_node_by_product g [] (f_map f2)) as [[[rel2 node2]|]|];
    simpl in E2; [|done..].
  injection E2 as Hrel Hnode.
  rewrite <- (erase_eq_recipe _ _ Hnode), Hp, Hq.
  rewrite (for_each_scaled_shape_only _ _ _ (children node2) _
             (erase_eq_children _ _ Hnode) Hc).
  rewrite (scale_by_ingredient_shape_only (rel ++ f_above f1)
             (rel2 ++ f_above f2) _ _ ctx').
  - rewrite <- Hreg. f_equal. f_equal.
    by rewrite <- (length_fmap erase_frame rel), <- (length_fmap erase_frame rel2), Hrel.
  - by rewrite !fmap_app, Hrel, Habove.
  - done.
Qed.

(** C2.  Whenever [scale] has returned, calling it again with the same
    good and the same rate returns and changes nothing.  The round trip
    through the current rate of the root, the float [quantity * rate], is
    another matter: in a tree as a [scale] anchored at the root leaves it,
    scaling the root's product to that rate recomputes the root's quantity
    as the float [quantity * rate / rate]; it changes nothing exactly when
    that float is the quantity there was, which rounding does not promise.
    A [scale] whose anchor is the root of [map] leaves such a tree. *)
Theorem scale_idempotent (f : Factory) :
  (∀ g target f1,
      scale f g target = (f1, Ok tt) → scale f1 g target = (f1, Ok tt))
  ∧ (∀ p, product (recipe (f_map f)) = Ok p → settled_at_map f →
          let q := quantity (f_map f) in
          scale f (ing_name p) (fmul q (ing_quantity p)) = (f, Ok tt)
          ↔ fdiv (fmul q (ing_quantity p)) (ing_quantity p) = Ok q)
  ∧ (∀ g target f1,
        find_node f g = Ok (Some ([], f_map f)) →
        scale f g target = (f1, Ok tt) → settled_at_map f1).
Proof.
  split; [|split].
  - intros g target f1 H. eapply scale_shape_only; [|exact H].
    symmetry. by eapply scale_shape.
  - intros p Hp [Hs Ha]. cbv zeta. unfold scale, find_node.
    destruct f as [registry above [r q cs]]. simpl in *.
    rewrite Hp. simpl. rewrite decide_True by done. simpl. rewrite Hp.
    split.
    + destruct (fdiv _ _) as [q'|e] eqn:Eq; [|done].
      destruct (for_each_child _ cs) as [cs' [[]|e]]; [|done].
      destruct (_scale_node_by_ingredient _ _ _) as [ctx' res'].
      unfold refocus. simpl. by intros [= _ <- _ _].
    + intros ->. apply settled_inv in Hs as [Hf Hs].
      rewrite for_each_scaled_fixed by done.
      pose proof (scale_by_ingredient_fixed above (mkNode r q cs) Ha) as Hup.
      simpl in Hup. by rewrite Hup.
  - intros g target f1 Hf H.
    apply scale_settled in H
      as (rel & node & ctx' & node' & Hf' & -> & Hs & Ha).
    rewrite Hf in Hf'. injection Hf' as <- <-. by split.
Qed.

Lemma scale_idempotent_witness :
  scale rescaled_widget_factory "Bar" (qz 25)
  = (rescaled_widget_factory, Ok tt)
  ∧ (scale scaled_widget_factory "Widget"
       (fmul (quantity (f_map scaled_widget_factory)) (qz 10))
     = (scaled_widget_factory, Ok tt)
     ↔ fdiv (fmul (quantity (f_map scaled_widget_factory)) (qz 10)) (qz 10)
       = Ok (quantity (f_map scaled_widget_factory)))
  ∧ settled_at_map scaled_widget_factory.
Proof.
  assert (settled_at_map scaled_widget_factory) as Hs.
  { apply (proj2 (proj2 (scale_idempotent widget_factory))
             "Widget" (qz 25)); reflexivity. }
  split; [|split; [|exact Hs]].
  - apply (proj1 (scale_idempotent widget_factory) "Bar" (qz 25)).
    vm_compute. reflexivity.
  - apply (proj1 (proj2 (scale_idempotent scaled_widget_factory))
             (ingr "Widget" 10)); [reflexivity | exact Hs].
Defined.

Example scaled_widget_quantities :
  quantities scaled_widget_factory
  = [(5 # 2)%Q; (7505999378950827 # 4503599627370496)%Q].
Proof. reflexivity. Qed.

(** C2 as stated fails.  Thirds of a maker feed thirds of a machine, an
    exactly consistent tree left by [scale]; the machine's current rate is
    the float [25 * 0.333...], and scaling to it moves both quantities one
    place down. *)
Lemma round_trip_moves_quantities :
  third_factory = (scale third_seed "Bar" (qz 1)).1
  ∧ (scale third_seed "Bar" (qz 1)).2 = Ok tt
  ∧ consistent (whole third_factory)
  ∧ tree_rates_positive (whole third_factory)
  ∧ product (recipe (f_map third_factory)) = Ok (ingr "Thing" 25)
  ∧ (scale third_factory "Thing"
       (fmul (quantity (f_map third_factory)) (qz 25))).2 = Ok tt
  ∧ quantities third_factory
    = [(6004799503160661 # 18014398509481984)%Q;
       (6004799503160661 # 18014398509481984)%Q]
  ∧ quantities
      (scale third_factory "Thing"
         (fmul (quantity (f_map third_factory)) (qz 25))).1
    = [(1501199875790165 # 4503599627370496)%Q;
       (1501199875790165 # 4503599627370496)%Q].
Proof.
  split; [reflexivity|]. split; [by vm_compute|]. split.
  { constructor; [|by repeat constructor]. constructor; [|constructor].
    exists (ingr "Bar" 3), (ingr "Bar" 3). split; [done|]. split; [done|].
    apply Qc_is_canon. by vm_compute. }
  split; [by vm_compute; repeat constructor|].
  split; [reflexivity|]. split; [by vm_compute|].
  split; by vm_compute.
Qed.

(** ** The anchor of scale and its failures *)

Lemma first_producer_None g n :
  (∀ m, m ∈ preorder n → ¬ produces g m) → first_producer g n = None.
Proof.
  intros H. unfold first_producer.
  destruct (filter _ _) as [|loc l] eqn:E; [done|]. exfalso.
  assert (loc ∈ filter (fun loc => produces g loc.2) (locations [] n)) as Hin.
  { rewrite E. by left. }
  apply list_elem_of_filter in Hin as [Hp Hin]. apply (H loc.2); [|done].
  rewrite <- (locations_preorder [] n). by apply list_elem_of_fmap_2.
Qed.


Lemma refocus_anchored registry rel above ctx' node q' cs' :
  erase_frame <$> ctx' = erase_frame <$> (rel ++ above) →
  erase <$> cs' = erase <$> children node →
  anchored (refocus registry (length rel) ctx' (mkNode (recipe node) q' cs'))
    rel node q'.
Proof.
  intros Hctx Hcs. exists (take (length rel) ctx'), cs'.
  split; [done|]. split; [|done].
  rewrite fmap_take, Hctx, fmap_app.
  by rewrite <- (length_fmap erase_frame rel), take_app_length.
Qed.

(** Once the anchor is found and its rate is not zero, its quantity is
    written and stays, whatever happens next. *)
Lemma scale_anchor_written f g target rel node p :
  find_node f g = Ok (Some (rel, node)) →
  product (recipe node) = Ok p → ing_quantity p ≠ 0%Qc →
  anchored (scale f g target).1 rel node
    (round64 (target / ing_quantity p)).
Proof.
  intros Hf Hp Hz. unfold scale. rewrite Hf, Hp, (fdiv_nonzero _ _ Hz).
  destruct (for_each_child _ (children node)) as [cs' [[]|e]] eqn:Ec.
  - destruct (_scale_node_by_ingredient _ _ _) as [ctx' res] eqn:Eu. simpl.
    apply (refocus_anchored _ _ (f_above f)).
    + by eapply scale_by_ingredient_shape.
    + by eapply for_each_scaled_shape.
  - simpl. apply (refocus_anchored _ _ (f_above f)); [done|].
    by eapply for_each_scaled_shape.
Qed.

(** C4.  In a tree whose recipes all have a primary product, [find_node]
    returns the first position in pre-order whose node produces the good;
    when no node produces it, [scale] raises (an [AttributeError], from
    reading a field of [None]) and leaves the factory as it was; and when
    some node produces it, the node at that first position, and no other,
    is the anchor: whatever the call does afterwards, it has given that
    node the float [target / rate] as its quantity. *)
Theorem scale_anchor_is_first_producer
    (f : Factory) (g : string) (target : Qc) :
  nodes_have_product (f_map f) →
  find_node f g = Ok (first_producer g (f_map f))
  ∧ ((∀ n, n ∈ preorder (f_map f) → ¬ produces g n) →
     scale f g target = (f, Raise AttributeError))
  ∧ (∀ rel node,
       first_producer g (f_map f) = Some (rel, node) →
       ∃ p, product (recipe node) = Ok p ∧ ing_name p = g
            ∧ (ing_quantity p ≠ 0%Qc →
               anchored (scale f g target).1 rel node
                 (round64 (target / ing_quantity p)))).
Proof.
  intros Hprod.
  assert (find_node f g = Ok (first_producer g (f_map f))) as Hfind.
  { by apply find_first. }
  split; [done|]. split.
  - intros Hnone. unfold scale.
    by rewrite Hfind, (first_producer_None g (f_map f) Hnone).
  - intros rel node Hfirst. rewrite Hfirst in Hfind.
    destruct (find_produces _ _ _ _ Hfind) as (p & Hp & Hg). simpl in Hp.
    exists p. split; [done|]. split; [done|]. intros Hz.
    by apply scale_anchor_written.
Qed.

Lemma scale_anchor_is_first_producer_witness :
  first_producer "Bar" (f_map gadget_built) = Some bars_of_the_frame
  ∧ anchored (scale gadget_built "Bar" (qz 90)).1
      bars_of_the_frame.1 bars_of_the_frame.2 (round64 (qz 90 / qz 30))
  ∧ scale widget_factory "Ore" (qz 25)
    = (widget_factory, Raise AttributeError).
Proof.
  split; [reflexivity|]. split.
  - assert (nodes_have_product (f_map gadget_built)) as H.
    { repeat constructor; unfold has_product; simpl; discriminate. }
    destruct (scale_anchor_is_first_producer gadget_built "Bar" (qz 90) H)
      as (_ & _ & Hfirst).
    destruct (Hfirst bars_of_the_frame.1 bars_of_the_frame.2 eq_refl)
      as (p & Hp & _ & Hq).
    injection Hp as <-. apply Hq. done.
  - assert (nodes_have_product (f_map widget_factory)) as H.
    { repeat constructor; unfold has_product; simpl; discriminate. }
    destruct (scale_anchor_is_first_producer widget_factory "Ore" (qz 25) H)
      as (_ & Hnone & _).
    apply Hnone. intros n Hn. vm_compute in Hn.
    repeat (apply elem_of_cons in Hn as [->|Hn]; [by vm_compute|]).
    by apply elem_of_nil in Hn.
Defined.

Example find_node_first_in_preorder :
  (fun o : option Loc => (fun loc : Loc => name (recipe loc.2)) <$> o)
    (first_producer "Bar" (f_map widget_factory))
  = Some "Smelt Ore"
  ∧ quantities (scale gadget_built "Bar" (qz 90)).1
    = [15%Q; 6%Q; 3%Q; 3%Q; 5%Q].
Proof. split; reflexivity. Qed.






(** ** build *)

Section BuildRun.
Variables (registry : list Recipe) (fitness_func : Policy)
          (exclude_machines : gset string) (products : ref).

Local Abbreviation expand_at fuel depth :=
  (fun child => _build_factory fuel registry fitness_func
                  exclude_machines products child depth).
Local Abbreviation inputs_loop expand :=
  (build_inputs registry fitness_func exclude_machines expand).

(** One call of [_build_factory] with fuel left, step by step. *)
Lemma build_factory_step fuel node depth σ :
  _build_factory (S fuel) registry fitness_func exclude_machines products
    node depth σ
  = if decide (depth = 0%Z) then (σ, Returned node)
    else match product (recipe node) with
         | Raise e => (σ, Raised e)
         | Ok p =>
             if decide (ing_name p ∈ contents σ products)
             then (σ, Returned node)
             else
               match inputs_loop (expand_at fuel (depth - 1)%Z)
                       (inputs (recipe node)) (children node)
                       (<[products := {[ing_name p]} ∪ contents σ products]> σ)
               with
               | (σ', Returned kids) =>
                   (σ', Returned (mkNode (recipe node) (quantity node) kids))
               | (σ', Raised e) => (σ', Raised e)
               | (σ', OutOfFuel) => (σ', OutOfFuel)
               end
         end.
Proof.
  simpl. case_decide; [done|]. unfold bind, lift, set_contains, set_add.
  destruct (product (recipe node)) as [p|e]; simpl; [|done].
  case_bool_decide; [by rewrite decide_True | rewrite decide_False by done].
  by destruct (inputs_loop _ _ _ _) as [σ' [kids|e|]].
Qed.

Lemma build_inputs_appended expand ins kids σ σ' kids' :
  inputs_loop expand ins kids σ = (σ', Returned kids') →
  ∃ news, kids' = kids ++ news ∧ appended expand σ news σ'.
Proof.
  revert kids σ. induction ins as [|input rest IH]; intros kids σ; simpl.
  { intros [= <- <-]. exists []. split; [by rewrite app_nil_r|constructor]. }
  unfold bind, lift.
  destruct (get_recipes_by_part _ _ _ _) as [[|o options]|e]; simpl;
    [apply IH| |done].
  destruct (fitness_func (o :: options)) as [chosen|e]; simpl; [|done].
  destruct (expand (new_node chosen) σ) as [σ1 [c|e|]] eqn:E; [|done..].
  intros (news & -> & Hnews)%IH. exists (c :: news).
  split; [by rewrite <- app_assoc | by econstructor].
Qed.

(** The loop runs out of fuel only if an expansion does. *)
Lemma build_inputs_fuel expand ins kids σ :
  (∀ n σ0, (expand n σ0).2 ≠ OutOfFuel) →
  (inputs_loop expand ins kids σ).2 ≠ OutOfFuel.
Proof.
  intros Hexp. revert kids σ.
  induction ins as [|input rest IH]; intros kids σ; simpl; [done|].
  unfold bind, lift.
  destruct (get_recipes_by_part _ _ _ _) as [[|o options]|e]; simpl;
    [apply IH| |done].
  destruct (fitness_func (o :: options)) as [chosen|e]; simpl; [|done].
  pose proof (Hexp (new_node chosen) σ) as H.
  destruct (expand (new_node chosen) σ) as [σ1 [c|e|]]; simpl in *;
    [apply IH|done..].
Qed.

Lemma build_inputs_ext expand1 expand2 ins kids σ :
  (∀ n σ0, expand1 n σ0 = expand2 n σ0) →
  inputs_loop expand1 ins kids σ = inputs_loop expand2 ins kids σ.
Proof.
  intros Hexp. revert kids σ.
  induction ins as [|input rest IH]; intros kids σ; simpl; [done|].
  unfold bind, lift.
  destruct (get_recipes_by_part _ _ _ _) as [[|o options]|e]; simpl;
    [apply IH| |done].
  destruct (fitness_func (o :: options)) as [chosen|e]; simpl; [|done].
  rewrite Hexp.
  destruct (expand2 (new_node chosen) σ) as [σ1 [c|e|]]; [apply IH|done..].
Qed.

(** *** Depth *)

Lemma height_children r q cs (k : nat) :
  Forall (fun c => (height c < k)%nat) cs →
  (height (mkNode r q cs) ≤ k)%nat.
Proof.
  simpl. induction 1 as [|c cs Hc _ IH]; simpl; lia.
Qed.

Lemma appended_Forall (P : Node → Prop) expand σ news σ' :
  (∀ r σ0 σ1 c, expand (new_node r) σ0 = (σ1, Returned c) → P c) →
  appended expand σ news σ' → Forall P news.
Proof. intros Hexp. induction 1; constructor; eauto. Qed.

(** With [depth] non-negative, no branch is longer than [depth]. *)
Lemma build_factory_height fuel node depth σ σ' t :
  children node = [] → (0 ≤ depth)%Z →
  _build_factory fuel registry fitness_func exclude_machines products
    node depth σ = (σ', Returned t) →
  (Z.of_nat (height t) ≤ depth)%Z.
Proof.
  revert node depth σ σ' t.
  induction fuel as [|fuel IH]; intros node depth σ σ' t Hleaf Hd; [done|].
  rewrite build_factory_step. case_decide as Hz.
  { intros [= <- <-]. destruct node; simpl in *; subst. simpl. lia. }
  destruct (product (recipe node)) as [p|]; [|done]. case_decide.
  { intros [= <- <-]. destruct node; simpl in *; subst. simpl. lia. }
  destruct (inputs_loop _ _ _ _) as [σ1 [kids| |]] eqn:E; [|done..].
  intros [= <- <-]. apply build_inputs_appended in E as (news & -> & Hnews).
  rewrite Hleaf. simpl app.
  assert (height (mkNode (recipe node) (quantity node) news)
          ≤ Z.to_nat depth)%nat as Hh; [|lia].
  apply height_children.
  eapply appended_Forall; [|exact Hnews]. simpl.
  intros r σ0 σ2 c Hc. apply IH in Hc; [lia|done|lia].
Qed.

(** With [depth] non-negative, [depth + 1] units of fuel suffice. *)
Lemma build_factory_fuel fuel node depth σ :
  (0 ≤ depth < Z.of_nat fuel)%Z →
  (_build_factory fuel registry fitness_func exclude_machines products
     node depth σ).2 ≠ OutOfFuel.
Proof.
  revert node depth σ.
  induction fuel as [|fuel IH]; intros node depth σ Hd; [lia|].
  rewrite build_factory_step. case_decide as Hz; [done|].
  destruct (product (recipe node)) as [p|]; [|done]. case_decide; [done|].
  match goal with
  | |- context [inputs_loop ?e ?i ?k ?s] =>
      pose proof (build_inputs_fuel e i k s) as Hloop;
      destruct (inputs_loop e i k s) as [σ1 [kids| |]]
  end; simpl in *; [done..|].
  intros _. apply Hloop; [|done]. intros n σ0. apply IH. lia.
Qed.

Lemma height_child r q cs c :
  c ∈ cs → (height c < height (mkNode r q cs))%nat.
Proof.
  simpl. induction cs as [|x cs IH]; simpl; [by intros ?%elem_of_nil|].
  intros [->|Hc%IH]%elem_of_cons; lia.
Qed.

(** The loop does the same with two expansions that agree on the children
    it appends. *)
Lemma build_inputs_same (P : Node → Prop) expand1 expand2 ins kids σ σ' kids' :
  (∀ r σ0 σ1 c, P c → expand1 (new_node r) σ0 = (σ1, Returned c) →
                expand2 (new_node r) σ0 = (σ1, Returned c)) →
  inputs_loop expand1 ins kids σ = (σ', Returned kids') →
  Forall P (drop (length kids) kids') →
  inputs_loop expand2 ins kids σ = (σ', Returned kids').
Proof.
  intros Hexp. revert kids σ.
  induction ins as [|input rest IH]; intros kids σ; simpl; [done|].
  unfold bind, lift.
  destruct (get_recipes_by_part _ _ _ _) as [[|o options]|e]; simpl;
    [apply IH| |done].
  destruct (fitness_func (o :: options)) as [chosen|e]; simpl; [|done].
  destruct (expand1 (new_node chosen) σ) as [σ1 [c|e|]] eqn:E; [|done..].
  intros Hrest HP.
  destruct (build_inputs_appended _ _ _ _ _ _ Hrest) as (news & -> & _).
  rewrite <- app_assoc, drop_app_length in HP. simpl in HP.
  apply Forall_cons_1 in HP as [Hc Hnews].
  rewrite (Hexp _ _ _ _ Hc E). apply IH; [done|].
  by rewrite drop_app_length.
Qed.

(** A depth limit that is not reached changes nothing: a run whose result
    is less high than the limit, or has no limit, is the run with any other
    limit that is higher than the result, or with none. *)
Lemma build_factory_unreached fuel node depth depth' σ σ' t :
  is_leaf node →
  ((Z.of_nat (height t) < depth)%Z ∨ (depth < 0)%Z) →
  ((Z.of_nat (height t) < depth')%Z ∨ (depth' < 0)%Z) →
  _build_factory fuel registry fitness_func exclude_machines products
    node depth σ = (σ', Returned t) →
  _build_factory fuel registry fitness_func exclude_machines products
    node depth' σ = (σ', Returned t).
Proof.
  revert node depth depth' σ σ' t.
  induction fuel as [|fuel IH]; intros node depth depth' σ σ' t Hleaf Hd Hd';
    [done|].
  rewrite !build_factory_step.
  rewrite (decide_False (P := depth = 0%Z)) by lia.
  rewrite (decide_False (P := depth' = 0%Z)) by lia.
  destruct (product (recipe node)) as [p|]; [|done]. case_decide; [done|].
  destruct (inputs_loop (expand_at fuel (depth - 1)%Z) _ _ _)
    as [σ1 [kids| |]] eqn:E; [|done..].
  intros [= <- <-].
  erewrite (build_inputs_same
              (fun c => (height c
                         < height (mkNode (recipe node) (quantity node) kids))
                          %nat)
              (expand_at fuel (depth - 1)%Z) (expand_at fuel (depth' - 1)%Z));
    [done| |exact E|].
  - intros r σ0 σ2 c Hc. apply IH; [done|lia..].
  - rewrite Hleaf. simpl drop. apply Forall_forall. intros c Hc.
    by apply height_child.
Qed.

(** A negative [depth] never becomes zero: all negative depths build the
    same tree. *)
Lemma build_factory_unlimited fuel node depth σ :
  (depth < 0)%Z →
  _build_factory fuel registry fitness_func exclude_machines products
    node depth σ
  = _build_factory fuel registry fitness_func exclude_machines products
      node unlimited σ.
Proof.
  revert node depth σ.
  induction fuel as [|fuel IH]; intros node depth σ Hd; [done|].
  rewrite !build_factory_step. unfold unlimited.
  rewrite !decide_False by lia.
  destruct (product (recipe node)) as [p|]; [|done]. case_decide; [done|].
  rewrite (build_inputs_ext (expand_at fuel (depth - 1)%Z)
             (expand_at fuel (-1 - 1)%Z)); [done|].
  intros n σ0. rewrite IH by lia. symmetry. apply IH. lia.
Qed.

End BuildRun.

Lemma build_run fuel f pol ex seeds depth σ :
  build fuel f pol ex seeds depth σ
  = let '(σ0, products) := choose_products seeds σ in
    match _build_factory fuel (f_registry f) (default simplest_recipe pol)
            (default default_exclude ex) products (pruned f) depth σ0 with
    | (σ', Returned t) =>
        (σ', Returned (mkFactory (f_registry f) (f_above f) t))
    | (σ', Raised e) => (σ', Raised e)
    | (σ', OutOfFuel) => (σ', OutOfFuel)
    end.
Proof.
  unfold build, choose_products, bind, ret, set_new, pruned.
  destruct seeds as [l|]; [case_decide|]; simpl;
    by destruct (_build_factory _ _ _ _ _ _ _ _) as [σ' [t|e|]].
Qed.

(** C6.  [build] with [max_depth = 0] returns the root alone, whatever the
    catalogue, the policy and the seeds; with [max_depth >= 0] no branch of
    the tree built is longer than [max_depth] (a node reached with no depth
    left is not expanded) and the recursion is that shallow; a negative
    [max_depth], such as the default [-1], never reaches zero: all negative
    depths behave alike, and what is built without a limit is what is built
    with any limit that is higher than the tree, so that no expansion is
    ever stopped for lack of depth. *)
Theorem build_depth_bound
    (f : Factory) (fitness_func : option Policy)
    (exclude_machines : option (gset string)) (seeds : option ref)
    (σ : store) :
  (∀ fuel, ∃ σ',
      build (S fuel) f fitness_func exclude_machines seeds 0 σ
      = (σ', Returned (mkFactory (f_registry f) (f_above f) (pruned f))))
  ∧ (∀ fuel depth σ' f',
       (0 ≤ depth)%Z →
       build fuel f fitness_func exclude_machines seeds depth σ
       = (σ', Returned f') →
       (Z.of_nat (height (f_map f')) ≤ depth)%Z)
  ∧ (∀ fuel depth,
       (0 ≤ depth < Z.of_nat fuel)%Z →
       (build fuel f fitness_func exclude_machines seeds depth σ).2
       ≠ OutOfFuel)
  ∧ (∀ fuel depth,
       (depth < 0)%Z →
       build fuel f fitness_func exclude_machines seeds depth σ
       = build fuel f fitness_func exclude_machines seeds unlimited σ)
  ∧ (∀ fuel depth σ' f',
       (Z.of_nat (height (f_map f')) < depth)%Z →
       build fuel f fitness_func exclude_machines seeds depth σ
       = (σ', Returned f')
       ↔ build fuel f fitness_func exclude_machines seeds unlimited σ
         = (σ', Returned f')).
Proof.
  split; [|split; [|split; [|split]]].
  - intros fuel. rewrite build_run.
    destruct (choose_products seeds σ) as [σ0 products].
    rewrite build_factory_step. rewrite decide_True by done. eauto.
  - intros fuel depth σ' f' Hd. rewrite build_run.
    destruct (choose_products seeds σ) as [σ0 products].
    cbn iota.
    destruct (_build_factory _ _ _ _ _ _ _ _) as [σ1 [t|e|]] eqn:E; [|done..].
    intros [= <- <-]. simpl.
    eapply (build_factory_height _ _ _ _ fuel (pruned f));
      [reflexivity | exact Hd | exact E].
  - intros fuel depth Hd. rewrite build_run.
    destruct (choose_products seeds σ) as [σ0 products].
    pose proof (build_factory_fuel (f_registry f)
                  (default simplest_recipe fitness_func)
                  (default default_exclude exclude_machines) products fuel
                  (pruned f) depth σ0 Hd) as H.
    cbn iota. by destruct (_build_factory _ _ _ _ _ _ _ _) as [σ1 [t|e|]].
  - intros fuel depth Hd. rewrite !build_run.
    destruct (choose_products seeds σ) as [σ0 products].
    by rewrite build_factory_unlimited.
  - intros fuel depth σ' f' Hd. rewrite !build_run.
    destruct (choose_products seeds σ) as [σ0 products]. cbn iota.
    assert (∀ d d',
      ((Z.of_nat (height (f_map f')) < d)%Z ∨ (d < 0)%Z) →
      ((Z.of_nat (height (f_map f')) < d')%Z ∨ (d' < 0)%Z) →
      match _build_factory fuel (f_registry f)
              (default simplest_recipe fitness_func)
              (default default_exclude exclude_machines) products
              (pruned f) d σ0 with
      | (σ1, Returned t) =>
          (σ1, Returned (mkFactory (f_registry f) (f_above f) t))
      | (σ1, Raised e) => (σ1, Raised e)
      | (σ1, OutOfFuel) => (σ1, OutOfFuel)
      end = (σ', Returned f') →
      match _build_factory fuel (f_registry f)
              (default simplest_recipe fitness_func)
              (default default_exclude exclude_machines) products
              (pruned f) d' σ0 with
      | (σ1, Returned t) =>
          (σ1, Returned (mkFactory (f_registry f) (f_above f) t))
      | (σ1, Raised e) => (σ1, Raised e)
      | (σ1, OutOfFuel) => (σ1, OutOfFuel)
      end = (σ', Returned f')) as Hsame.
    { intros d d' H1 H2.
      destruct (_build_factory fuel _ _ _ _ _ d σ0) as [σ1 [t|e|]] eqn:E;
        [|done..].
      intros [= <- <-]. simpl in *.
      by rewrite (build_factory_unreached _ _ _ _ fuel (pruned f) d d'
                    σ0 σ1 t eq_refl H1 H2 E). }
    unfold unlimited. split; apply Hsame; lia.
Qed.

Lemma build_depth_bound_witness :
  (Z.of_nat (height (f_map widget_factory)) ≤ 1)%Z
  ∧ (build 3 bare_widget_factory None None None 1 ∅).2 ≠ OutOfFuel
  ∧ build 3 bare_widget_factory None None None (-5) ∅
    = build 3 bare_widget_factory None None None unlimited ∅
  ∧ build 5 gadget_factory None None None unlimited ∅
    = ((build 5 gadget_factory None None None 4 ∅).1, Returned gadget_built).
Proof.
  destruct (build_depth_bound bare_widget_factory None None None ∅)
    as (_ & Hheight & Hfuel & Hneg & _).
  destruct (build_depth_bound gadget_factory None None None ∅)
    as (_ & _ & _ & _ & Hsame).
  split; [|split; [|split]].
  - apply (Hheight 3%nat 1%Z
             (build 3 bare_widget_factory None None None 1 ∅).1
             widget_factory); [lia|].
    vm_compute. reflexivity.
  - apply Hfuel. lia.
  - apply Hneg. lia.
  - apply (Hsame 5%nat 4%Z); [simpl; lia|]. vm_compute. reflexivity.
Defined.

Example build_widget_tree :
  (build 3 bare_widget_factory None None None unlimited ∅).2
  = Returned widget_factory.
Proof. vm_compute. reflexivity. Qed.

Example build_depth_zero :
  (build 1 bare_widget_factory None None None 0 ∅).2
  = Returned bare_widget_factory.
Proof. vm_compute. reflexivity. Qed.

(** ** The set of expanded products *)

Lemma produces_functional g g' n : produces g n → produces g' n → g = g'.
Proof. unfold produces. congruence. Qed.

Lemma ForallOrdPairs_app {A} (R : A → A → Prop) (l1 l2 : list A) :
  ForallOrdPairs R l1 → ForallOrdPairs R l2 →
  (∀ x y, x ∈ l1 → y ∈ l2 → R x y) →
  ForallOrdPairs R (l1 ++ l2).
Proof.
  intros H1 H2 H12. induction H1 as [|x l1 Hx _ IH]; simpl; [done|].
  constructor.
  - apply Forall_app. split; [done|]. apply Forall_forall. intros y Hy.
    apply H12; [by left | done].
  - apply IH. intros a b Ha. apply H12. by right.
Qed.

(** *** Invariants of a stretch of the pre-order, between two states of
    the set *)

Lemma is_leaf_dec n : is_leaf n ∨ ¬ is_leaf n.
Proof. unfold is_leaf. destruct (children n); [by left | by right]. Qed.

Lemma expanded_once_app s l1 s1 l2 s2 :
  expanded_once s l1 s1 → expanded_once s1 l2 s2 →
  expanded_once s (l1 ++ l2) s2.
Proof.
  intros (Hs1 & Hf1 & Hp1) (Hs2 & Hf2 & Hp2). split; [set_solver|]. split.
  - apply Forall_app. split.
    + eapply Forall_impl; [exact Hf1|]. simpl.
      intros n Hn Hleaf. destruct (Hn Hleaf) as (g & Hg & Hin & Hout).
      exists g. split_and!; [done | by eapply elem_of_weaken | done].
    + eapply Forall_impl; [exact Hf2|]. simpl.
      intros n Hn Hleaf. destruct (Hn Hleaf) as (g & Hg & Hin & Hout).
      exists g. split_and!; [done..|]. intros Hs. apply Hout.
      by eapply elem_of_weaken.
  - apply ForallOrdPairs_app; [done..|].
    intros x y Hx Hy (g & Hgx & Hgy).
    destruct (is_leaf_dec x) as [|Hnx]; [by left|].
    destruct (is_leaf_dec y) as [|Hny]; [by right|]. exfalso.
    destruct (proj1 (Forall_forall _ _) Hf1 x Hx Hnx) as (gx & Hpx & Hin & _).
    destruct (proj1 (Forall_forall _ _) Hf2 y Hy Hny) as (gy & Hpy & _ & Hout).
    rewrite <- (produces_functional _ _ _ Hgx Hpx) in Hin.
    rewrite <- (produces_functional _ _ _ Hgy Hpy) in Hout. done.
Qed.

Lemma first_expanded_app s l1 s1 l2 s2 :
  first_expanded s l1 s1 → first_expanded s1 l2 s2 →
  first_expanded s (l1 ++ l2) s2.
Proof.
  intros (Hs1 & Hf1 & Hp1) (Hs2 & Hf2 & Hp2). split; [set_solver|]. split.
  - apply Forall_app. split.
    + eapply Forall_impl; [exact Hf1|]. simpl.
      intros n (g & Hg & Hin & Hl). exists g.
      split_and!; [done | by eapply elem_of_weaken | done].
    + eapply Forall_impl; [exact Hf2|]. simpl.
      intros n (g & Hg & Hin & Hl). exists g. split; [done|].
      split; [done|]. intros Hs. apply Hl. by eapply elem_of_weaken.
  - apply ForallOrdPairs_app; [done..|].
    intros x y Hx Hy (g & Hgx & Hgy).
    destruct (proj1 (Forall_forall _ _) Hf1 x Hx) as (gx & Hpx & Hin & _).
    destruct (proj1 (Forall_forall _ _) Hf2 y Hy) as (gy & Hpy & _ & Hl).
    apply Hl.
    rewrite <- (produces_functional _ _ _ Hgy Hpy).
    by rewrite (produces_functional _ _ _ Hgx Hpx).
Qed.

Lemma expanded_once_leaf s n : is_leaf n → expanded_once s [n] s.
Proof.
  intros Hn. split; [done|]. split; repeat constructor. by intros ?.
Qed.

Lemma expanded_once_root s g n :
  produces g n → g ∉ s → expanded_once s [n] ({[g]} ∪ s).
Proof.
  intros Hg Hs. split; [set_solver|]. split; repeat constructor.
  intros _. exists g. set_solver.
Qed.

Lemma first_expanded_leaf s g n :
  produces g n → g ∈ s → is_leaf n → first_expanded s [n] s.
Proof.
  intros Hg Hs Hn. split; [done|]. split; repeat constructor. by exists g.
Qed.

Lemma first_expanded_root s g n :
  produces g n → g ∉ s → first_expanded s [n] ({[g]} ∪ s).
Proof.
  intros Hg Hs. split; [set_solver|]. split; repeat constructor.
  exists g. set_solver.
Qed.

(** *** Along a run of the loop *)

Section Chain.
Variable products : ref.
Variable Inv : gset string → list Node → gset string → Prop.
Hypothesis Inv_nil : ∀ s, Inv s [] s.
Hypothesis Inv_app :
  ∀ s l1 s1 l2 s2, Inv s l1 s1 → Inv s1 l2 s2 → Inv s (l1 ++ l2) s2.

Lemma appended_inv expand σ news σ' :
  (∀ r σ0 σ1 c,
      expand (new_node r) σ0 = (σ1, Returned c) →
      Inv (contents σ0 products) (preorder c) (contents σ1 products)) →
  appended expand σ news σ' →
  Inv (contents σ products) (flat_map preorder news) (contents σ' products).
Proof.
  intros Hexp. induction 1 as [|σ r σ1 c news σ' Hc _ IH]; simpl; [done|].
  eapply Inv_app; [by eapply Hexp | done].
Qed.
End Chain.

Lemma union_seen (g : string) (s : gset string) :
  g ∈ s → s ∪ ({[g]} ∪ ∅) = s.
Proof. set_solver. Qed.

Lemma union_added (g : string) (s u : gset string) :
  ({[g]} ∪ s) ∪ u = s ∪ ({[g]} ∪ u).
Proof. set_solver. Qed.

Lemma contents_insert σ l (s : gset string) : contents (<[l := s]> σ) l = s.
Proof. unfold contents, store, ref in *. by rewrite lookup_insert_eq. Qed.

Section PruningRun.
Variables (registry : list Recipe) (fitness_func : Policy)
          (exclude_machines : gset string) (products : ref).

Local Abbreviation build_node fuel node depth :=
  (_build_factory fuel registry fitness_func exclude_machines products
     node depth).

Lemma build_expanded_once fuel node depth σ σ' t :
  is_leaf node →
  build_node fuel node depth σ = (σ', Returned t) →
  expanded_once (contents σ products) (preorder t) (contents σ' products).
Proof.
  revert node depth σ σ' t.
  induction fuel as [|fuel IH]; intros node depth σ σ' t Hleaf; [done|].
  rewrite build_factory_step. case_decide as Hz.
  { intros [= <- <-]. destruct node as [r q cs]. unfold is_leaf in Hleaf.
    simpl in *. subst. by apply expanded_once_leaf. }
  destruct (product (recipe node)) as [p|] eqn:Hp; [|done]. case_decide.
  { intros [= <- <-]. destruct node as [r q cs]. unfold is_leaf in Hleaf.
    simpl in *. subst. by apply expanded_once_leaf. }
  destruct (build_inputs _ _ _ _ _ _ _) as [σ1 [kids| |]] eqn:E; [|done..].
  intros [= <- <-]. apply build_inputs_appended in E as (news & -> & Hnews).
  rewrite Hleaf. simpl app. cbn [preorder children].
  apply (expanded_once_app _ [_] ({[ing_name p]} ∪ contents σ products)).
  - apply expanded_once_root; [|done].
    unfold produces. simpl. by apply product_name_Ok.
  - rewrite <- (contents_insert σ products ({[ing_name p]} ∪ _)) at 1.
    eapply (appended_inv products expanded_once); [| | |exact Hnews].
    + intros s. split; [done|]. split; constructor.
    + apply expanded_once_app.
    + intros r σ0 σ2 c Hc. exact (IH (new_node r) _ σ0 σ2 c eq_refl Hc).
Qed.

Lemma build_first_expanded fuel node depth σ σ' t :
  is_leaf node → (depth < 0)%Z →
  build_node fuel node depth σ = (σ', Returned t) →
  first_expanded (contents σ products) (preorder t) (contents σ' products).
Proof.
  revert node depth σ σ' t.
  induction fuel as [|fuel IH]; intros node depth σ σ' t Hleaf Hd; [done|].
  rewrite build_factory_step. rewrite decide_False by lia.
  destruct (product (recipe node)) as [p|] eqn:Hp; [|done].
  apply product_name_Ok in Hp. case_decide.
  { intros [= <- <-]. destruct node as [r q cs]. unfold is_leaf in Hleaf.
    simpl in *. subst. by eapply first_expanded_leaf. }
  destruct (build_inputs _ _ _ _ _ _ _) as [σ1 [kids| |]] eqn:E; [|done..].
  intros [= <- <-]. apply build_inputs_appended in E as (news & -> & Hnews).
  rewrite Hleaf. simpl app. cbn [preorder children].
  apply (first_expanded_app _ [_] ({[ing_name p]} ∪ contents σ products)).
  - by apply first_expanded_root.
  - rewrite <- (contents_insert σ products ({[ing_name p]} ∪ _)) at 1.
    eapply (appended_inv products first_expanded); [| | |exact Hnews].
    + intros s. split; [done|]. split; constructor.
    + apply first_expanded_app.
    + intros r σ0 σ2 c Hc.
      apply (IH (new_node r) (depth - 1)%Z σ0 σ2 c eq_refl); [lia | exact Hc].
Qed.

(** The entry check: a node whose product is in the set is returned as
    it is, and so is the set. *)
Lemma build_seen fuel node depth σ p :
  product (recipe node) = Ok p →
  ing_name p ∈ contents σ products →
  build_node (S fuel) node depth σ = (σ, Returned node).
Proof.
  intros Hp Hin. rewrite build_factory_step, Hp.
  case_decide; [done|]. by rewrite decide_True.
Qed.

(** *** What the set holds afterwards *)

Lemma appended_names expand σ news σ' depth s :
  (∀ r σ0 σ1 c s0,
      expand (new_node r) σ0 = (σ1, Returned c) →
      σ0 !! products = Some s0 →
      σ1 !! products = Some (s0 ∪ visited_names depth c)
      ∧ only_products products σ0 σ1) →
  appended expand σ news σ' →
  σ !! products = Some s →
  σ' !! products = Some (s ∪ ⋃ (visited_names depth <$> news))
  ∧ only_products products σ σ'.
Proof.
  intros Hexp H. revert s.
  induction H as [σ|σ r σ1 c news σ' Hc _ IH]; intros s Hs.
  { simpl. rewrite Hs. split; [|done]. f_equal.
    by rewrite union_empty_r_L. }
  destruct (Hexp _ _ _ _ _ Hc Hs) as [Hs1 Hf1].
  destruct (IH _ Hs1) as [Hs' Hf']. split.
  - rewrite Hs'. f_equal. rewrite fmap_cons. simpl.
    by rewrite (assoc_L (∪)).
  - intros l Hl. by rewrite Hf', Hf1.
Qed.

Lemma build_names fuel node depth σ σ' t s :
  is_leaf node →
  build_node fuel node depth σ = (σ', Returned t) →
  σ !! products = Some s →
  σ' !! products = Some (s ∪ visited_names depth t)
  ∧ only_products products σ σ'.
Proof.
  revert node depth σ σ' t s.
  induction fuel as [|fuel IH]; intros node depth σ σ' t s Hleaf; [done|].
  rewrite build_factory_step. unfold contents.
  destruct node as [r q cs]. unfold is_leaf in Hleaf. simpl in *. subst cs.
  case_decide as Hz.
  { intros [= <- <-] Hs. simpl. rewrite decide_True by done.
    split; [|done]. rewrite Hs. f_equal. by rewrite union_empty_r_L. }
  destruct (product r) as [p|] eqn:Hp; [|done].
  apply product_name_Ok in Hp as Hn. intros H Hs. rewrite Hs in H.
  simpl in H. case_decide as Hin.
  { injection H as <- <-. simpl. rewrite decide_False by done.
    split; [|done]. rewrite Hs. f_equal. unfold name_set. rewrite Hn.
    by rewrite union_seen. }
  destruct (build_inputs _ _ _ _ _ _ _) as [σ1 [kids| |]] eqn:E; [|done..].
  injection H as <- <-.
  apply build_inputs_appended in E as (news & -> & Hnews). simpl app.
  eapply (appended_names _ _ _ _ (depth - 1)%Z ({[ing_name p]} ∪ s))
    in Hnews as [Hs' Hf'].
  - split.
    + rewrite Hs'. f_equal. simpl. rewrite decide_False by done.
      unfold name_set. rewrite Hn. by rewrite union_added.
    + intros l Hl. rewrite Hf' by done. unfold store, ref in *.
      by rewrite lookup_insert_ne.
  - intros r0 σ0 σ2 c s0 Hc Hs0.
    exact (IH (new_node r0) _ σ0 σ2 c s0 eq_refl Hc Hs0).
  - unfold store, ref in *. by rewrite lookup_insert_eq.
Qed.

End PruningRun.

(** The set [build] works with, read in the store. *)
Lemma choose_products_cases seeds σ σ0 products :
  choose_products seeds σ = (σ0, products) →
  (∃ l, seeds = Some l ∧ contents σ l ≠ ∅ ∧ σ0 = σ ∧ products = l)
  ∨ ((seeds = None ∨ ∃ l, seeds = Some l ∧ contents σ l = ∅)
     ∧ σ0 = <[fresh (dom σ) := ∅]> σ ∧ products = fresh (dom σ)).
Proof.
  unfold choose_products. destruct seeds as [l|]; [case_decide|];
    intros [= <- <-]; [right|left|right]; eauto 10.
Qed.

Lemma build_inv fuel f pol ex seeds depth σ σ' f' :
  build fuel f pol ex seeds depth σ = (σ', Returned f') →
  ∃ σ0 products,
    choose_products seeds σ = (σ0, products)
    ∧ _build_factory fuel (f_registry f) (default simplest_recipe pol)
        (default default_exclude ex) products (pruned f) depth σ0
      = (σ', Returned (f_map f'))
    ∧ f' = mkFactory (f_registry f) (f_above f) (f_map f').
Proof.
  rewrite build_run.
  destruct (choose_products seeds σ) as [σ0 products]. cbn iota.
  destruct (_build_factory _ _ _ _ _ _ _ _) as [σ1 [t|e|]] eqn:E; [|done..].
  intros [= <- <-]. exists σ0, products. by rewrite E.
Qed.

(** ** Termination of build *)


Lemma py_best_elem {A} (better : Qc → Qc → bool) (key : A → result Qc)
    (best : A) (bk : Qc) (l : list A) (x : A) :
  py_best better key best bk l = Ok x → x ∈ best :: l.
Proof.
  revert best bk. induction l as [|y l IH]; intros best bk; simpl.
  { intros [= <-]. by left. }
  destruct (key y) as [k|]; simpl; [|done].
  destruct (better k bk); intros H%IH; rewrite !elem_of_cons in *; tauto.
Qed.

Lemma py_extremum_elem {A} (better : Qc → Qc → bool) (key : A → result Qc)
    (l : list A) (x : A) :
  py_extremum better key l = Ok x → x ∈ l.
Proof.
  destruct l as [|b l]; simpl; [done|].
  destruct (key b) as [k|]; simpl; [|done]. apply py_best_elem.
Qed.

Lemma simplest_recipe_chooses : chooses_candidate simplest_recipe.
Proof. intros options r. apply py_extremum_elem. Qed.

Lemma max_output_chooses : chooses_candidate max_output.
Proof. intros options r. apply py_extremum_elem. Qed.

Lemma preferred_names_chooses names :
  chooses_candidate (fun options => preferred_names options names).
Proof.
  intros options r. unfold preferred_names.
  destruct (filter _ options) as [|a allowed] eqn:E.
  - apply max_output_chooses.
  - intros H%max_output_chooses. rewrite <- E in H.
    by apply list_elem_of_filter in H as [_ ?].
Qed.

(** The query returns recipes of the catalogue. *)
Lemma get_recipes_loop_elem part role exclude recipes results rs :
  get_recipes_loop part role exclude recipes results = Ok rs →
  ∀ r, r ∈ rs → r ∈ results ∨ r ∈ recipes.
Proof.
  revert results. induction recipes as [|x recipes IH]; intros results; simpl.
  { intros [= <-] r Hr. by left. }
  destruct (decide (machine x ∈ exclude)).
  { intros H r Hr. destruct (IH _ H r Hr); [by left|]. right. by right. }
  destruct (components role x) as [comps|]; simpl; [|done].
  case_decide; intros Hres r Hr; destruct (IH _ Hres r Hr) as [Hin|Hin].
  - apply elem_of_app in Hin as [|Hin]; [by left|].
    apply list_elem_of_singleton in Hin as ->. right. by left.
  - right. by right.
  - by left.
  - right. by right.
Qed.

Lemma get_recipes_by_part_elem recipes part role exclude rs r :
  get_recipes_by_part recipes part role exclude = Ok rs → r ∈ rs → r ∈ recipes.
Proof.
  intros H Hr. destruct (get_recipes_loop_elem _ _ _ _ _ _ H r Hr) as [Hin|];
    [|done]. by apply elem_of_nil in Hin.
Qed.

Lemma size_list_to_set_le (l : list string) :
  (size (list_to_set l : gset string) ≤ length l)%nat.
Proof.
  induction l as [|x l IH]; [done|].
  cbn [list_to_set length]. rewrite size_union_alt, size_singleton.
  pose proof (subseteq_size (C := gset string)
                (list_to_set l ∖ {[x]}) (list_to_set l)) as H.
  assert (list_to_set l ∖ {[x]} ⊆ (list_to_set l : gset string)) as Hsub
    by set_solver.
  specialize (H Hsub). lia.
Qed.

Lemma length_omap_le {A C} (f : A → option C) (l : list A) :
  (length (omap f l) ≤ length l)%nat.
Proof.
  induction l as [|x l IH]; [simpl; lia|]. cbn [omap list_omap length].
  fold (omap f l). destruct (f x); cbn [length]; lia.
Qed.

Lemma catalogue_names_elem registry r p :
  r ∈ registry → product r = Ok p → ing_name p ∈ catalogue_names registry.
Proof.
  intros Hr Hp%product_name_Ok. unfold catalogue_names.
  apply elem_of_list_to_set, list_elem_of_omap. eauto.
Qed.

Lemma room_mono registry products σ σ' :
  contents σ products ⊆ contents σ' products →
  (room registry products σ' ≤ room registry products σ)%nat.
Proof.
  intros H. unfold room. apply (subseteq_size (C := gset string)).
  set_solver.
Qed.

Lemma room_insert registry products σ g :
  g ∈ catalogue_names registry → g ∉ contents σ products →
  (room registry products (<[products := {[g]} ∪ contents σ products]> σ)
   < room registry products σ)%nat.
Proof.
  intros Hg Hs. unfold room. rewrite contents_insert.
  apply (subset_size (C := gset string)). set_solver.
Qed.

Lemma room_bound registry products σ :
  (room registry products σ ≤ length registry)%nat.
Proof.
  unfold room.
  etrans;
    [apply (subseteq_size (C := gset string) _ (catalogue_names registry))|].
  { set_solver. }
  unfold catalogue_names.
  etrans; [apply size_list_to_set_le|]. apply length_omap_le.
Qed.

Section Termination.
Variables (registry : list Recipe) (fitness_func : Policy)
          (exclude_machines : gset string) (products : ref).
Hypothesis policy_chooses : chooses_candidate fitness_func.

Local Abbreviation room := (Build.room registry products).

Local Abbreviation build_node fuel node depth :=
  (_build_factory fuel registry fitness_func exclude_machines products
     node depth).


(** The loop does not run out of fuel if the expansions do not, in the
    states the loop goes through. *)
Lemma build_inputs_terminates expand ins kids σ (k : nat) :
  (∀ n σ0, recipe n ∈ registry → is_leaf n → (room σ0 ≤ k)%nat →
           (expand n σ0).2 ≠ OutOfFuel) →
  (∀ n σ0 σ1 c, is_leaf n → expand n σ0 = (σ1, Returned c) →
                (room σ1 ≤ room σ0)%nat) →
  (room σ ≤ k)%nat →
  (build_inputs registry fitness_func exclude_machines expand ins kids σ).2
  ≠ OutOfFuel.
Proof.
  intros Hfuel Hmono. revert kids σ.
  induction ins as [|input rest IH]; intros kids σ Hk; simpl; [done|].
  unfold bind, lift.
  destruct (get_recipes_by_part _ _ _ _) as [[|o options]|e] eqn:Eo; simpl;
    [by apply IH| |done].
  destruct (fitness_func (o :: options)) as [chosen|e] eqn:Ec; simpl; [|done].
  assert (chosen ∈ registry) as Hin.
  { eapply get_recipes_by_part_elem; [exact Eo|]. by apply policy_chooses. }
  pose proof (Hfuel (new_node chosen) σ Hin eq_refl Hk) as H.
  destruct (expand (new_node chosen) σ) as [σ1 [c|e|]] eqn:E; simpl in *;
    [|done..].
  apply IH.
  pose proof (Hmono (new_node chosen) _ _ _ eq_refl E). lia.
Qed.

Lemma build_node_room fuel node depth σ σ' t :
  is_leaf node →
  build_node fuel node depth σ = (σ', Returned t) →
  (room σ' ≤ room σ)%nat.
Proof.
  intros Hleaf H. apply room_mono.
  by destruct (build_expanded_once _ _ _ _ _ _ _ _ _ _ Hleaf H) as [? _].
Qed.

(** A node of the catalogue needs one unit of fuel more than the set has
    room. *)
Lemma build_node_terminates fuel node depth σ :
  recipe node ∈ registry → is_leaf node → (room σ < fuel)%nat →
  (build_node fuel node depth σ).2 ≠ OutOfFuel.
Proof.
  revert node depth σ.
  induction fuel as [|fuel IH]; intros node depth σ Hin Hleaf Hroom; [lia|].
  rewrite build_factory_step. case_decide; [done|].
  destruct (product (recipe node)) as [p|] eqn:Hp; [|done].
  case_decide as Hseen; [done|].
  pose proof (room_insert registry products σ (ing_name p)
                (catalogue_names_elem _ _ _ Hin Hp) Hseen) as Hless.
  match goal with
  | |- context [build_inputs ?a ?b ?c ?e ?i ?k ?s] =>
      pose proof (build_inputs_terminates e i k s (fuel - 1)) as Hloop;
      destruct (build_inputs a b c e i k s) as [σ1 [kids| |]]
  end; simpl in *; [done..|].
  intros _. apply Hloop; [| |lia|done].
  - intros n σ0 Hn Hl Hr. apply IH; [done..|lia].
  - intros n σ0 σ2 c Hl. by apply build_node_room.
Qed.

(** The root need not be a recipe of the catalogue: one more unit. *)
Lemma build_root_terminates fuel node depth σ :
  is_leaf node → (room σ + 1 < fuel)%nat →
  (build_node fuel node depth σ).2 ≠ OutOfFuel.
Proof.
  intros Hleaf Hroom. destruct fuel as [|fuel]; [lia|].
  rewrite build_factory_step. case_decide; [done|].
  destruct (product (recipe node)) as [p|] eqn:Hp; [|done].
  case_decide as Hseen; [done|].
  match goal with
  | |- context [build_inputs ?a ?b ?c ?e ?i ?k ?s] =>
      pose proof (build_inputs_terminates e i k s (fuel - 1)) as Hloop;
      destruct (build_inputs a b c e i k s) as [σ1 [kids| |]] eqn:E
  end; simpl in *; [done..|].
  intros _. apply Hloop; [| | |done].
  - intros n σ0 Hn Hl Hr. apply build_node_terminates; [done..|lia].
  - intros n σ0 σ2 c Hl. by apply build_node_room.
  - assert (room (<[products:={[ing_name p]} ∪ contents σ products]> σ)
            ≤ room σ)%nat; [|lia].
    apply room_mono. rewrite contents_insert. set_solver.
Qed.

End Termination.

(** With a policy that picks one of its candidates, [build] returns or
    raises: the set of expanded products bounds the recursion by the size of
    the catalogue, whatever the depth. *)
Lemma build_terminates fuel f policy exclude_machines seeds depth σ :
  chooses_candidate (default simplest_recipe policy) →
  (length (f_registry f) + 2 ≤ fuel)%nat →
  (build fuel f policy exclude_machines seeds depth σ).2 ≠ OutOfFuel.
Proof.
  intros Hpol Hfuel. rewrite build_run.
  destruct (choose_products seeds σ) as [σ0 products]. cbn iota.
  pose proof (build_root_terminates (f_registry f) _
                (default default_exclude exclude_machines) products Hpol
                fuel (pruned f) depth σ0 eq_refl) as H.
  pose proof (room_bound (f_registry f) products σ0).
  destruct (_build_factory _ _ _ _ _ _ _ _) as [σ1 [t|e|]]; simpl in *;
    [done..|].
  intros _. apply H; [lia|done].
Qed.

(** *** More fuel changes nothing *)

Section MoreFuel.
Variables (registry : list Recipe) (fitness_func : Policy)
          (exclude_machines : gset string) (products : ref).

Lemma build_inputs_more_fuel expand1 expand2 ins kids σ :
  (∀ n σ0, (expand1 n σ0).2 ≠ OutOfFuel → expand2 n σ0 = expand1 n σ0) →
  (build_inputs registry fitness_func exclude_machines expand1 ins kids σ).2
  ≠ OutOfFuel →
  build_inputs registry fitness_func exclude_machines expand2 ins kids σ
  = build_inputs registry fitness_func exclude_machines expand1 ins kids σ.
Proof.
  intros Hexp. revert kids σ.
  induction ins as [|input rest IH]; intros kids σ; simpl; [done|].
  unfold bind, lift.
  destruct (get_recipes_by_part _ _ _ _) as [[|o options]|e]; simpl;
    [apply IH| |done].
  destruct (fitness_func (o :: options)) as [chosen|e]; simpl; [|done].
  pose proof (Hexp (new_node chosen) σ) as H.
  destruct (expand1 (new_node chosen) σ) as [σ1 [c|e|]]; simpl in *.
  - rewrite H by done. apply IH.
  - by rewrite H.
  - done.
Qed.

Lemma build_factory_more_fuel fuel fuel' node depth σ :
  (fuel ≤ fuel')%nat →
  (_build_factory fuel registry fitness_func exclude_machines products
     node depth σ).2 ≠ OutOfFuel →
  _build_factory fuel' registry fitness_func exclude_machines products
    node depth σ
  = _build_factory fuel registry fitness_func exclude_machines products
      node depth σ.
Proof.
  revert fuel' node depth σ.
  induction fuel as [|fuel IH]; intros fuel' node depth σ Hle; [done|].
  destruct fuel' as [|fuel']; [lia|].
  rewrite !build_factory_step. case_decide; [done|].
  destruct (product (recipe node)) as [p|]; [|done]. case_decide; [done|].
  intros Hfuel.
  rewrite (build_inputs_more_fuel
             (fun child => _build_factory fuel registry fitness_func
                             exclude_machines products child (depth - 1)%Z)).
  - done.
  - intros n σ0. apply IH. lia.
  - by destruct (build_inputs _ _ _ _ _ _ _) as [σ1 [kids| |]].
Qed.

End MoreFuel.

Lemma build_more_fuel fuel fuel' f policy exclude_machines seeds depth σ :
  (fuel ≤ fuel')%nat →
  (build fuel f policy exclude_machines seeds depth σ).2 ≠ OutOfFuel →
  build fuel' f policy exclude_machines seeds depth σ
  = build fuel f policy exclude_machines seeds depth σ.
Proof.
  intros Hle. rewrite !build_run.
  destruct (choose_products seeds σ) as [σ0 products]. cbn iota. intros H.
  rewrite (build_factory_more_fuel _ _ _ _ fuel fuel'); [done..|].
  by destruct (_build_factory fuel _ _ _ _ _ _ _) as [σ1 [t|e|]].
Qed.

Example build_gadget_unlimited :
  (build 5 gadget_factory None None None unlimited ∅).2
  = Returned (mkFactory gadget_catalogue [] gadget_tree).
Proof. vm_compute. reflexivity. Qed.

Example build_gadget_depth_2 :
  (build 5 gadget_factory None None None 2 ∅).2
  = Returned (mkFactory gadget_catalogue [] gadget_tree_depth_2).
Proof. vm_compute. reflexivity. Qed.

(** C7, as the code has it.  One set of product names serves the whole
    recursion.  A node whose product is in the set when it is visited with
    depth left is returned without children and the set is not touched.  In
    the tree built, a node with children was added to the set by this call
    (so its product was not a seed), and no two nodes making the same good
    both have children.  With unlimited (negative) depth, of two nodes making
    the same good the later one in pre-order has no children.  With a depth
    limit this last part is not promised: a node reached with no depth left
    is left unexpanded without being recorded. *)
Theorem build_expands_each_product_once
    (fuel : nat) (f : Factory) (fitness_func : option Policy)
    (exclude_machines : option (gset string)) (seeds : option ref)
    (depth : Z) (σ σ' : store) (f' : Factory) :
  build fuel f fitness_func exclude_machines seeds depth σ
  = (σ', Returned f') →
  (∀ fuel' products node depth' σ0 p,
      product (recipe node) = Ok p →
      ing_name p ∈ contents σ0 products →
      _build_factory (S fuel') (f_registry f)
        (default simplest_recipe fitness_func)
        (default default_exclude exclude_machines) products node depth' σ0
      = (σ0, Returned node))
  ∧ (∀ l, seeds = Some l →
       Forall (fun n => ∀ g, produces g n → g ∈ contents σ l →
                             is_leaf n)
         (preorder (f_map f')))
  ∧ ForallOrdPairs
      (fun n1 n2 => same_product n1 n2 →
                    is_leaf n1 ∨ is_leaf n2)
      (preorder (f_map f'))
  ∧ ((depth < 0)%Z →
     ForallOrdPairs
       (fun n1 n2 => same_product n1 n2 → is_leaf n2)
       (preorder (f_map f'))).
Proof.
  intros (σ0 & products & Hch & Hb & _)%build_inv.
  split; [intros; by eapply build_seen|].
  pose proof (build_expanded_once _ _ _ _ _ _ _ _ _ _
                (eq_refl : is_leaf (pruned f)) Hb)
    as (_ & Hexp & Hpairs).
  split; [|split; [done|]].
  - intros l ->. eapply Forall_impl; [exact Hexp|]. simpl.
    intros n Hn g Hg Hin.
    destruct (is_leaf_dec n) as [|Hnl]; [done|]. exfalso.
    destruct (Hn Hnl) as (g' & Hg' & _ & Hout). apply Hout.
    rewrite <- (produces_functional _ _ _ Hg Hg').
    apply choose_products_cases in Hch
      as [(l' & [= <-] & _ & -> & ->)|([[=]|(l' & [= <-] & Hempty)] & _)];
      [done|]. rewrite Hempty in Hin. by apply not_elem_of_empty in Hin.
  - intros Hd.
    by destruct (build_first_expanded _ _ _ _ _ _ _ _ _ _
                   (eq_refl : is_leaf (pruned f)) Hd Hb)
      as (_ & _ & ?).
Qed.

Lemma build_expands_each_product_once_witness :
  ForallOrdPairs
    (fun n1 n2 => same_product n1 n2 →
                  is_leaf n1 ∨ is_leaf n2)
    (preorder gadget_tree)
  ∧ ForallOrdPairs
      (fun n1 n2 => same_product n1 n2 → is_leaf n2)
      (preorder gadget_tree).
Proof.
  assert (build 5 gadget_factory None None None unlimited ∅
          = ((build 5 gadget_factory None None None unlimited ∅).1,
             Returned (mkFactory gadget_catalogue [] gadget_tree))) as H.
  { vm_compute. reflexivity. }
  destruct (build_expands_each_product_once _ _ _ _ _ _ _ _ _ H)
    as (_ & _ & Hpairs & Hlater).
  split; [exact Hpairs | apply Hlater; reflexivity].
Defined.

(** C7 as stated fails under a depth limit: with [max_depth = 2] the first
    node in pre-order that makes bars has no children and the later one is
    the one expanded. *)
Lemma later_occurrence_expanded :
  (build 5 gadget_factory None None None 2 ∅).2
  = Returned (mkFactory gadget_catalogue [] gadget_tree_depth_2)
  ∧ (name ∘ recipe <$> preorder gadget_tree_depth_2
     = ["Make Gadget"; "Make Frame"; "Smelt Ore"; "Smelt Ore"; "Mine Ore"])
  ∧ (length ∘ children <$> preorder gadget_tree_depth_2 = [2; 1; 0; 1; 0])
  ∧ ¬ ForallOrdPairs
        (fun n1 n2 => same_product n1 n2 → is_leaf n2)
        (preorder gadget_tree_depth_2).
Proof.
  split; [vm_compute; reflexivity|]. split; [reflexivity|].
  split; [reflexivity|]. intros H.
  inversion H as [|? ? _ H1]; subst. inversion H1 as [|? ? _ H2]; subst.
  inversion H2 as [|? ? Hf _]; subst.
  apply Forall_cons_1 in Hf as [Hf _].
  discriminate Hf. by exists "Bar".
Qed.

(** C10.  [build] works on the caller's set object when it is given one
    that is not empty: after the call that object holds, besides what it
    held, the product names of the nodes visited with depth left, among them
    every node that has children, and no other object of the store has
    changed.  When the caller gives an empty set, or none, [build] works on
    a new set object; the caller's empty set is still empty and every object
    the store had is unchanged. *)
Theorem build_seed_set_aliasing
    (fuel : nat) (f : Factory) (fitness_func : option Policy)
    (exclude_machines : option (gset string)) (seeds : option ref)
    (depth : Z) (σ σ' : store) (f' : Factory) :
  build fuel f fitness_func exclude_machines seeds depth σ
  = (σ', Returned f') →
  let added := visited_names depth (f_map f') in
  (∀ l s, seeds = Some l → σ !! l = Some s → s ≠ ∅ →
      σ' !! l = Some (s ∪ added)
      ∧ (∀ l', l' ≠ l → σ' !! l' = σ !! l'))
  ∧ ((seeds = None ∨ ∃ l, seeds = Some l ∧ σ !! l = Some ∅) →
      σ' !! fresh (dom σ) = Some added
      ∧ (∀ l', l' ∈ dom σ → σ' !! l' = σ !! l'))
  ∧ Forall (fun n => ¬ is_leaf n →
                     ∃ g, produces g n ∧ g ∈ added)
      (preorder (f_map f')).
Proof.
  intros (σ0 & products & Hch & Hb & _)%build_inv added.
  pose proof (fun s => build_names _ _ _ _ _ _ _ _ _ _ s
                (eq_refl : is_leaf (pruned f)) Hb) as Hnames.
  fold added in Hnames.
  assert (∀ l', l' ∈ dom σ → l' ≠ fresh (dom σ)) as Hfresh.
  { intros l' Hl' ->. by apply is_fresh in Hl'. }
  split; [|split].
  - intros l s -> Hl Hs.
    apply choose_products_cases in Hch
      as [(l' & [= <-] & _ & -> & ->)|([[=]|(l' & [= <-] & Hempty)] & _)].
    + by apply Hnames.
    + unfold contents in Hempty. rewrite Hl in Hempty. done.
  - intros Hseeds.
    apply choose_products_cases in Hch
      as [(l' & -> & Hne & -> & ->)|(_ & -> & ->)].
    { destruct Hseeds as [[=]|(l & [= <-] & Hl)].
      unfold contents in Hne. by rewrite Hl in Hne. }
    destruct (Hnames ∅) as [Hs Hframe].
    { unfold store, ref in *. by rewrite lookup_insert_eq. }
    split; [by rewrite Hs, union_empty_l_L|].
    intros l' Hl'. rewrite Hframe by auto.
    unfold store, ref in *. rewrite lookup_insert_ne; [done|].
    intros E. by apply (Hfresh l').
  - pose proof (build_expanded_once _ _ _ _ _ _ _ _ _ _
                  (eq_refl : is_leaf (pruned f)) Hb)
      as (_ & Hexp & _).
    eapply Forall_impl; [exact Hexp|]. simpl.
    intros n Hn Hnl. destruct (Hn Hnl) as (g & Hg & Hin & Hout).
    exists g. split; [done|].
    unfold contents in Hin, Hout.
    destruct (σ0 !! products) as [s|] eqn:Es.
    + destruct (Hnames s eq_refl) as [Hs _]. rewrite Hs in Hin. simpl in *.
      apply elem_of_union in Hin as [|]; done.
    + exfalso. simpl in *.
      apply choose_products_cases in Hch
        as [(l' & -> & Hne & -> & ->)|(_ & -> & ->)].
      * unfold contents in Hne. by rewrite Es in Hne.
      * unfold store, ref in *. by rewrite lookup_insert_eq in Es.
Qed.

Lemma build_seed_set_aliasing_witness :
  (build 5 gadget_factory None None (Some 0%nat) unlimited seeded_store).1
    !! 0%nat
  = Some ({["Bar"]} ∪ {["Gadget"; "Frame"; "Bar"]})
  ∧ (build 5 gadget_factory None None (Some 0%nat) unlimited
       empty_seed_store).1 !! 0%nat
    = Some ∅.
Proof.
  split.
  - assert (build 5 gadget_factory None None (Some 0%nat) unlimited
              seeded_store
            = ((build 5 gadget_factory None None (Some 0%nat) unlimited
                  seeded_store).1,
               Returned (mkFactory gadget_catalogue []
                 (mkNode make_gadget (qz 1)
                    [mkNode make_frame (qz 1) [mkNode smelt_ore (qz 1) []];
                     mkNode smelt_ore (qz 1) []])))) as H.
    { vm_compute. reflexivity. }
    pose proof (build_seed_set_aliasing _ _ _ _ _ _ _ _ _ H) as Hthm.
    cbv zeta in Hthm. destruct Hthm as (Halias & _ & _).
    assert (({["Bar"]} : gset string) ≠ ∅) as Hne.
    { intros E.
      apply (f_equal (fun s : gset string => bool_decide ("Bar" ∈ s))) in E.
      vm_compute in E. discriminate. }
    destruct (Halias 0%nat {["Bar"]} eq_refl eq_refl Hne) as [Hl _].
    refine (eq_trans Hl _). reflexivity.
  - assert (build 5 gadget_factory None None (Some 0%nat) unlimited
              empty_seed_store
            = ((build 5 gadget_factory None None (Some 0%nat) unlimited
                  empty_seed_store).1,
               Returned (mkFactory gadget_catalogue [] gadget_tree))) as H.
    { vm_compute. reflexivity. }
    pose proof (build_seed_set_aliasing _ _ _ _ _ _ _ _ _ H) as Hthm.
    cbv zeta in Hthm. destruct Hthm as (_ & Hnew & _).
    destruct Hnew as [_ Hframe].
    { right. by exists 0%nat. }
    refine (eq_trans (Hframe 0%nat _) _); [|reflexivity].
    apply elem_of_dom. exists ∅. reflexivity.
Defined.

Example build_seed_set_fresh :
  (build 5 gadget_factory None None (Some 0%nat) unlimited empty_seed_store).1
  = {[ 0%nat := ∅; 1%nat := {["Gadget"; "Frame"; "Bar"; "Ore"]} ]}.
Proof. vm_compute. reflexivity. Qed.

(** * Further properties *)

Import Lists.

(** ** Recipes *)

Lemma find_ingredient_first part l i :
  find_ingredient part l = Some i ↔ first_such (named part) l i.
Proof.
  unfold first_such, named. induction l as [|x l IH]; simpl.
  { split; [done|]. intros (l1 & l2 & E & _). by destruct l1. }
  case_decide as Hx.
  - split.
    + intros [= <-]. exists [], l. by repeat split.
    + intros ([|y l1] & l2 & E & Hi & Hl1); simplify_eq/=; try done.
      by apply Forall_cons_1 in Hl1 as [? _].
  - rewrite IH. split.
    + intros (l1 & l2 & -> & Hi & Hl1). exists (x :: l1), l2.
      repeat split; [done|]. by constructor.
    + intros ([|y l1] & l2 & E & Hi & Hl1); simplify_eq/=; try done.
      apply Forall_cons_1 in Hl1 as [_ ?]. by exists l1, l2.
Qed.

Lemma find_ingredient_None part l :
  find_ingredient part l = None ↔ part ∉ ing_name <$> l.
Proof.
  induction l as [|x l IH].
  { split; [|done]. intros _ H. by apply elem_of_nil in H. }
  cbn [find_ingredient]. rewrite fmap_cons, not_elem_of_cons.
  case_decide; [|rewrite IH]; naive_solver.
Qed.

Lemma scale_to_cases (r : Recipe) (d : direction) (part_name : string)
    (amount : Qc) :
  (∀ q, scale_to r d part_name amount = Ok q ↔
        ∃ i, first_such (named part_name) (ingredients r d) i
             ∧ ing_quantity i ≠ 0%Qc
             ∧ q = round64 (amount / ing_quantity i))
  ∧ (scale_to r d part_name amount = Raise KeyError ↔
     part_name ∉ ing_name <$> ingredients r d)
  ∧ (scale_to r d part_name amount = Raise ZeroDivisionError ↔
     ∃ i, first_such (named part_name) (ingredients r d) i
          ∧ ing_quantity i = 0%Qc).
Proof.
  unfold scale_to. fold (ingredients r d).
  pose proof (find_ingredient_first part_name (ingredients r d)) as Hfirst.
  pose proof (find_ingredient_None part_name (ingredients r d)) as Hnone.
  destruct (find_ingredient part_name (ingredients r d)) as [i|] eqn:E.
  - assert (∀ j, first_such (named part_name) (ingredients r d) j → j = i)
      as Huniq.
    { intros j Hj. apply Hfirst in Hj. congruence. }
    pose proof (proj1 (Hfirst i) eq_refl) as Hi.
    unfold fdiv. split; [|split].
    + intros q. case_decide as Hz; split.
      * done.
      * intros (j & Hj & Hnz & _). apply Huniq in Hj as ->. done.
      * intros [= <-]. by exists i.
      * intros (j & Hj & _ & ->). by apply Huniq in Hj as ->.
    + split; [by case_decide|]. intros Hn. by apply Hnone in Hn.
    + case_decide as Hz; split; try done.
      * intros _. by exists i.
      * intros (j & Hj & Hz'). by apply Huniq in Hj as ->.
  - split; [|split].
    + intros q. split; [done|]. intros (j & Hj & _). by apply Hfirst in Hj.
    + split; [intros _; by apply Hnone | done].
    + split; [done|]. intros (j & Hj & _). by apply Hfirst in Hj.
Qed.

(** X1.  [scale_to] divides the amount by the rate of the first ingredient
    of that name in the chosen list: it returns [q] exactly when that rate is
    not zero and [q] is the float quotient, raises [KeyError] exactly when no
    ingredient has the name, and [ZeroDivisionError] exactly when the first
    one has rate zero; later ingredients of the same name are never used. *)
Theorem scale_to_first_ingredient
    (r : Recipe) (d : direction) (part_name : string) (amount : Qc) :
  (∀ q, scale_to r d part_name amount = Ok q ↔
        ∃ i, first_such (named part_name) (ingredients r d) i
             ∧ ing_quantity i ≠ 0%Qc
             ∧ q = round64 (amount / ing_quantity i))
  ∧ (scale_to r d part_name amount = Raise KeyError ↔
     part_name ∉ ing_name <$> ingredients r d)
  ∧ (scale_to r d part_name amount = Raise ZeroDivisionError ↔
     ∃ i, first_such (named part_name) (ingredients r d) i
          ∧ ing_quantity i = 0%Qc).
Proof. apply scale_to_cases. Qed.



Example scale_to_rounds :
  scale_to make_thing d_output "Thing"
    (fmul (quantity (f_map third_factory)) (qz 25))
  = Ok (Q2Qc (1501199875790165 # 4503599627370496))
  ∧ quantity (f_map third_factory)
    = Q2Qc (6004799503160661 # 18014398509481984).
Proof.
  split; [unfold scale_to, fdiv; simpl; f_equal|];
    apply Qc_is_canon; by vm_compute.
Qed.

(** ** The catalogue: lookup by name *)

Section LookupFacts.
Variable lower : string → string.

Lemma get_recipe_loop_first name0 recipes r :
  get_recipe_loop lower name0 recipes = Ok r
  ↔ first_such (fun x => lower (name x) = name0) recipes r.
Proof.
  unfold first_such. induction recipes as [|x l IH]; simpl.
  { split; [done|]. intros (l1 & l2 & E & _). by destruct l1. }
  case_decide as Hx.
  - split.
    + intros [= <-]. exists [], l. by repeat split.
    + intros ([|y l1] & l2 & E & Hi & Hl1); simplify_eq/=; try done.
      by apply Forall_cons_1 in Hl1 as [? _].
  - rewrite IH. split.
    + intros (l1 & l2 & -> & Hi & Hl1). exists (x :: l1), l2.
      repeat split; [done|]. by constructor.
    + intros ([|y l1] & l2 & E & Hi & Hl1); simplify_eq/=; try done.
      apply Forall_cons_1 in Hl1 as [_ ?]. by exists l1, l2.
Qed.

Lemma get_recipe_loop_raises name0 recipes e :
  get_recipe_loop lower name0 recipes = Raise e
  ↔ e = KeyError ∧ Forall (fun x => lower (name x) ≠ name0) recipes.
Proof.
  induction recipes as [|x l IH]; simpl.
  { split; [by intros [= <-]|by intros [-> _]]. }
  rewrite Forall_cons. case_decide; [|rewrite IH]; naive_solver.
Qed.

Lemma get_recipes_Ok recipes names rs :
  get_recipes lower recipes names = Ok rs
  ↔ Forall2 (fun n r => get_recipe lower recipes n = Ok r) names rs.
Proof.
  revert rs. induction names as [|n names IH]; intros rs; simpl.
  { split; [intros [= <-]; constructor | by inversion 1]. }
  destruct (get_recipe lower recipes n) as [r|e] eqn:En; simpl.
  - destruct (get_recipes lower recipes names) as [rs'|e] eqn:Es; simpl.
    + split.
      * intros [= <-]. constructor; [done|]. by apply IH.
      * inversion 1 as [|? r' ? rs'' Hr Hrs]; subst.
        apply IH in Hrs. congruence.
    + split; [done|]. inversion 1 as [|? r' ? rs'' Hr Hrs]; subst.
      by apply IH in Hrs.
  - split; [done|]. inversion 1; subst. congruence.
Qed.

Lemma get_recipe_raises_KeyError recipes n e :
  get_recipe lower recipes n = Raise e → e = KeyError.
Proof. by intros [-> _]%get_recipe_loop_raises. Qed.

Lemma get_recipes_raises recipes names e :
  get_recipes lower recipes names = Raise e
  ↔ e = KeyError
    ∧ Exists (fun n => get_recipe lower recipes n = Raise KeyError) names.
Proof.
  revert e. induction names as [|n names IH]; intros e; simpl.
  { split; [done|]. intros [_ H]. by apply Exists_nil in H. }
  rewrite Exists_cons.
  destruct (get_recipe lower recipes n) as [r|e'] eqn:En; simpl.
  - destruct (get_recipes lower recipes names) as [rs'|e''] eqn:Es; simpl.
    + split; [done|]. intros [-> [|H]]; [done|].
      by pose proof (proj2 (IH KeyError) (conj eq_refl H)).
    + destruct (proj1 (IH e'') eq_refl) as [-> H].
      split; [intros [= <-]; auto | by intros [-> _]].
  - apply get_recipe_raises_KeyError in En as E. subst e'. naive_solver.
Qed.

End LookupFacts.

(** X3.  [get_recipe] returns the first recipe of the catalogue whose
    lowered name is the lowered name asked for, and raises [KeyError], and
    nothing else, exactly when there is none; two spellings with the same
    lowered form look up the same recipe. *)
Theorem get_recipe_first_match
    (lower : string → string) (recipes : list Recipe) (nm : string) :
  (∀ r, get_recipe lower recipes nm = Ok r
        ↔ first_such (fun x => lower (name x) = lower nm) recipes r)
  ∧ (∀ e, get_recipe lower recipes nm = Raise e
          ↔ e = KeyError
            ∧ Forall (fun x => lower (name x) ≠ lower nm) recipes)
  ∧ (∀ nm', lower nm' = lower nm →
            get_recipe lower recipes nm' = get_recipe lower recipes nm).
Proof.
  split; [|split].
  - intros r. apply get_recipe_loop_first.
  - intros e. apply get_recipe_loop_raises.
  - intros nm' E. unfold get_recipe. by rewrite E.
Qed.

Example get_recipe_ignores_case :
  get_recipe lower_ascii widget_catalogue "SMELT ore" = Ok smelt_ore
  ∧ get_recipe lower_ascii widget_catalogue "Smelter" = Raise KeyError.
Proof. split; reflexivity. Qed.

(** X4.  [get_recipes] returns the recipes of the names in the order of the
    names when every name is found, and otherwise raises [KeyError] without
    a partial result. *)
Theorem get_recipes_all_or_nothing
    (lower : string → string) (recipes : list Recipe) (names : list string) :
  (∀ rs, get_recipes lower recipes names = Ok rs
         ↔ Forall2 (fun n r => get_recipe lower recipes n = Ok r) names rs)
  ∧ (∀ e, get_recipes lower recipes names = Raise e
          ↔ e = KeyError
            ∧ Exists (fun n => get_recipe lower recipes n = Raise KeyError)
                names).
Proof.
  split; [intros rs; apply get_recipes_Ok | intros e; apply get_recipes_raises].
Qed.

Example get_recipes_missing_name :
  get_recipes lower_ascii widget_catalogue ["make widget"; "smelt ore"]
  = Ok [make_widget; smelt_ore]
  ∧ get_recipes lower_ascii widget_catalogue ["make widget"; "smelter"]
    = Raise KeyError.
Proof. split; reflexivity. Qed.

(** ** The catalogue: when the query raises *)

Lemma components_raises role r e :
  components role r = Raise e
  ↔ e = IndexError ∧ reads_product role ∧ outputs r = [].
Proof.
  unfold components, product, reads_product.
  destruct role, (outputs r); simpl; naive_solver.
Qed.

Lemma get_recipes_loop_raises part role exclude recipes results e :
  get_recipes_loop part role exclude recipes results = Raise e
  ↔ e = IndexError ∧ reads_product role
    ∧ Exists (fun r => (machine r ∉ exclude) ∧ outputs r = []) recipes.
Proof.
  revert results. induction recipes as [|x l IH]; intros results; simpl.
  { split; [done|]. intros (_ & _ & H). by apply Exists_nil in H. }
  rewrite Exists_cons. destruct (decide (machine x ∈ exclude)) as [Hin|Hout].
  { rewrite IH. naive_solver. }
  destruct (components role x) as [comps|e'] eqn:Ec; simpl.
  - assert (¬ (reads_product role ∧ outputs x = [])) as Hok.
    { intros [??].
      assert (components role x = Raise IndexError) as H'
        by by apply components_raises.
      congruence. }
    case_decide; rewrite IH; naive_solver.
  - apply components_raises in Ec as (-> & ? & ?). naive_solver.
Qed.

Lemma get_recipes_loop_selects part role exclude recipes results rs :
  get_recipes_loop part role exclude recipes results = Ok rs →
  ∃ sel, rs = results ++ sel ∧ sublist sel recipes
         ∧ Forall (fun r => (machine r ∉ exclude) ∧ involves role part r) sel.
Proof.
  revert results. induction recipes as [|x l IH]; intros results; simpl.
  { intros [= <-]. exists []. by rewrite app_nil_r. }
  destruct (decide (machine x ∈ exclude)) as [Hin|Hout].
  { intros (sel & -> & Hsub & Hall)%IH. exists sel.
    split; [done|]. split; [by constructor|done]. }
  destruct (components role x) as [comps|e'] eqn:Ec; simpl; [|done].
  pose proof (components_names role part x comps Ec) as Hn.
  case_decide as Hp.
  - intros (sel & -> & Hsub & Hall)%IH. exists (x :: sel).
    split; [by rewrite <- app_assoc|]. split; [by constructor|].
    constructor; [|done]. split; [done|]. by apply Hn.
  - intros (sel & -> & Hsub & Hall)%IH. exists sel.
    split; [done|]. split; [by constructor|done].
Qed.

(** X5.  [get_recipes_by_part] raises, an [IndexError], exactly when the
    role reads the product and some recipe that is not excluded has no
    output: then no result is returned, whatever good was asked for.  What
    it returns is a sub-list of the catalogue in which no recipe runs on an
    excluded machine, a Packager by default. *)
Theorem get_recipes_by_part_outcomes
    (recipes : list Recipe) (part : string) (role : by_role)
    (exclude_machines : option (gset string)) :
  let exclude := default default_exclude exclude_machines in
  (∀ e, get_recipes_by_part recipes part role exclude_machines = Raise e
        ↔ e = IndexError ∧ reads_product role
          ∧ Exists (fun r => (machine r ∉ exclude) ∧ outputs r = []) recipes)
  ∧ (∀ rs, get_recipes_by_part recipes part role exclude_machines = Ok rs →
           sublist rs recipes
           ∧ Forall (fun r => (machine r ∉ exclude) ∧ involves role part r) rs).
Proof.
  intros exclude. unfold get_recipes_by_part. split.
  - intros e. apply get_recipes_loop_raises.
  - intros rs (sel & -> & ? & ?)%get_recipes_loop_selects. done.
Qed.

Example get_recipes_by_part_no_output :
  get_recipes_by_part [smelt_ore; unfinished] "Bar" by_product None
  = Raise IndexError
  ∧ get_recipes_by_part [smelt_ore; unfinished] "Bar" by_ingredient None
    = Ok [unfinished].
Proof. split; reflexivity. Qed.

(** ** Selection policies: ties and errors *)

Section FirstBest.
Context {A : Type}.
Variables (beats : Qc → Qc → Prop) (better : Qc → Qc → bool) (K : A → Qc).
Hypothesis better_beats : ∀ a b, better a b = true ↔ beats a b.
Hypothesis beats_trans : ∀ a b c, beats a b → beats b c → beats a c.
Hypothesis beats_later : ∀ y b e, beats y b → ¬ beats e b → beats y e.

Lemma py_best_first_best key l1 best l2 l :
  Forall (fun y => beats (K best) (K y)) l1 →
  Forall (fun y => ¬ beats (K y) (K best)) l2 →
  Forall (fun x => key x = Ok (K x)) l →
  ∃ x, py_best better key best (K best) l = Ok x
       ∧ first_best beats K (l1 ++ best :: l2 ++ l) x.
Proof.
  intros H1 H2 Hl. revert l1 best l2 H1 H2.
  induction Hl as [|y l Hy _ IH]; intros l1 best l2 H1 H2; simpl.
  { exists best. split; [done|]. exists l1, l2. by rewrite app_nil_r. }
  rewrite Hy. simpl. destruct (better (K y) (K best)) eqn:Eb.
  - apply better_beats in Eb.
    destruct (IH (l1 ++ best :: l2) y []) as (x & Hx & Hfirst).
    + apply Forall_app. split.
      * eapply Forall_impl; [exact H1|]. simpl. eauto.
      * constructor; [done|]. eapply Forall_impl; [exact H2|]. simpl. eauto.
    + constructor.
    + exists x. split; [done|].
      by rewrite <- !app_assoc in Hfirst.
  - assert (¬ beats (K y) (K best)) as Hn.
    { intros Hb%better_beats. congruence. }
    destruct (IH l1 best (l2 ++ [y])) as (x & Hx & Hfirst); [done| |].
    + apply Forall_app. split; [done|]. by constructor.
    + exists x. split; [done|].
      by rewrite <- !app_assoc in Hfirst.
Qed.

Lemma py_extremum_first_best key l :
  l ≠ [] → Forall (fun x => key x = Ok (K x)) l →
  ∃ x, py_extremum better key l = Ok x ∧ first_best beats K l x.
Proof.
  intros Hne Hl. destruct l as [|b l]; [done|].
  apply Forall_cons_1 in Hl as [Hb Hl]. simpl. rewrite Hb. simpl.
  apply (py_best_first_best key [] b [] l); [constructor..|done].
Qed.
End FirstBest.

Lemma py_best_raises {A} better (key : A → result Qc) (e0 : exn) best bk l e :
  (∀ x e', key x = Raise e' → e' = e0) →
  py_best better key best bk l = Raise e
  ↔ e = e0 ∧ Exists (fun x => key x = Raise e0) l.
Proof.
  intros Hkey. revert best bk. induction l as [|y l IH]; intros best bk; simpl.
  { split; [done|]. intros [_ H]. by apply Exists_nil in H. }
  rewrite Exists_cons. destruct (key y) as [k|e'] eqn:Ey; simpl.
  - destruct (better k bk); rewrite IH; naive_solver.
  - apply Hkey in Ey as E. subst e'. naive_solver.
Qed.

Lemma py_extremum_raises {A} better (key : A → result Qc) (e0 : exn) l e :
  (∀ x e', key x = Raise e' → e' = e0) → l ≠ [] →
  py_extremum better key l = Raise e
  ↔ e = e0 ∧ Exists (fun x => key x = Raise e0) l.
Proof.
  intros Hkey Hne. destruct l as [|b l]; [done|]. simpl.
  rewrite Exists_cons. destruct (key b) as [k|e'] eqn:Eb; simpl.
  - rewrite (py_best_raises _ _ e0) by done. naive_solver.
  - apply Hkey in Eb as E. subst e'. naive_solver.
Qed.

Lemma Qc_of_nat_lt (a b : nat) : (Qc_of_nat a < Qc_of_nat b)%Qc ↔ (a < b)%nat.
Proof.
  unfold Qc_of_nat, Qclt. simpl. rewrite !Qred_correct, <- Zlt_Qlt. lia.
Qed.

Lemma higher_trans a b c : higher a b → higher b c → higher a c.
Proof. unfold higher. intros ??. by eapply Qclt_trans. Qed.

Lemma higher_later y b e : higher y b → ¬ higher e b → higher y e.
Proof.
  unfold higher. intros H Hn%Qcnot_lt_le. by eapply Qcle_lt_trans.
Qed.

Lemma lower_than_trans a b c :
  lower_than a b → lower_than b c → lower_than a c.
Proof. unfold lower_than. intros ??. by eapply Qclt_trans. Qed.

Lemma lower_than_later y b e :
  lower_than y b → ¬ lower_than e b → lower_than y e.
Proof.
  unfold lower_than. intros H Hn%Qcnot_lt_le. by eapply Qclt_le_trans.
Qed.

Lemma product_quantity_rate r : has_product r →
  product_quantity r = Ok (product_rate r).
Proof.
  unfold has_product, product_quantity, product, product_rate.
  by destruct (outputs r).
Qed.

Lemma product_quantity_raises r e :
  product_quantity r = Raise e ↔ e = IndexError ∧ outputs r = [].
Proof.
  unfold product_quantity, product. destruct (outputs r); simpl; naive_solver.
Qed.

(** X6.  [simplest_recipe] raises [ValueError] on an empty list and
    otherwise returns the first candidate with the fewest inputs: ties go to
    the candidate listed first. *)
Theorem simplest_recipe_first_fewest_inputs :
  simplest_recipe [] = Raise ValueError
  ∧ ∀ options, options ≠ [] →
      ∃ r, simplest_recipe options = Ok r
           ∧ first_least (fun x => length (inputs x)) options r.
Proof.
  split; [done|]. intros options Hne.
  destruct (py_extremum_first_best lower_than Qc_ltb input_count
              (fun a b => bool_decide_eq_true _)
              lower_than_trans lower_than_later
              (fun recipe => Ok (Qc_of_nat (length (inputs recipe))))
              options Hne) as (r & Hr & l1 & l2 & E & H1 & H2).
  { by apply Forall_forall. }
  exists r. split; [done|]. exists l1, l2. split; [done|]. split.
  - eapply Forall_impl; [exact H1|]. simpl. intros y.
    unfold lower_than, input_count. by rewrite Qc_of_nat_lt.
  - eapply Forall_impl; [exact H2|]. simpl. intros y.
    unfold lower_than, input_count. rewrite Qc_of_nat_lt. lia.
Qed.

Lemma simplest_recipe_first_fewest_inputs_witness :
  ∃ r, simplest_recipe [pure_iron_ingot; iron_ingot; smelt_ore] = Ok r
       ∧ first_least (fun x => length (inputs x))
           [pure_iron_ingot; iron_ingot; smelt_ore] r.
Proof. by apply (proj2 simplest_recipe_first_fewest_inputs). Defined.

Example simplest_recipe_tie :
  simplest_recipe [pure_iron_ingot; iron_ingot; smelt_ore] = Ok iron_ingot.
Proof. reflexivity. Qed.

(** X7.  [max_output] raises [ValueError] on an empty list; on candidates
    that all have a primary product it returns the first one of the highest
    rate; and on a non-empty list it raises, an [IndexError], exactly when
    some candidate has no output, even if that candidate could not have been
    chosen.  [preferred_names] on an empty list raises [ValueError] too. *)
Theorem max_output_first_highest_rate :
  max_output [] = Raise ValueError
  ∧ (∀ names, preferred_names [] names = Raise ValueError)
  ∧ (∀ options, options ≠ [] → Forall has_product options →
       ∃ r, max_output options = Ok r
            ∧ first_highest product_rate options r)
  ∧ (∀ options e, options ≠ [] →
       max_output options = Raise e
       ↔ e = IndexError ∧ Exists (fun r => outputs r = []) options).
Proof.
  split; [done|]. split; [done|]. split.
  - intros options Hne Hall.
    destruct (py_extremum_first_best higher Qc_gtb product_rate
                (fun a b => bool_decide_eq_true _)
                higher_trans higher_later product_quantity
                options Hne) as (r & Hr & l1 & l2 & E & H1 & H2).
    { eapply Forall_impl; [exact Hall|]. apply product_quantity_rate. }
    exists r. split; [done|]. exists l1, l2. split; [done|]. split; [done|].
    eapply Forall_impl; [exact H2|]. simpl. intros y.
    unfold higher. apply Qcnot_lt_le.
  - intros options e Hne. unfold max_output, py_max.
    rewrite (py_extremum_raises _ _ IndexError); [|by intros x e' [-> _]%product_quantity_raises|done].
    apply and_iff_compat_l. apply Exists_proper; [|done].
    intros r. rewrite product_quantity_raises. naive_solver.
Qed.

Lemma max_output_first_highest_rate_witness :
  ∃ r, max_output [iron_ingot; smelt_ore; pure_iron_ingot] = Ok r
       ∧ first_highest product_rate
           [iron_ingot; smelt_ore; pure_iron_ingot] r.
Proof.
  apply (proj1 (proj2 (proj2 max_output_first_highest_rate))); [done|].
  by repeat constructor.
Defined.

Example max_output_tie :
  max_output [iron_ingot; smelt_ore; pure_iron_ingot] = Ok pure_iron_ingot
  ∧ max_output [iron_ingot; smelt_ore] = Ok iron_ingot
  ∧ max_output [pure_iron_ingot; unfinished] = Raise IndexError.
Proof. repeat split; reflexivity. Qed.

(** ** find_node and the factory on a node *)

Lemma preorder_self n : n ∈ preorder n.
Proof. destruct n. by left. Qed.

Lemma preorder_child r q cs c m :
  c ∈ cs → m ∈ preorder c → m ∈ preorder (mkNode r q cs).
Proof.
  intros Hc Hm. simpl. right. apply list_elem_of_In, in_flat_map.
  exists c. by rewrite <- !list_elem_of_In.
Qed.

Lemma preorder_trans m n t : m ∈ preorder n → n ∈ preorder t → m ∈ preorder t.
Proof.
  intros Hm. induction t as [r q cs IH] using Node_tree_ind. simpl.
  intros [->|Hn]%elem_of_cons; [done|].
  apply list_elem_of_In, in_flat_map in Hn as (c & Hc & Hn).
  rewrite <- !list_elem_of_In in *.
  eapply preorder_child; [exact Hc|].
  by apply (proj1 (Forall_forall _ _) IH c Hc).
Qed.

Lemma preorder_plug ctx n : n ∈ preorder (plug ctx n).
Proof.
  revert n. induction ctx as [|fr ctx IH]; intros n; simpl.
  { apply preorder_self. }
  eapply preorder_trans; [|apply IH]. unfold plug1.
  eapply preorder_child; [|apply preorder_self].
  apply elem_of_app. right. by left.
Qed.

Lemma find_None prod ctx n :
  _find_node_by_product prod ctx n = Ok None →
  Forall (fun m => ∃ g, produces g m ∧ g ≠ prod) (preorder n).
Proof.
  revert ctx. induction n as [r q cs IH] using Node_tree_ind. intros ctx.
  simpl. destruct (product r) as [p|] eqn:Hp; simpl; [|done].
  case_decide as Hne; [done|]. intros H. constructor.
  { exists (ing_name p). split; [|done]. by apply product_name_Ok. }
  revert H. generalize (@nil Node) as left.
  induction IH as [|c right Hc _ IHr]; intros left; simpl; [constructor|].
  destruct (_find_node_by_product prod _ c) as [[found|]|] eqn:Ec;
    simpl; [done| |done].
  intros H. apply Forall_app. split; [by eapply Hc | by eapply IHr].
Qed.

Lemma find_raises prod ctx n e :
  _find_node_by_product prod ctx n = Raise e →
  e = IndexError ∧ Exists (fun m => outputs (recipe m) = []) (preorder n).
Proof.
  revert ctx. induction n as [r q cs IH] using Node_tree_ind. intros ctx.
  simpl. unfold product at 1. destruct (outputs r) as [|p ps] eqn:Hp; simpl.
  { intros [= <-]. split; [done|]. by left. }
  case_decide as Hne; [done|]. intros H.
  cut (e = IndexError
       ∧ Exists (fun m => outputs (recipe m) = []) (flat_map preorder cs)).
  { intros [-> ?]. split; [done|]. by right. }
  revert H. generalize (@nil Node) as left.
  induction IH as [|c right Hc _ IHr]; intros left; simpl; [done|].
  destruct (_find_node_by_product prod _ c) as [[found|]|e'] eqn:Ec;
    simpl; [done| |].
  - intros (-> & H)%IHr. split; [done|]. apply Exists_app. by right.
  - intros [= <-]. destruct (Hc _ Ec) as [-> H]. split; [done|].
    apply Exists_app. by left.
Qed.

Lemma find_node_inside f g rel node :
  find_node f g = Ok (Some (rel, node)) →
  plug rel node = f_map f ∧ produces g node ∧ node ∈ preorder (f_map f).
Proof.
  intros H. pose proof (find_node_position f g rel node H) as Hplug.
  split; [done|]. split.
  - apply find_produces in H as (p & Hp & <-). by apply product_name_Ok.
  - rewrite <- Hplug. apply preorder_plug.
Qed.

(** X8.  What [find_node] can do: the node it returns lies in the tree
    under [map], at the position returned, and makes the good; it returns
    [None] only if every node has a product and none is the good; it raises
    only [IndexError], and only if some node's recipe has no output. *)
Theorem find_node_outcomes (f : Factory) (g : string) :
  (∀ rel node, find_node f g = Ok (Some (rel, node)) →
      plug rel node = f_map f ∧ produces g node
      ∧ node ∈ preorder (f_map f))
  ∧ (find_node f g = Ok None →
     Forall (fun m => ∃ g', produces g' m ∧ g' ≠ g) (preorder (f_map f)))
  ∧ (∀ e, find_node f g = Raise e →
       e = IndexError
       ∧ Exists (fun m => outputs (recipe m) = []) (preorder (f_map f))).
Proof.
  split; [|split].
  - intros rel node. apply find_node_inside.
  - apply find_None.
  - intros e. apply find_raises.
Qed.

Lemma find_node_outcomes_witness :
  Forall (fun m => ∃ g', produces g' m ∧ g' ≠ "Ore")
    (preorder (f_map widget_factory)).
Proof.
  apply (proj1 (proj2 (find_node_outcomes widget_factory "Ore"))).
  reflexivity.
Defined.

Lemma whole_adopted registry rel above node :
  whole (mkFactory registry (rel ++ above) node)
  = plug above (plug rel node).
Proof. unfold whole. simpl. apply plug_app. Qed.

Lemma erase_whole f : erase (whole f) = whole (erase_factory f).
Proof. unfold whole. simpl. apply erase_plug. Qed.

(** X9.  [new_factory_from_product] adopts the node [find_node] returns:
    the new factory has the same registry and lives in the same tree, its
    [map] makes the good; when no node makes the good the new object has no
    [map].  A [scale] made through the new factory that returns has
    rescaled the whole tree the node belongs to, without changing its
    shape: along every edge of it one of the two quantities is the float
    computed from the other. *)
Theorem new_factory_from_product_shares_tree (f : Factory) (g : string) :
  (∀ f', new_factory_from_product f g = Ok (with_map f') →
      whole f' = whole f ∧ f_registry f' = f_registry f
      ∧ produces g (f_map f') ∧ f_map f' ∈ preorder (f_map f))
  ∧ (∀ registry, new_factory_from_product f g = Ok (without_map registry)
       ↔ find_node f g = Ok None ∧ registry = f_registry f)
  ∧ (∀ f' g' target f'',
       new_factory_from_product f g = Ok (with_map f') →
       scale f' g' target = (f'', Ok tt) →
       computed (whole f'') ∧ erase (whole f'') = erase (whole f)).
Proof.
  assert (∀ f', new_factory_from_product f g = Ok (with_map f') →
            ∃ rel, find_node f g = Ok (Some (rel, f_map f'))
                   ∧ f' = mkFactory (f_registry f) (rel ++ f_above f)
                            (f_map f')) as Hinv.
  { intros f'. unfold new_factory_from_product.
    destruct (find_node f g) as [[[rel node]|]|]; simpl; [|done..].
    intros [= <-]. by exists rel. }
  assert (∀ f', new_factory_from_product f g = Ok (with_map f') →
            whole f' = whole f) as Hwhole.
  { intros f' (rel & Hfind & ->)%Hinv.
    apply find_node_inside in Hfind as (Hplug & _).
    rewrite whole_adopted. simpl. by rewrite Hplug. }
  split; [|split].
  - intros f' H. split; [by apply Hwhole|].
    apply Hinv in H as (rel & Hfind & ->). simpl.
    by apply find_node_inside in Hfind as (_ & ? & ?).
  - intros registry. unfold new_factory_from_product.
    destruct (find_node f g) as [[[rel node]|]|]; simpl; naive_solver.
  - intros f' g' target f'' Hnew Hscale. split.
    + by eapply scale_computed.
    + apply scale_shape in Hscale. rewrite !erase_whole, Hscale.
      rewrite <- !erase_whole. f_equal. by apply Hwhole.
Qed.

Lemma new_factory_from_product_shares_tree_witness :
  whole bar_factory = whole widget_factory
  ∧ computed (whole (scale bar_factory "Bar" (qz 75)).1)
  ∧ this ∘ quantity <$> preorder (whole (scale bar_factory "Bar" (qz 75)).1)
    = [(15 # 4)%Q; (5 # 2)%Q].
Proof.
  destruct (new_factory_from_product_shares_tree widget_factory "Bar")
    as (Hshare & _ & Hscale).
  assert (new_factory_from_product widget_factory "Bar"
          = Ok (with_map bar_factory)) as Hnew by reflexivity.
  split; [by apply Hshare|]. split; [|reflexivity].
  eapply (Hscale bar_factory "Bar" (qz 75)); [exact Hnew|].
  vm_compute. reflexivity.
Defined.

(** ** scale: shape, success, anchors *)

Import Linked.

Lemma preorder_erase n : preorder (erase n) = erase <$> preorder n.
Proof.
  induction n as [r q cs IH] using Node_tree_ind.
  cbn [erase preorder children]. rewrite fmap_cons. f_equal.
  induction IH as [|c cs Hc _ IHcs]; [done|].
  rewrite fmap_cons. cbn [flat_map]. by rewrite fmap_app, Hc, IHcs.
Qed.

Lemma erase_recipes n1 n2 :
  erase n1 = erase n2 → recipe <$> preorder n1 = recipe <$> preorder n2.
Proof.
  intros E.
  assert (∀ n, recipe <$> preorder n = recipe <$> preorder (erase n)) as H.
  { intros n. rewrite preorder_erase, <- list_fmap_compose.
    apply list_fmap_ext. intros _ m _. simpl. by rewrite erase_recipe. }
  by rewrite (H n1), (H n2), E.
Qed.

(** X10.  Whatever its outcome, [scale] changes quantities only: the
    registry, the shape of the tree and the recipe of every node, above
    [map] as below it, are as before. *)
Theorem scale_changes_quantities_only
    (f : Factory) (g : string) (target : Qc) (f' : Factory)
    (res : result unit) :
  scale f g target = (f', res) →
  erase_factory f' = erase_factory f
  ∧ recipe <$> preorder (f_map f') = recipe <$> preorder (f_map f)
  ∧ recipe <$> preorder (whole f') = recipe <$> preorder (whole f).
Proof.
  intros H%scale_shape. split; [done|].
  split; apply erase_recipes.
  - by injection H.
  - by rewrite !erase_whole, H.
Qed.

Lemma scale_changes_quantities_only_witness :
  recipe <$> preorder (f_map (scale stray_factory "Widget" (qz 25)).1)
  = recipe <$> preorder (f_map stray_factory).
Proof.
  apply (scale_changes_quantities_only stray_factory "Widget" (qz 25) _
           (Raise ValueError)).
  vm_compute. reflexivity.
Defined.

Lemma linked_inv r q cs :
  linked (mkNode r q cs) → Forall (supplies r) cs ∧ Forall linked cs.
Proof. by inversion 1. Qed.

Lemma linked_plug ctx n : linked (plug ctx n) → linked n.
Proof.
  revert n. induction ctx as [|fr up IH]; intros n; simpl; [done|].
  intros H%IH. unfold plug1 in H.
  apply linked_inv in H as [_ H]. apply Forall_app in H as [_ H].
  by apply Forall_cons_1 in H as [??].
Qed.

Lemma supplies_find r c :
  supplies r c →
  ∃ p i, product (recipe c) = Ok p
         ∧ find_ingredient (ing_name p) (inputs r) = Some i.
Proof.
  intros (p & Hp & Hin). exists p.
  destruct (find_ingredient (ing_name p) (inputs r)) as [i|] eqn:E; [eauto|].
  by apply find_ingredient_None in E.
Qed.

Lemma for_each_child_succeeds body cs :
  Forall (fun c => ∃ c', body c = (c', Ok tt)) cs →
  ∃ cs', for_each_child body cs = (cs', Ok tt).
Proof.
  induction 1 as [|c cs [c' Hc] _ [cs' IH]]; simpl; [eauto|].
  rewrite Hc, IH. eauto.
Qed.

(** On a linked subtree with positive rates the downward pass returns. *)
Lemma scale_by_product_succeeds mr mq n :
  supplies mr n → linked n → tree_rates_positive n →
  ∃ n', _scale_node_by_product mr mq n = (n', Ok tt).
Proof.
  revert mr mq. induction n as [r q cs IH] using Node_tree_ind.
  intros mr mq (p & i & Hp & Hi)%supplies_find [Hs Hl]%linked_inv Hpos.
  inversion Hpos as [? ? ? Hr Hcs]; subst. simpl in *. rewrite Hp, Hi.
  rewrite fdiv_nonzero by by eapply product_rate_nonzero.
  destruct (for_each_child_succeeds
              (_scale_node_by_product r
                 (round64 (fmul (ing_quantity i) mq / ing_quantity p)))
              cs) as [cs' Hcs'].
  { clear -IH Hs Hl Hcs. induction IH as [|c cs Hc _ IHcs]; [constructor|].
    apply Forall_cons_1 in Hs as [??]. apply Forall_cons_1 in Hl as [??].
    apply Forall_cons_1 in Hcs as [??]. constructor; auto. }
  rewrite Hcs'. eauto.
Qed.

Lemma for_each_scaled_succeeds r q cs :
  Forall (supplies r) cs → Forall linked cs →
  Forall tree_rates_positive cs →
  ∃ cs', for_each_child (_scale_node_by_product r q) cs = (cs', Ok tt).
Proof.
  intros Hs Hl Hp. apply for_each_child_succeeds.
  induction cs as [|c cs IH]; [constructor|].
  apply Forall_cons_1 in Hs as [??]. apply Forall_cons_1 in Hl as [??].
  apply Forall_cons_1 in Hp as [??].
  constructor; [by apply scale_by_product_succeeds | by apply IH].
Qed.

(** In a linked tree with positive rates the upward pass returns. *)
Lemma scale_by_ingredient_succeeds ctx n mq :
  linked (plug ctx n) → tree_rates_positive (plug ctx n) →
  ∃ ctx', _scale_node_by_ingredient ctx (recipe n) mq = (ctx', Ok tt).
Proof.
  revert n mq. induction ctx as [|[fr fq left right] up IH]; intros n mq Hl Hp;
    simpl in *; [eauto|].
  pose proof (linked_plug _ _ Hl) as Hl1.
  pose proof (rates_plug _ _ Hp) as Hp1. unfold plug1 in Hl1, Hp1.
  simpl in *.
  apply linked_inv in Hl1 as [Hs Hlk].
  inversion Hp1 as [? ? ? Hr Hcs]; subst.
  apply Forall_app in Hs as [Hsl Hs]. apply Forall_cons_1 in Hs as [Hsn Hsr].
  apply Forall_app in Hlk as [Hll Hln]. apply Forall_cons_1 in Hln as [Hln Hlr].
  apply Forall_app in Hcs as [Hpl Hpn]. apply Forall_cons_1 in Hpn as [Hpn Hpr].
  destruct (supplies_find _ _ Hsn) as (p & i & Hprod & Hi).
  rewrite Hprod, Hi.
  rewrite fdiv_nonzero by by eapply input_rate_nonzero.
  set (q' := round64 (fmul (ing_quantity p) mq / ing_quantity i)).
  destruct (for_each_scaled_succeeds fr q' left) as [left' ->]; [done..|].
  destruct (for_each_scaled_succeeds fr q' right) as [right' ->]; [done..|].
  destruct (IH (plug1 (mkFrame fr fq left right) n) q' Hl Hp) as [up' Hup].
  simpl in Hup. rewrite Hup. eauto.
Qed.

Lemma first_producer_Some g n :
  Exists (produces g) (preorder n) → is_Some (first_producer g n).
Proof.
  intros H. unfold first_producer.
  destruct (filter _ _) as [|loc l] eqn:E; [|by eexists]. exfalso.
  apply Exists_exists in H as (m & Hm & Hg).
  rewrite <- (locations_preorder [] n) in Hm.
  apply list_elem_of_fmap in Hm as (loc & -> & Hloc).
  assert (loc ∈ filter (fun loc => produces g loc.2) (locations [] n)) as Hin
    by by apply list_elem_of_filter.
  rewrite E in Hin. by apply elem_of_nil in Hin.
Qed.

Lemma scale_succeeds f g target :
  linked (whole f) → tree_rates_positive (whole f) →
  nodes_have_product (f_map f) →
  Exists (produces g) (preorder (f_map f)) →
  ∃ f', scale f g target = (f', Ok tt).
Proof.
  intros Hl Hp Hprod Hex.
  pose proof (find_first g [] (f_map f) Hprod) as Hfind.
  fold (find_node f g) in Hfind. fold (first_producer g (f_map f)) in Hfind.
  destruct (first_producer_Some g (f_map f) Hex) as [[rel node] Hsome].
  rewrite Hsome in Hfind.
  pose proof (find_node_position f g rel node Hfind) as Hplug.
  assert (whole f = plug (rel ++ f_above f) node) as Hwhole.
  { unfold whole. by rewrite plug_app, Hplug. }
  rewrite Hwhole in Hl, Hp.
  apply find_produces in Hfind as Hp'. destruct Hp' as (p & Hprodn & _).
  simpl in Hprodn.
  pose proof (linked_plug _ _ Hl) as Hln.
  pose proof (rates_plug _ _ Hp) as Hpn.
  destruct node as [r q cs]. simpl in *.
  apply linked_inv in Hln as [Hs Hlk].
  inversion Hpn as [? ? ? Hr Hcs]; subst.
  unfold scale. rewrite Hfind. simpl. rewrite Hprodn.
  rewrite fdiv_nonzero by by eapply product_rate_nonzero.
  set (q' := round64 (target / ing_quantity p)).
  destruct (for_each_scaled_succeeds r q' cs) as [cs' ->]; [done..|].
  destruct (scale_by_ingredient_succeeds (rel ++ f_above f) (mkNode r q cs) q'
              Hl Hp) as [ctx' Hup].
  simpl in Hup. rewrite Hup. eauto.
Qed.

(** X11.  When [scale] is sure to return: in a tree in which every node
    below the root makes an input of its parent, every rate is strictly
    positive and every node under [map] has a product, [scale] on a good
    made under [map] returns, for any target, and leaves a tree in which,
    along every edge, one of the two quantities is the float computed from
    the other. *)
Theorem scale_returns_on_linked_trees
    (f : Factory) (g : string) (target : Qc) :
  linked (whole f) → tree_rates_positive (whole f) →
  nodes_have_product (f_map f) →
  Exists (produces g) (preorder (f_map f)) →
  ∃ f', scale f g target = (f', Ok tt) ∧ computed (whole f').
Proof.
  intros Hl Hp Hprod Hex.
  destruct (scale_succeeds f g target Hl Hp Hprod Hex) as [f' H].
  exists f'. split; [done|]. by eapply scale_computed.
Qed.

Lemma widget_factory_linked : linked (whole widget_factory).
Proof.
  repeat constructor. exists (ingr "Bar" 30). split; [reflexivity|]. by left.
Qed.

Lemma widget_factory_rates : tree_rates_positive (whole widget_factory).
Proof. repeat constructor. Qed.

Lemma widget_factory_products : nodes_have_product (f_map widget_factory).
Proof. repeat constructor; discriminate. Qed.

Lemma scale_returns_on_linked_trees_witness :
  ∃ f', scale widget_factory "Bar" (qz 45) = (f', Ok tt)
        ∧ computed (whole f').
Proof.
  apply (scale_returns_on_linked_trees widget_factory "Bar" (qz 45)).
  - apply widget_factory_linked.
  - apply widget_factory_rates.
  - apply widget_factory_products.
  - apply Exists_cons. right. apply Exists_cons. by left.
Defined.

(** The node at a position of a tree is determined by the tree and the
    shape of the position. *)
Lemma plug_inj c1 c2 n1 n2 :
  erase_frame <$> c1 = erase_frame <$> c2 →
  plug c1 n1 = plug c2 n2 → n1 = n2.
Proof.
  revert c2 n1 n2.
  induction c1 as [|fr1 up1 IH]; intros [|fr2 up2] n1 n2; simpl;
    intros E; try done.
  injection E as Hr Hl Hrt Hup.
  intros Hp. apply (IH up2) in Hp; [|done].
  unfold plug1 in Hp. injection Hp as _ _ Hcs.
  apply app_inj_1 in Hcs as [_ [= -> _]]; [done|].
  by rewrite <- (length_fmap erase (f_left fr1)), Hl, length_fmap.
Qed.

(** X12.  Scaling a node to the rate at which it already produces.  In a
    tree settled around the node that [find_node] finds for a good (below
    it every quantity is the float computed from the parent's, above it
    from the child's on the path), scaling the good to the node's current
    rate, the float [quantity * rate], recomputes the node's quantity as
    the float [quantity * rate / rate]; the call returns and changes
    nothing exactly when that float is the quantity there was. *)
Theorem scale_to_current_rate
    (f : Factory) (g : string) (rel : list Frame) (node : Node)
    (p : Ingredient) :
  find_node f g = Ok (Some (rel, node)) →
  product (recipe node) = Ok p →
  settled node → settled_above (rel ++ f_above f) node →
  scale f g (fmul (quantity node) (ing_quantity p)) = (f, Ok tt)
  ↔ fdiv (fmul (quantity node) (ing_quantity p)) (ing_quantity p)
    = Ok (quantity node).
Proof.
  intros Hfind Hp Hs Ha.
  pose proof (find_node_position f g rel node Hfind) as Hplug.
  split.
  - intros H.
    destruct (decide (ing_quantity p = 0%Qc)) as [Hz|Hz].
    { assert (fdiv (fmul (quantity node) (ing_quantity p)) (ing_quantity p)
              = Raise ZeroDivisionError) as E
        by (unfold fdiv; by rewrite decide_True).
      unfold scale in H. rewrite Hfind, Hp, E in H. discriminate H. }
    pose proof (scale_anchor_written f g
                  (fmul (quantity node) (ing_quantity p)) rel node p
                  Hfind Hp Hz) as (rel' & cs' & Hmap & Hrel & _).
    rewrite H in Hmap. simpl in Hmap. rewrite <- Hplug in Hmap.
    apply plug_inj in Hmap; [|done].
    apply (f_equal quantity) in Hmap. simpl in Hmap.
    rewrite (fdiv_nonzero _ _ Hz). f_equal. by symmetry.
  - intros Hq. pose proof (scale_by_ingredient_fixed _ _ Ha) as Hup.
    destruct node as [r q cs]. simpl in *.
    apply settled_inv in Hs as [Hf Hcs].
    unfold scale. rewrite Hfind. simpl. rewrite Hp, Hq.
    rewrite for_each_scaled_fixed by done. rewrite Hup.
    rewrite refocus_app, Hplug. by destruct f.
Qed.

Lemma scale_to_current_rate_witness :
  scale rescaled_widget_factory "Bar"
    (fmul (quantity (mkNode smelt_ore (round64 (qz 25 / qz 30)) [])) (qz 30))
  = (rescaled_widget_factory, Ok tt)
  ↔ fdiv (fmul (quantity (mkNode smelt_ore (round64 (qz 25 / qz 30)) []))
            (qz 30))
      (qz 30)
    = Ok (quantity (mkNode smelt_ore (round64 (qz 25 / qz 30)) [])).
Proof.
  apply (scale_to_current_rate rescaled_widget_factory "Bar"
           [mkFrame make_widget
              (round64 (fmul (qz 30) (round64 (qz 25 / qz 30)) / qz 20))
              [] []]
           (mkNode smelt_ore (round64 (qz 25 / qz 30)) []) (ingr "Bar" 30)).
  - vm_compute. reflexivity.
  - reflexivity.
  - repeat constructor.
  - split; [|by repeat constructor].
    exists (ingr "Bar" 30), (ingr "Bar" 20).
    split; [reflexivity|]. split; [reflexivity|]. vm_compute. reflexivity.
Defined.

(** X13.  The quantity [scale] gives its anchor is what the anchor's
    recipe computes with [scale_to_output] for the good and the target. *)
Theorem scale_anchor_uses_scale_to_output
    (f : Factory) (g : string) (target : Qc) (f' : Factory) :
  scale f g target = (f', Ok tt) →
  ∃ rel node q',
    find_node f g = Ok (Some (rel, node))
    ∧ scale_to_output (recipe node) g target = Ok q'
    ∧ anchored f' rel node q'.
Proof.
  intros H%scale_inv.
  inversion H as [| | | |rel node p q' cs' ctx' res Hf Hp Hq Hc Hu]; subst.
  exists rel, node, q'. split; [done|]. split.
  - apply find_produces in Hf as (p0 & Hp0 & <-). simpl in Hp0.
    assert (p0 = p) as -> by congruence.
    unfold scale_to_output, scale_to, product in *.
    destruct (outputs (recipe node)) as [|o os]; [done|]. simplify_eq/=.
    by rewrite decide_True.
  - apply (refocus_anchored _ _ (f_above f)).
    + by eapply scale_by_ingredient_shape.
    + by eapply for_each_scaled_shape.
Qed.

Lemma scale_anchor_uses_scale_to_output_witness :
  ∃ rel node q',
    find_node widget_factory "Bar" = Ok (Some (rel, node))
    ∧ scale_to_output (recipe node) "Bar" (qz 45) = Ok q'
    ∧ anchored (scale widget_factory "Bar" (qz 45)).1 rel node q'.
Proof.
  apply (scale_anchor_uses_scale_to_output widget_factory "Bar" (qz 45)).
  vm_compute. reflexivity.
Defined.

(** ** tally_machines and quantities *)

Lemma ceil_positive (q : Qc) : (0 < q)%Qc → (1 ≤ ceil q)%Z.
Proof.
  unfold ceil, Qclt. simpl. intros H.
  pose proof (Qle_ceiling (this q)) as Hc.
  assert (0 < inject_Z (Qceiling (this q)))%Q as Hpos
    by by eapply Qlt_le_trans.
  rewrite <- (Zlt_Qlt 0) in Hpos. lia.
Qed.

Lemma machines_needed_bound l :
  Forall (fun n => (0 < quantity n)%Qc) l →
  (Z.of_nat (length l) ≤ machines_needed l)%Z.
Proof.
  induction 1 as [|n l Hn _ IH]; simpl; [done|].
  apply ceil_positive in Hn. lia.
Qed.

Lemma machines_needed_unit l :
  Forall (fun n => quantity n = 1%Qc) l →
  machines_needed l = Z.of_nat (length l).
Proof.
  induction 1 as [|n l Hn _ IH]; simpl; [done|].
  rewrite Hn, IH. change (ceil 1) with 1%Z. lia.
Qed.

Lemma tally_lookup f m :
  tally_machines f !! m
  = if decide (on_machine m (preorder (f_map f)) = []) then None
    else Some (machines_needed (on_machine m (preorder (f_map f)))).
Proof.
  unfold tally_machines. rewrite tally_preorder, lookup_count_nodes.
  case_decide; [done|]. rewrite lookup_empty. simpl. f_equal.
Qed.

(** X15.  When every quantity in the tree is strictly positive, each count
    of [tally_machines] is at least the number of nodes on that machine (a
    node never needs less than one machine); when every quantity is 1, as
    after [build] on a fresh root, each count is that number. *)
Theorem tally_machines_counts_nodes (f : Factory) (m : string) :
  (Forall (fun n => (0 < quantity n)%Qc) (preorder (f_map f)) →
   ∀ c, tally_machines f !! m = Some c →
        (Z.of_nat (length (on_machine m (preorder (f_map f)))) ≤ c)%Z)
  ∧ (Forall (fun n => quantity n = 1%Qc) (preorder (f_map f)) →
     ∀ c, tally_machines f !! m = Some c →
          c = Z.of_nat (length (on_machine m (preorder (f_map f))))).
Proof.
  rewrite tally_lookup. unfold on_machine.
  split; intros Hall c; case_decide; intros [= <-].
  - apply machines_needed_bound.
    apply Forall_forall. intros n [_ Hn]%list_elem_of_filter.
    by apply (proj1 (Forall_forall _ _) Hall).
  - apply machines_needed_unit.
    apply Forall_forall. intros n [_ Hn]%list_elem_of_filter.
    by apply (proj1 (Forall_forall _ _) Hall).
Qed.

Lemma tally_machines_counts_nodes_witness :
  (Z.of_nat (length (on_machine "Smelter"
                       (preorder (f_map scaled_widget_factory)))) ≤ 2)%Z
  ∧ 1%Z = Z.of_nat (length (on_machine "Smelter"
                              (preorder (f_map widget_factory)))).
Proof.
  split.
  - apply (proj1 (tally_machines_counts_nodes scaled_widget_factory
                    "Smelter")).
    + vm_compute. repeat constructor.
    + vm_compute. reflexivity.
  - apply (proj2 (tally_machines_counts_nodes widget_factory "Smelter")).
    + vm_compute. repeat constructor.
    + vm_compute. reflexivity.
Defined.

(** ** What build makes *)

Import Built Shipped.

Lemma involves_product_name part r :
  involves by_product part r → product_name r = Some part.
Proof.
  unfold involves, product_name. destruct (outputs r) as [|p ps]; simpl.
  - by intros ?%elem_of_nil.
  - by intros ->%list_elem_of_singleton.
Qed.

Lemma product_name_has r g : product_name r = Some g → has_product r.
Proof. unfold product_name, has_product. by destruct (outputs r). Qed.

(** What [get_recipes_by_part] returns to [build]: recipes of the catalogue,
    not excluded, whose primary product is the good asked for. *)
Lemma build_options registry part exclude options r :
  get_recipes_by_part registry part by_product (Some exclude) = Ok options →
  r ∈ options →
  r ∈ registry ∧ (machine r ∉ exclude) ∧ product_name r = Some part.
Proof.
  unfold get_recipes_by_part. simpl.
  intros (sel & -> & Hsub & Hall)%get_recipes_loop_selects Hr. simpl in Hr.
  pose proof (proj1 (Forall_forall _ _) Hall r Hr) as [Hex Hinv].
  split; [by eapply elem_of_sublist|]. split; [done|].
  by apply involves_product_name.
Qed.

Section BuiltRun.
Variables (registry : list Recipe) (fitness_func : Policy)
          (exclude_machines : gset string) (products : ref).

Local Abbreviation build_node fuel node depth :=
  (_build_factory fuel registry fitness_func exclude_machines products
     node depth).

(** The root of what [_build_factory] returns is the node it was given,
    children apart. *)
Lemma build_factory_root fuel node depth σ σ' t :
  build_node fuel node depth σ = (σ', Returned t) →
  recipe t = recipe node ∧ quantity t = quantity node.
Proof.
  destruct fuel as [|fuel]; [done|].
  rewrite build_factory_step. case_decide.
  { by intros [= <- <-]. }
  destruct (product (recipe node)) as [p|]; [|done]. case_decide.
  { by intros [= <- <-]. }
  destruct (build_inputs _ _ _ _ _ _ _) as [σ1 [kids| |]]; [|done..].
  by intros [= <- <-].
Qed.

(** Every node [_build_factory] adds has quantity 1, whatever the policy. *)
Lemma build_factory_unit fuel node depth σ σ' t :
  is_leaf node →
  build_node fuel node depth σ = (σ', Returned t) →
  Forall (fun m => quantity m = 1%Qc) (descendants t).
Proof.
  revert node depth σ σ' t.
  induction fuel as [|fuel IH]; intros node depth σ σ' t Hleaf; [done|].
  unfold descendants. rewrite build_factory_step. case_decide.
  { intros [= <- <-]. by rewrite Hleaf. }
  destruct (product (recipe node)) as [p|]; [|done]. case_decide.
  { intros [= <- <-]. by rewrite Hleaf. }
  destruct (build_inputs _ _ _ _ _ _ _) as [σ1 [kids| |]] eqn:E; [|done..].
  intros [= <- <-]. apply build_inputs_appended in E as (news & -> & Hnews).
  rewrite Hleaf. simpl. apply Forall_flat_map.
  eapply appended_Forall; [|exact Hnews]. simpl.
  intros r σ0 σ2 c Hc. destruct c as [cr cq ccs]. simpl.
  apply build_factory_root in Hc as Hroot. destruct Hroot as [_ Hq].
  apply IH in Hc; [|done]. simpl in *. by constructor.
Qed.

Hypothesis policy_chooses : chooses_candidate fitness_func.

(** The children the loop appends: one for each input some recipe makes, in
    the order of the inputs. *)
Lemma build_inputs_made (P : Node → Prop) expand ins kids σ σ' kids' :
  (∀ r σ0 σ1 c, expand (new_node r) σ0 = (σ1, Returned c) →
                recipe c = r ∧ P c) →
  build_inputs registry fitness_func exclude_machines expand ins kids σ
  = (σ', Returned kids') →
  ∃ news, kids' = kids ++ news
          ∧ Forall P news
          ∧ Forall (fun c => recipe c ∈ registry
                             ∧ (machine (recipe c) ∉ exclude_machines)) news
          ∧ Forall (fun c => has_product (recipe c)) news
          ∧ sublist (child_goods news) (ing_name <$> ins).
Proof.
  intros Hexp. revert kids σ.
  induction ins as [|input rest IH]; intros kids σ; simpl.
  { intros [= <- <-]. exists []. rewrite app_nil_r.
    repeat split; constructor. }
  unfold bind, lift.
  destruct (get_recipes_by_part _ _ _ _) as [[|o options]|e] eqn:Eo; simpl;
    [| |done].
  { intros (news & -> & ? & ? & ? & ?)%IH. exists news.
    repeat split; [done..|]. by apply sublist_cons. }
  destruct (fitness_func (o :: options)) as [chosen|e] eqn:Ec; simpl; [|done].
  apply policy_chooses in Ec.
  destruct (build_options _ _ _ _ _ Eo Ec) as (Hreg & Hex & Hname).
  destruct (expand (new_node chosen) σ) as [σ1 [c|e|]] eqn:E; [|done..].
  apply Hexp in E as [Hc HP].
  intros (news & -> & ? & ? & ? & ?)%IH. exists (c :: news).
  split; [by rewrite <- app_assoc|].
  split; [by constructor|].
  split; [constructor; [by rewrite Hc|done]|].
  split; [constructor; [rewrite Hc; by eapply product_name_has|done]|].
  unfold child_goods. simpl. rewrite Hc, Hname. simpl. by apply sublist_skip.
Qed.

Lemma children_made r news :
  Forall (fun c => recipe c ∈ registry
                   ∧ (machine (recipe c) ∉ exclude_machines)) news →
  Forall (fun c => has_product (recipe c)) news →
  sublist (child_goods news) (ing_name <$> inputs r) →
  Forall (made_for registry exclude_machines r) news.
Proof.
  intros Hreg Hprod Hsub. apply Forall_forall. intros c Hc.
  destruct (proj1 (Forall_forall _ _) Hreg c Hc) as [??].
  pose proof (proj1 (Forall_forall _ _) Hprod c Hc) as [p Hp]%has_product_Ok.
  repeat split; [done..|]. exists p. split; [done|].
  eapply elem_of_sublist; [|exact Hsub].
  unfold child_goods. apply list_elem_of_omap. exists c. split; [done|].
  by apply product_name_Ok.
Qed.

Lemma build_factory_as_built fuel node depth σ σ' t :
  is_leaf node →
  build_node fuel node depth σ = (σ', Returned t) →
  as_built registry exclude_machines t.
Proof.
  revert node depth σ σ' t.
  induction fuel as [|fuel IH]; intros node depth σ σ' t Hleaf; [done|].
  assert (as_built registry exclude_machines node) as Hnode.
  { destruct node as [r q cs]. unfold is_leaf in Hleaf. simpl in Hleaf.
    subst cs.
    constructor; [constructor|apply sublist_nil_l|constructor]. }
  rewrite build_factory_step. case_decide.
  { by intros [= <- <-]. }
  destruct (product (recipe node)) as [p|]; [|done]. case_decide.
  { by intros [= <- <-]. }
  destruct (build_inputs _ _ _ _ _ _ _) as [σ1 [kids| |]] eqn:E; [|done..].
  intros [= <- <-].
  apply (build_inputs_made (as_built registry exclude_machines)) in E
    as (news & -> & Hbuilt & Hreg & Hprod & Hsub).
  - rewrite Hleaf. simpl. constructor; [|done..].
    by apply children_made.
  - intros r σ0 σ2 c Hc. split.
    + by apply build_factory_root in Hc as [? _].
    + by eapply (IH (new_node r)).
Qed.

End BuiltRun.

Lemma as_built_inv registry exclude r q cs :
  as_built registry exclude (mkNode r q cs) →
  Forall (made_for registry exclude r) cs
  ∧ sublist (child_goods cs) (ing_name <$> inputs r)
  ∧ Forall (as_built registry exclude) cs.
Proof. by inversion 1. Qed.

Lemma as_built_linked registry exclude n :
  as_built registry exclude n → linked n.
Proof.
  induction n as [r q cs IH] using Node_tree_ind.
  intros (Hmade & _ & Hcs)%as_built_inv. constructor.
  - eapply Forall_impl; [exact Hmade|]. by intros c (_ & _ & ?).
  - apply Forall_forall. intros c Hc.
    apply (proj1 (Forall_forall _ _) IH c Hc).
    by apply (proj1 (Forall_forall _ _) Hcs).
Qed.

Lemma as_built_descendants registry exclude n :
  as_built registry exclude n →
  Forall (fun m => recipe m ∈ registry ∧ (machine (recipe m) ∉ exclude)
                   ∧ has_product (recipe m)) (descendants n).
Proof.
  induction n as [r q cs IH] using Node_tree_ind.
  intros (Hmade & _ & Hcs)%as_built_inv.
  unfold descendants. simpl. apply Forall_flat_map, Forall_forall.
  intros c Hc. destruct c as [cr cq ccs] eqn:Ec. simpl. constructor.
  - destruct (proj1 (Forall_forall _ _) Hmade _ Hc)
      as (? & ? & p & Hp & _). simpl in *.
    repeat split; [done..|]. by eapply product_Ok_has.
  - apply (proj1 (Forall_forall _ _) IH _ Hc).
    by apply (proj1 (Forall_forall _ _) Hcs).
Qed.

Lemma child_goods_length cs :
  Forall (fun c => has_product (recipe c)) cs →
  length (child_goods cs) = length cs.
Proof.
  unfold child_goods. induction 1 as [|c cs Hc _ IH]; [done|].
  cbn [omap list_omap]. unfold product_name at 1. unfold has_product in Hc.
  destruct (outputs (recipe c)); [done|]. simpl. by f_equal.
Qed.

Lemma as_built_children registry exclude n :
  as_built registry exclude n →
  Forall (fun m => sublist (child_goods (children m))
                     (ing_name <$> inputs (recipe m))
                   ∧ length (child_goods (children m))
                     = length (children m)) (preorder n).
Proof.
  induction n as [r q cs IH] using Node_tree_ind.
  intros (Hmade & Hsub & Hcs)%as_built_inv. simpl. constructor.
  - split; [done|]. apply child_goods_length.
    eapply Forall_impl; [exact Hmade|].
    intros c (_ & _ & p & Hp & _). by eapply product_Ok_has.
  - apply Forall_flat_map, Forall_forall. intros c Hc.
    apply (proj1 (Forall_forall _ _) IH _ Hc).
    by apply (proj1 (Forall_forall _ _) Hcs).
Qed.

(** X16.  [build] keeps the root's recipe and quantity, the catalogue and
    what is above the root, and replaces the root's children: every node
    below the root of the result has quantity 1, whatever the policy. *)
Theorem build_adds_unit_nodes
    (fuel : nat) (f : Factory) (policy : option Policy)
    (exclude_machines : option (gset string)) (seeds : option ref)
    (depth : Z) (σ σ' : store) (f' : Factory) :
  build fuel f policy exclude_machines seeds depth σ = (σ', Returned f') →
  f_registry f' = f_registry f ∧ f_above f' = f_above f
  ∧ recipe (f_map f') = recipe (f_map f)
  ∧ quantity (f_map f') = quantity (f_map f)
  ∧ Forall (fun m => quantity m = 1%Qc) (descendants (f_map f')).
Proof.
  intros (σ0 & products & _ & Hrun & ->)%build_inv. simpl in *.
  apply build_factory_root in Hrun as Hroot. destruct Hroot as [Hr Hq].
  repeat split; [done..|].
  eapply build_factory_unit; [|exact Hrun]. reflexivity.
Qed.

Lemma build_adds_unit_nodes_witness :
  quantity gadget_tree = quantity (f_map gadget_factory)
  ∧ Forall (fun m => quantity m = 1%Qc) (descendants gadget_tree).
Proof.
  assert (build 5 gadget_factory None None None unlimited ∅
          = ((build 5 gadget_factory None None None unlimited ∅).1,
             Returned (mkFactory gadget_catalogue [] gadget_tree))) as H.
  { vm_compute. reflexivity. }
  destruct (build_adds_unit_nodes _ _ _ _ _ _ _ _ _ H)
    as (_ & _ & _ & Hq & Hunit).
  split; [exact Hq | exact Hunit].
Defined.

(** X17.  With a policy that picks one of its candidates, every node below
    the root of what [build] returns has a recipe of the catalogue, on a
    machine that is not excluded, and makes, as its primary product, an
    input of its parent. *)
Theorem build_children_supply_inputs
    (fuel : nat) (f : Factory) (policy : option Policy)
    (exclude_machines : option (gset string)) (seeds : option ref)
    (depth : Z) (σ σ' : store) (f' : Factory) :
  chooses_candidate (default simplest_recipe policy) →
  build fuel f policy exclude_machines seeds depth σ = (σ', Returned f') →
  linked (f_map f')
  ∧ Forall (fun m => recipe m ∈ f_registry f
                     ∧ (machine (recipe m)
                        ∉ default default_exclude exclude_machines)
                     ∧ has_product (recipe m))
      (descendants (f_map f')).
Proof.
  intros Hpol (σ0 & products & _ & Hrun & ->)%build_inv. simpl in *.
  apply build_factory_as_built in Hrun; [|done..].
  split; [by eapply as_built_linked | by apply as_built_descendants].
Qed.

Lemma build_children_supply_inputs_witness :
  linked gadget_tree
  ∧ Forall (fun m => recipe m ∈ gadget_catalogue
                     ∧ (machine (recipe m) ∉ default_exclude)
                     ∧ has_product (recipe m))
      (descendants gadget_tree).
Proof.
  assert (build 5 gadget_factory None None None unlimited ∅
          = ((build 5 gadget_factory None None None unlimited ∅).1,
             Returned (mkFactory gadget_catalogue [] gadget_tree))) as H.
  { vm_compute. reflexivity. }
  exact (build_children_supply_inputs 5 gadget_factory None None None
           unlimited ∅ _ _ simplest_recipe_chooses H).
Defined.

(** X18.  With a policy that picks one of its candidates, the goods the
    children of a node make are inputs of the node, in the order of the
    inputs and one child at most for each input; so no node has more
    children than its recipe has inputs. *)
Theorem build_children_follow_inputs
    (fuel : nat) (f : Factory) (policy : option Policy)
    (exclude_machines : option (gset string)) (seeds : option ref)
    (depth : Z) (σ σ' : store) (f' : Factory) :
  chooses_candidate (default simplest_recipe policy) →
  build fuel f policy exclude_machines seeds depth σ = (σ', Returned f') →
  Forall (fun m => sublist (child_goods (children m))
                     (ing_name <$> inputs (recipe m))
                   ∧ length (child_goods (children m))
                     = length (children m)
                   ∧ (length (children m)
                      ≤ length (inputs (recipe m)))%nat)
    (preorder (f_map f')).
Proof.
  intros Hpol (σ0 & products & _ & Hrun & ->)%build_inv. simpl in *.
  apply build_factory_as_built in Hrun; [|done..].
  eapply Forall_impl; [by eapply as_built_children|]. simpl.
  intros m [Hs Hlen]. split; [done|]. split; [done|].
  rewrite <- Hlen. apply sublist_length in Hs. by rewrite length_fmap in Hs.
Qed.

Lemma build_children_follow_inputs_witness :
  Forall (fun m => sublist (child_goods (children m))
                     (ing_name <$> inputs (recipe m))
                   ∧ length (child_goods (children m))
                     = length (children m)
                   ∧ (length (children m)
                      ≤ length (inputs (recipe m)))%nat)
    (preorder gadget_tree).
Proof.
  assert (build 5 gadget_factory None None None unlimited ∅
          = ((build 5 gadget_factory None None None unlimited ∅).1,
             Returned (mkFactory gadget_catalogue [] gadget_tree))) as H.
  { vm_compute. reflexivity. }
  exact (build_children_follow_inputs 5 gadget_factory None None None
           unlimited ∅ _ _ simplest_recipe_chooses H).
Defined.

(** ** build returns *)

Lemma shipped_chooses policy : shipped policy → chooses_candidate policy.
Proof.
  intros [->|[->|[names ->]]].
  - apply simplest_recipe_chooses.
  - apply max_output_chooses.
  - apply preferred_names_chooses.
Qed.

Lemma max_output_returns options :
  options ≠ [] → Forall has_product options →
  ∃ r, max_output options = Ok r.
Proof.
  intros Hne Hall.
  destruct (max_output options) as [r|e] eqn:E; [eauto|].
  apply (py_extremum_raises _ _ IndexError) in E as [_ Hex]; [|  |done].
  - apply Exists_exists in Hex as (x & Hx & [_ Hout]%product_quantity_raises).
    by pose proof (proj1 (Forall_forall _ _) Hall x Hx).
  - by intros x e' [-> _]%product_quantity_raises.
Qed.

(** On candidates that all have a primary product, and at least one
    candidate, the policies of the module return. *)
Lemma shipped_returns policy options :
  shipped policy → options ≠ [] → Forall has_product options →
  ∃ r, policy options = Ok r.
Proof.
  intros [->|[->|[names ->]]] Hne Hall.
  - destruct (simplest_recipe options) as [r|e] eqn:E; [eauto|].
    apply (py_extremum_raises _ _ IndexError) in E as [_ Hex]; [|done..].
    by apply Exists_exists in Hex as (x & _ & ?).
  - by apply max_output_returns.
  - unfold preferred_names.
    destruct (filter _ options) as [|a allowed] eqn:E.
    + by apply max_output_returns.
    + apply max_output_returns; [done|]. rewrite <- E.
      apply Forall_forall. intros x [_ Hx]%list_elem_of_filter.
      by apply (proj1 (Forall_forall _ _) Hall).
Qed.

Lemma readable_query registry exclude part e :
  readable registry exclude →
  get_recipes_by_part registry part by_product (Some exclude) ≠ Raise e.
Proof.
  unfold get_recipes_by_part. simpl.
  intros Hread (_ & _ & Hex)%get_recipes_loop_raises.
  apply Exists_exists in Hex as (r & Hr & Hout & Hnone).
  by destruct (proj1 (Forall_forall _ _) Hread r Hr).
Qed.

Section BuildReturns.
Variables (registry : list Recipe) (fitness_func : Policy)
          (exclude_machines : gset string) (products : ref).
Hypothesis policy_shipped : shipped fitness_func.
Hypothesis catalogue_readable : readable registry exclude_machines.

Local Abbreviation build_node fuel node depth :=
  (_build_factory fuel registry fitness_func exclude_machines products
     node depth).

Lemma build_inputs_no_raise expand ins kids σ e :
  (∀ n σ0, has_product (recipe n) → (expand n σ0).2 ≠ Raised e) →
  (build_inputs registry fitness_func exclude_machines expand ins kids σ).2
  ≠ Raised e.
Proof.
  intros Hexp. revert kids σ.
  induction ins as [|input rest IH]; intros kids σ; simpl; [done|].
  unfold bind, lift.
  destruct (get_recipes_by_part _ _ _ _) as [[|o options]|e'] eqn:Eo; simpl;
    [apply IH| |by apply readable_query in Eo].
  assert (Forall has_product (o :: options)) as Hall.
  { apply Forall_forall. intros r Hr.
    destruct (build_options _ _ _ _ _ Eo Hr) as (_ & _ & Hn).
    by eapply product_name_has. }
  destruct (shipped_returns fitness_func (o :: options))
    as [chosen Ec]; [done..|].
  rewrite Ec. simpl.
  assert (has_product chosen) as Hc.
  { apply (proj1 (Forall_forall _ _) Hall).
    by apply (shipped_chooses _ policy_shipped) in Ec. }
  pose proof (Hexp (new_node chosen) σ Hc) as H.
  destruct (expand (new_node chosen) σ) as [σ1 [c|e'|]]; simpl in *.
  - apply IH.
  - intros [= ->]. by apply H.
  - done.
Qed.

(** No call on a node that has a primary product raises. *)
Lemma build_node_no_raise fuel node depth σ e :
  has_product (recipe node) →
  (build_node fuel node depth σ).2 ≠ Raised e.
Proof.
  revert node depth σ.
  induction fuel as [|fuel IH]; intros node depth σ Hp; [done|].
  rewrite build_factory_step. case_decide; [done|].
  destruct (has_product_Ok _ Hp) as [p ->]. case_decide; [done|].
  match goal with
  | |- context [build_inputs ?a ?b ?c ?x ?i ?k ?s] =>
      pose proof (build_inputs_no_raise x i k s e) as Hloop;
      destruct (build_inputs a b c x i k s) as [σ1 [kids|e'|]]
  end; simpl in *; [done| |done].
  intros [= ->]. apply Hloop; [|done]. intros n σ0 Hn. by apply IH.
Qed.

End BuildReturns.

(** X19.  With a policy of the module ([simplest_recipe], the default,
    [max_output] or [preferred_names]), [build] ends, by returning or by
    raising, within [len(registry) + 2] levels of recursion, whatever the
    catalogue (recipes may feed one another in a cycle) and the depth; the
    result is the same at any greater bound. *)
Theorem build_ends_with_module_policies
    (fuel : nat) (f : Factory) (policy : option Policy)
    (exclude_machines : option (gset string)) (seeds : option ref)
    (depth : Z) (σ : store) :
  shipped (default simplest_recipe policy) →
  (length (f_registry f) + 2 ≤ fuel)%nat →
  (build fuel f policy exclude_machines seeds depth σ).2 ≠ OutOfFuel
  ∧ ∀ fuel', (fuel ≤ fuel')%nat →
             build fuel' f policy exclude_machines seeds depth σ
             = build fuel f policy exclude_machines seeds depth σ.
Proof.
  intros Hpol%shipped_chooses Hfuel.
  pose proof (build_terminates fuel f policy exclude_machines seeds depth σ
                Hpol Hfuel) as Hends.
  split; [done|]. intros fuel' Hle. by apply build_more_fuel.
Qed.

Lemma build_ends_with_module_policies_witness :
  (build 3 loop_factory (Some max_output) None None unlimited ∅).2
  ≠ OutOfFuel
  ∧ build 10 loop_factory (Some max_output) None None unlimited ∅
    = build 3 loop_factory (Some max_output) None None unlimited ∅.
Proof.
  destruct (build_ends_with_module_policies 3 loop_factory (Some max_output)
              None None unlimited ∅) as [H1 H2].
  - right. by left.
  - simpl. lia.
  - split; [exact H1|]. apply H2. lia.
Defined.

(** X20.  When the root's recipe and every recipe of the catalogue that is
    not on an excluded machine have a primary product, [build] with a policy
    of the module returns: nothing is raised. *)
Theorem build_returns_on_readable_catalogue
    (fuel : nat) (f : Factory) (policy : option Policy)
    (exclude_machines : option (gset string)) (seeds : option ref)
    (depth : Z) (σ : store) :
  shipped (default simplest_recipe policy) →
  readable (f_registry f) (default default_exclude exclude_machines) →
  has_product (recipe (f_map f)) →
  (length (f_registry f) + 2 ≤ fuel)%nat →
  ∃ σ' f', build fuel f policy exclude_machines seeds depth σ
           = (σ', Returned f').
Proof.
  intros Hpol Hread Hroot Hfuel.
  pose proof (build_terminates fuel f policy exclude_machines seeds depth σ
                (shipped_chooses _ Hpol) Hfuel) as Hends.
  revert Hends. rewrite build_run.
  destruct (choose_products seeds σ) as [σ0 products]. cbn iota.
  pose proof (fun e => build_node_no_raise (f_registry f) _ _ products
                         Hpol Hread fuel (pruned f) depth σ0 e Hroot) as Hno.
  destruct (_build_factory _ _ _ _ _ _ _ _) as [σ1 [t|e|]]; simpl in *.
  - eauto.
  - by destruct (Hno e).
  - done.
Qed.

Lemma build_returns_on_readable_catalogue_witness :
  ∃ σ' f', build 3 loop_factory None None None unlimited ∅
           = (σ', Returned f').
Proof.
  apply (build_returns_on_readable_catalogue 3 loop_factory None None None
           unlimited ∅).
  - by left.
  - constructor; [by right | constructor].
  - done.
  - simpl. lia.
Defined.

(** X21.  On a root whose recipe has no output, [build] raises [IndexError]
    unless [max_depth] is 0: the root's product is read before any recipe is
    looked up, whatever the catalogue, the policy and the seed set. *)
Theorem build_root_without_product
    (fuel : nat) (f : Factory) (policy : option Policy)
    (exclude_machines : option (gset string)) (seeds : option ref)
    (depth : Z) (σ : store) :
  outputs (recipe (f_map f)) = [] → depth ≠ 0%Z →
  (build (S fuel) f policy exclude_machines seeds depth σ).2
  = Raised IndexError.
Proof.
  intros Hout Hd. rewrite build_run.
  destruct (choose_products seeds σ) as [σ0 products]. cbn iota.
  rewrite build_factory_step, decide_False by done.
  unfold pruned, product. simpl. by rewrite Hout.
Qed.

Lemma build_root_without_product_witness :
  (build 1 (Factory_of_recipe [] unfinished) None None None unlimited ∅).2
  = Raised IndexError.
Proof.
  apply (build_root_without_product 0 (Factory_of_recipe [] unfinished)).
  - reflexivity.
  - done.
Defined.

(** ** build, then scale *)

Lemma rates_of_nodes n :
  Forall (fun m => positive_rates (recipe m)) (preorder n) →
  tree_rates_positive n.
Proof.
  induction n as [r q cs IH] using Node_tree_ind. simpl.
  intros [Hr Hcs]%Forall_cons_1. constructor; [done|].
  pose proof (proj1 (Forall_flat_map _ preorder cs) Hcs) as Hall.
  apply Forall_forall. intros c Hc.
  apply (proj1 (Forall_forall _ _) IH c Hc).
  by apply (proj1 (Forall_forall _ _) Hall).
Qed.

Lemma linked_replace ctx n n' :
  recipe n' = recipe n → linked (plug ctx n) → linked n' →
  linked (plug ctx n').
Proof.
  revert n n'. induction ctx as [|fr up IH]; intros n n' Hr; simpl; [done|].
  intros H Hn'. apply (IH (plug1 fr n)); [done..|].
  apply linked_plug in H. unfold plug1 in *.
  apply linked_inv in H as [Hs Hl]. constructor.
  - apply Forall_app in Hs as [Hs1 [Hs2 Hs3]%Forall_cons_1].
    apply Forall_app. split; [done|]. constructor; [|done].
    unfold supplies in *. by rewrite Hr.
  - apply Forall_app in Hl as [Hl1 [_ Hl3]%Forall_cons_1].
    apply Forall_app. split; [done|]. by constructor.
Qed.

Lemma rates_replace ctx n n' :
  tree_rates_positive (plug ctx n) → tree_rates_positive n' →
  tree_rates_positive (plug ctx n').
Proof.
  revert n n'. induction ctx as [|fr up IH]; intros n n'; simpl; [done|].
  intros H Hn'. apply (IH (plug1 fr n)); [done|].
  apply rates_plug in H. unfold plug1 in *.
  inversion H as [? ? ? Hr Hcs]; subst. constructor; [done|].
  apply Forall_app in Hcs as [Hl [_ Hrt]%Forall_cons_1].
  apply Forall_app. split; [done|]. by constructor.
Qed.

(** X22.  A factory built and then scaled, be it [Factory(registry, recipe)]
    or a factory on a node of another tree: when the root's recipe has a
    product, the rates of the catalogue and of the tree around the root are
    strictly positive and, above the root, every node makes an input of its
    parent, [scale] on any good made in the built tree returns, for any
    target, and leaves a tree in which, along every edge, one of the two
    quantities is the float computed from the other. *)
Theorem build_then_scale
    (fuel : nat) (f : Factory) (policy : option Policy)
    (exclude_machines : option (gset string)) (seeds : option ref)
    (depth : Z) (σ σ' : store) (f' : Factory) (g : string) (target : Qc) :
  chooses_candidate (default simplest_recipe policy) →
  has_product (recipe (f_map f)) →
  linked (plug (f_above f) (pruned f)) →
  tree_rates_positive (plug (f_above f) (pruned f)) →
  Forall positive_rates (f_registry f) →
  build fuel f policy exclude_machines seeds depth σ = (σ', Returned f') →
  Exists (produces g) (preorder (f_map f')) →
  ∃ f'', scale f' g target = (f'', Ok tt) ∧ computed (whole f'').
Proof.
  intros Hpol Hroot Habove Hrates Hcat Hbuild Hg.
  apply build_inv in Hbuild as (σ0 & products & _ & Hrun & Hf').
  apply build_factory_root in Hrun as Hsame. destruct Hsame as [Hr _].
  apply build_factory_as_built in Hrun; [|done..].
  pose proof (as_built_linked _ _ _ Hrun) as Hl.
  pose proof (as_built_descendants _ _ _ Hrun) as Hd.
  assert (whole f' = plug (f_above f) (f_map f')) as Hw by by rewrite Hf'.
  assert (preorder (f_map f') = f_map f' :: descendants (f_map f')) as Hpre
    by by destruct (f_map f').
  destruct (scale_succeeds f' g target) as [f'' Hs]; [| | |done|].
  - rewrite Hw. by eapply linked_replace.
  - rewrite Hw. eapply rates_replace; [exact Hrates|].
    apply rates_of_nodes. rewrite Hpre. constructor.
    + rewrite Hr. apply rates_plug in Hrates. by inversion Hrates.
    + eapply Forall_impl; [exact Hd|]. intros m (Hm & _ & _).
      by apply (proj1 (Forall_forall _ _) Hcat).
  - unfold nodes_have_product. rewrite Hpre. constructor.
    + by rewrite Hr.
    + eapply Forall_impl; [exact Hd|]. by intros m (_ & _ & ?).
  - exists f''. split; [done|]. by eapply scale_computed.
Qed.

Lemma build_then_scale_witness :
  ∃ f'', scale (mkFactory gadget_catalogue [] gadget_tree) "Bar" (qz 90)
         = (f'', Ok tt) ∧ computed (whole f'').
Proof.
  assert (build 5 gadget_factory None None None unlimited ∅
          = ((build 5 gadget_factory None None None unlimited ∅).1,
             Returned (mkFactory gadget_catalogue [] gadget_tree))) as H.
  { vm_compute. reflexivity. }
  apply (build_then_scale 5 gadget_factory None None None unlimited ∅
           (build 5 gadget_factory None None None unlimited ∅).1
           (mkFactory gadget_catalogue [] gadget_tree)
           "Bar" (qz 90) simplest_recipe_chooses); [| | | |exact H|].
  - done.
  - repeat constructor.
  - repeat constructor.
  - repeat constructor.
  - simpl. apply Exists_cons_tl, Exists_cons_tl, Exists_cons_hd.
    reflexivity.
Defined.

(** ** Printing *)

Import Printed.

Lemma string_app_assoc (a b c : string) : a +:+ b +:+ c = (a +:+ b) +:+ c.
Proof.
  induction a as [|x a IH]; [done|].
  change (String x (a +:+ b +:+ c) = String x ((a +:+ b) +:+ c)).
  by rewrite IH.
Qed.

Lemma nodes_have_product_node r q cs :
  nodes_have_product (mkNode r q cs)
  ↔ has_product r ∧ Forall nodes_have_product cs.
Proof.
  unfold nodes_have_product. simpl. by rewrite Forall_cons, Forall_flat_map.
Qed.

Section PrintingFacts.
Variable fmt : Qc → string.

Lemma node_data_raises m e :
  node_data fmt m = Raise e ↔ e = IndexError ∧ ¬ has_product (recipe m).
Proof.
  unfold node_data, product, has_product.
  destruct (outputs (recipe m)); simpl; naive_solver.
Qed.

Lemma print_children_run print cs :
  Forall (fun c => ∀ lines last, printed fmt c lines (print c lines last))
    cs →
  ∀ lines,
    ∃ new, (print_children print cs lines).1 = lines ++ new
           ∧ match (print_children print cs lines).2 with
             | Ok _ => Forall2 (line_of fmt) new (flat_map preorder cs)
             | Raise e =>
                 e = IndexError ∧ ¬ Forall nodes_have_product cs
                 ∧ (length new < length (flat_map preorder cs))%nat
             end.
Proof.
  induction 1 as [|c cs Hc _ IH]; intros lines; simpl.
  { exists []. by rewrite app_nil_r. }
  destruct (Hc lines (match cs with [] => true | _ => false end))
    as (new1 & H1 & H2).
  destruct (print c lines _) as [lines1 [[]|e]]; simpl in *; subst lines1.
  - destruct (IH (lines ++ new1)) as (new2 & H3 & H4).
    exists (new1 ++ new2). rewrite H3, app_assoc. split; [done|].
    destruct (print_children _ _ _).2 as [[]|e].
    + by apply Forall2_app.
    + destruct H4 as (-> & Hno & Hlen). split; [done|]. split.
      * by intros [_ ?]%Forall_cons_1.
      * apply Forall2_length in H2. rewrite !length_app. lia.
  - destruct H2 as (-> & Hno & Hlen). exists new1. split; [done|].
    split; [done|]. split.
    + by intros [? _]%Forall_cons_1.
    + rewrite length_app. lia.
Qed.

Lemma print_tree_run node :
  ∀ header lines last,
    printed fmt node lines (print_tree fmt node header lines last).
Proof.
  induction node as [r q cs IH] using Node_tree_ind.
  intros header lines last. unfold printed. cbn [print_tree].
  destruct (node_data fmt (mkNode r q cs)) as [data|e] eqn:Ed.
  - set (line := match lines with
                 | [] => data
                 | _ => header +:+ (if last then ELBOW else TEE) +:+ data
                 end).
    assert (line_of fmt line (mkNode r q cs)) as Hline.
    { unfold line. destruct lines.
      - by exists "", data.
      - exists (header +:+ (if last then ELBOW else TEE)), data.
        split; [done|]. apply string_app_assoc. }
    assert (match lines with
            | [] => lines ++ [data]
            | _ => lines ++ [header +:+ (if last then ELBOW else TEE)
                             +:+ data]
            end = lines ++ [line]) as ->.
    { unfold line. by destruct lines. }
    destruct (print_children_run
                (fun child =>
                   print_tree fmt child
                     (header +:+ (if last then BLANK else PIPE)))
                cs) with (lines := lines ++ [line]) as (new & H1 & H2).
    { eapply Forall_impl; [exact IH|]. intros c Hc ls lst. apply Hc. }
    exists (line :: new). rewrite H1, <- app_assoc. split; [done|].
    destruct (print_children _ _ _).2 as [[]|e].
    + simpl. by constructor.
    + destruct H2 as (-> & Hno & Hlen). split; [done|]. split.
      * by intros [_ ?]%nodes_have_product_node.
      * simpl. lia.
  - apply node_data_raises in Ed as [-> Hno]. exists []. simpl.
    rewrite app_nil_r. split; [done|]. split; [done|]. split; [|lia].
    by intros [? _]%nodes_have_product_node.
Qed.

Lemma printed_products new node :
  Forall2 (line_of fmt) new (preorder node) → nodes_have_product node.
Proof.
  unfold nodes_have_product. generalize (preorder node) as l. intros l H.
  induction H as [|line m new l (prefix & data & Hd & _) _ IH];
    constructor; [|done].
  unfold node_data in Hd.
  destruct (product (recipe m)) as [p|] eqn:Hp; [|done].
  by eapply product_Ok_has.
Qed.

End PrintingFacts.

(** X23.  [print_tree] appends to [lines] and never removes a line; when it
    returns it has appended one line for each node of the tree, in
    pre-order, each ending with the node's data; when it raises, it raises
    [IndexError], some recipe of the tree has no output, and the lines
    appended so far, fewer than there are nodes, stay in the list. *)
Theorem print_tree_appends_a_line_per_node
    (fmt : Qc → string) (node : Node) (header : string)
    (lines : list string) (last : bool) :
  ∃ new,
    (print_tree fmt node header lines last).1 = lines ++ new
    ∧ match (print_tree fmt node header lines last).2 with
      | Ok _ => Forall2 (line_of fmt) new (preorder node)
      | Raise e =>
          e = IndexError ∧ ¬ nodes_have_product node
          ∧ (length new < length (preorder node))%nat
      end.
Proof. apply print_tree_run. Qed.

(** X24.  [str(factory)] raises [IndexError] exactly when some node of the
    tree has a recipe with no output; otherwise it is the lines of the
    nodes, in pre-order, joined by newlines, and the first line is the
    root's data with nothing before it. *)
Theorem Factory_str_outcomes (fmt : Qc → string) (f : Factory) :
  (¬ nodes_have_product (f_map f) → Factory_str fmt f = Raise IndexError)
  ∧ (nodes_have_product (f_map f) →
     ∃ data rest,
       node_data fmt (f_map f) = Ok data
       ∧ Factory_str fmt f = Ok (String.concat newline (data :: rest))
       ∧ Forall2 (line_of fmt) (data :: rest) (preorder (f_map f))).
Proof.
  unfold Factory_str.
  destruct (print_tree_run fmt (f_map f) "" [] true) as (new & H1 & H2).
  assert (∀ data, node_data fmt (f_map f) = Ok data →
                  ∃ rest, (print_tree fmt (f_map f) "" [] true).1
                          = data :: rest) as Hfirst.
  { intros data Hd. destruct (f_map f) as [r q cs]. cbn [print_tree].
    rewrite Hd. simpl.
    destruct (print_children_run fmt
                (fun child => print_tree fmt child ("" +:+ BLANK)) cs)
      with (lines := [data]) as (new' & -> & _); [|by eauto].
    apply Forall_forall. intros c _ ls lst. apply print_tree_run. }
  destruct (print_tree fmt (f_map f) "" [] true) as [lines [[]|e]];
    simpl in *; subst lines.
  - split; [by intros []; eapply printed_products|]. intros Hall.
    assert (has_product (recipe (f_map f))) as [p Hp]%has_product_Ok.
    { destruct (f_map f). by apply nodes_have_product_node in Hall as [? _]. }
    assert (∃ data, node_data fmt (f_map f) = Ok data) as [data Hd].
    { unfold node_data. rewrite Hp. simpl. eauto. }
    destruct (Hfirst data Hd) as [rest ->]. by exists data, rest.
  - destruct H2 as (-> & Hno & _). split; [done|]. by intros ?.
Qed.

Lemma Factory_str_outcomes_witness :
  Factory_str (fun _ => "1.00") (Factory_of_recipe [] unfinished)
  = Raise IndexError
  ∧ ∃ data rest,
      node_data (fun _ => "1.00") (f_map widget_factory) = Ok data
      ∧ Factory_str (fun _ => "1.00") widget_factory
        = Ok (String.concat newline (data :: rest))
      ∧ Forall2 (line_of (fun _ => "1.00")) (data :: rest)
          (preorder (f_map widget_factory)).
Proof.
  split.
  - apply (proj1 (Factory_str_outcomes (fun _ => "1.00")
                    (Factory_of_recipe [] unfinished))).
    unfold nodes_have_product. simpl. by intros [? _]%Forall_cons_1.
  - apply (proj2 (Factory_str_outcomes (fun _ => "1.00") widget_factory)).
    unfold nodes_have_product. simpl. by repeat constructor.
Defined.

(** ** The spreadsheet rows *)

Import Spreadsheet.

Section LogRecipeFacts.
Variable float : string → result Qc.

Lemma log_parts_prefix per_minute pairs parts es :
  log_parts float per_minute pairs parts = Ok es →
  ∃ new,
    es = parts ++ new
    ∧ (length new ≤ length pairs)%nat
    ∧ (∀ i e, new !! i = Some e →
         e_name_nonempty e
         ∧ ∃ qty, pairs !! i = Some (ing_name e, qty)
                  ∧ float qty = Ok (ing_quantity e)
                  ∧ ing_raw_quantity e = fmul (ing_quantity e) per_minute)
    ∧ ((length new < length pairs)%nat →
       ∃ qty, pairs !! length new = Some ("", qty)).
Proof.
  revert parts. induction pairs as [|[part qty] rest IH]; intros parts; simpl.
  { intros [= <-]. exists []. rewrite app_nil_r.
    split; [done|]. split; [done|]. split; [by intros i e ?|].
    simpl. lia. }
  case_decide as Hpart.
  { intros [= <-]. exists []. rewrite app_nil_r. subst part.
    split; [done|]. split; [simpl; lia|]. split; [by intros i e ?|].
    simpl. eauto. }
  destruct (float qty) as [q|] eqn:Eq; simpl; [|done].
  intros (new & -> & Hlen & Hall & Hstop)%IH.
  exists (mkIngredient part q (fmul q per_minute) :: new).
  split; [by rewrite <- app_assoc|]. split; [simpl; lia|]. split.
  - intros [|i] e; simpl; [|by apply Hall].
    intros [= <-]. simpl. split; [done|]. eauto.
  - simpl. intros Hlt. apply Hstop. lia.
Qed.

Lemma logged_of_pairs per_minute args first pairs es :
  (∀ i part qty, pairs !! i = Some (part, qty) →
     args !! (first + 2 * i)%nat = Some part
     ∧ args !! (first + 1 + 2 * i)%nat = Some qty) →
  log_parts float per_minute pairs [] = Ok es →
  logged_from float per_minute args first (length pairs) es.
Proof.
  intros Hcols (new & -> & Hlen & Hall & Hstop)%log_parts_prefix.
  simpl. split; [done|]. split.
  - intros i e Hi. destruct (Hall i e Hi) as (Hne & qty & Hp & Hq & Hraw).
    destruct (Hcols _ _ _ Hp) as [??]. split; [done|]. split; [done|].
    split; [|done]. eauto.
  - intros Hlt. destruct (Hstop Hlt) as [qty Hp].
    by destruct (Hcols _ _ _ Hp) as [??].
Qed.

End LogRecipeFacts.

(** X25.  [log_recipe] needs a row of 19 columns at least: on fewer than six
    it raises [ValueError] (the unpacking), on six to eighteen [IndexError]
    (the read of column 18), whatever the columns hold. *)
Theorem log_recipe_short_row
    (float : string → result Qc) (int : string → result Z)
    (args : list string) :
  ((length args < 6)%nat → log_recipe float int args = Raise ValueError)
  ∧ ((6 ≤ length args < 19)%nat →
     log_recipe float int args = Raise IndexError)
  ∧ (∀ r, log_recipe float int args = Ok r → (19 ≤ length args)%nat).
Proof.
  assert ((length args < 6)%nat →
          log_recipe float int args = Raise ValueError) as Hshort.
  { intros Hlen. unfold log_recipe.
    do 6 (destruct args as [|? args]; [done|]). simpl in Hlen. lia. }
  assert ((6 ≤ length args < 19)%nat →
          log_recipe float int args = Raise IndexError) as Hmid.
  { intros Hlen. unfold log_recipe.
    do 6 (destruct args as [|? args]; [simpl in Hlen; lia|]).
    cbn [py_slice drop take Nat.sub].
    do 13 (destruct args as [|? args]; [done|]). simpl in Hlen. lia. }
  split; [done|]. split; [done|]. intros r Hr.
  destruct (decide (length args < 6)%nat) as [H6|H6].
  { rewrite (Hshort H6) in Hr. done. }
  destruct (decide (length args < 19)%nat) as [H19|H19]; [|lia].
  rewrite Hmid in Hr by lia. done.
Qed.

Lemma log_recipe_short_row_witness :
  log_recipe read_float read_int ["1"; "Iron Ingot"; "Smelter"]
  = Raise ValueError
  ∧ log_recipe read_float read_int (take 18 ingot_row) = Raise IndexError
  ∧ (19 ≤ length ingot_row)%nat.
Proof.
  destruct (log_recipe_short_row read_float read_int
              ["1"; "Iron Ingot"; "Smelter"]) as (H1 & _ & _).
  destruct (log_recipe_short_row read_float read_int (take 18 ingot_row))
    as (_ & H2 & _).
  destruct (log_recipe_short_row read_float read_int ingot_row)
    as (_ & _ & H3).
  split; [apply H1; simpl; lia|]. split; [apply H2; simpl; lia|].
  eapply H3. vm_compute. reflexivity.
Defined.

(** X26.  What [log_recipe] returns is read off the row: name and machine
    from columns 1 and 2, the rate from column 5, up to four inputs from
    columns 6 to 13 and up to two outputs from columns 14 to 17, each list
    stopping at the first empty part, each raw quantity being the float
    product of the quantity and the rate. *)
Theorem log_recipe_reads_the_row
    (float : string → result Qc) (int : string → result Z)
    (args : list string) (r : Recipe) :
  log_recipe float int args = Ok r →
  args !! 1%nat = Some (name r) ∧ args !! 2%nat = Some (machine r)
  ∧ ∃ rate per_minute,
      args !! 5%nat = Some rate ∧ float rate = Ok per_minute
      ∧ logged_from float per_minute args 6 4 (inputs r)
      ∧ logged_from float per_minute args 14 2 (outputs r).
Proof.
  intros Hr.
  destruct (decide (length args < 19)%nat) as [Hlen|Hlen].
  { exfalso. revert Hr. unfold log_recipe.
    do 6 (destruct args as [|? args]; [done|]).
    cbn [py_slice drop take Nat.sub].
    do 13 (destruct args as [|? args]; [done|]). simpl in Hlen. lia. }
  do 19 (destruct args as [|? args]; [simpl in Hlen; lia|]). clear Hlen.
  revert Hr. unfold log_recipe.
  cbn [py_slice drop take Nat.sub lookup list_lookup rbind].
  destruct (float s4) as [pm|] eqn:Epm; [|done]. cbn [rbind].
  destruct (log_parts float pm (columns 6 14 _) []) as [ins|] eqn:Ein;
    [|done]. cbn [rbind].
  destruct (log_parts float pm (columns 14 18 _) []) as [outs|] eqn:Eout;
    [|done]. cbn [rbind].
  destruct (float s3) as [t|]; [|done]. cbn [rbind].
  destruct (int s17) as [en|]; [|done]. cbn [rbind].
  intros [= <-]. cbn [name machine inputs outputs].
  split; [done|]. split; [done|]. exists s4, pm.
  split; [done|]. split; [done|]. split.
  - eapply (logged_of_pairs float pm _ 6) in Ein; [exact Ein|].
    intros [|[|[|[|i]]]] part qty; simpl; [by intros [= <- <-]..|done].
  - eapply (logged_of_pairs float pm _ 14) in Eout; [exact Eout|].
    intros [|[|i]] part qty; simpl; [by intros [= <- <-]..|done].
Qed.

Lemma log_recipe_reads_the_row_witness :
  ingot_row !! 1%nat = Some (name ingot_recipe)
  ∧ ingot_row !! 2%nat = Some (machine ingot_recipe)
  ∧ ∃ rate per_minute,
      ingot_row !! 5%nat = Some rate ∧ read_float rate = Ok per_minute
      ∧ logged_from read_float per_minute ingot_row 6 4 (inputs ingot_recipe)
      ∧ logged_from read_float per_minute ingot_row 14 2
          (outputs ingot_recipe).
Proof.
  apply (log_recipe_reads_the_row read_float read_int ingot_row
           ingot_recipe).
  reflexivity.
Defined.
